(** * lcmgen front end: lexer, parser and structural fingerprint

    Shallow embedding of [lcm_tokenize.py], [lcmgen2.py] and the driver loop
    of [main.py], followed by the properties established about them.

    Conventions of the embedding.
    - A Python [int] is a [Z]; [c_int64(v).value] is written out as the
      signed wrap-around [c_int64].
    - A Python [str] is a [string]; one [ascii] stands for one code point
      below 256, so the input alphabet of the model is Latin-1.  The source
      text of a file is the text Python hands out in text mode, after
      newline translation.
    - Python objects that are mutated in place ([Tokenize], [Lcmgen], the
      struct under construction) are threaded through a state monad; a
      member that is mutated after it was appended to [structure.members]
      is addressed by its index in that list.
    - [sys.exit], uncaught exceptions and the loop bound of the model are
      the three ways a computation can stop early. *)

From Stdlib Require Import ZArith List String Ascii Bool Lia.
From Stdlib Require Import DecimalString.
Import ListNotations.

Local Open Scope string_scope.
Local Open Scope Z_scope.

(** ** Python built-ins used by the sources *)

Module Py.

Definition ord (c : ascii) : Z := Z.of_N (N_of_ascii c).

Definition len (s : string) : Z := Z.of_nat (String.length s).

Definition chars (s : string) : list ascii := list_ascii_of_string s.

(** [x in xs] for a list of strings. *)
Definition str_in (x : string) (xs : list string) : bool :=
  existsb (String.eqb x) xs.

(** [c in xs] for a list of one-character strings. *)
Definition chr_in (c : ascii) (xs : list ascii) : bool :=
  existsb (Ascii.eqb c) xs.

Definition between (lo c hi : Z) : bool := (lo <=? c) && (c <=? hi).

(** [str.isspace] on one code point below 256. *)
Definition isspace (c : ascii) : bool :=
  let n := ord c in
  between 9 n 13 || between 28 n 32 || (n =? 133) || (n =? 160).

(** [str.isalpha] on one code point below 256. *)
Definition isalpha (c : ascii) : bool :=
  let n := ord c in
  between 65 n 90 || between 97 n 122 || (n =? 170) || (n =? 181)
  || (n =? 186) || between 192 n 214 || between 216 n 246
  || between 248 n 255.

Definition is_ascii_digit (c : ascii) : bool := between 48 (ord c) 57.

(** [str.isdigit] on one code point below 256: the ASCII digits and the
    three superscript digits. *)
Definition isdigit_char (c : ascii) : bool :=
  let n := ord c in
  is_ascii_digit c || (n =? 178) || (n =? 179) || (n =? 185).

(** [s.isdigit()]: non-empty and every character a digit. *)
Definition isdigit (s : string) : bool :=
  match chars s with
  | [] => false
  | cs => forallb isdigit_char cs
  end.

(** [s[:k]] for any integer [k]. *)
Definition slice_to (s : string) (k : Z) : string :=
  let n := len s in
  let k' := if k <? 0 then Z.max 0 (n + k) else Z.min k n in
  substring 0 (Z.to_nat k') s.

(** [s[k:]] for [0 <= k]. *)
Definition slice_from (s : string) (k : Z) : string :=
  substring (Z.to_nat k) (String.length s - Z.to_nat k) s.

(** [s.rfind(".")]: index of the last dot, or -1. *)
Fixpoint rfind_dot_from (i : Z) (cs : list ascii) (last : Z) : Z :=
  match cs with
  | [] => last
  | c :: cs' =>
      rfind_dot_from (i + 1) cs' (if Ascii.eqb c "." then i else last)
  end.

Definition rfind_dot (s : string) : Z := rfind_dot_from 0 (chars s) (-1).

(** [str(n)] for an integer. *)
Definition str_of_int (n : Z) : string :=
  NilZero.string_of_int (Z.to_int n).

Fixpoint dropwhile (p : ascii -> bool) (cs : list ascii) : list ascii :=
  match cs with
  | [] => []
  | c :: cs' => if p c then dropwhile p cs' else cs
  end.

(** [s.strip()] on the character list. *)
Definition strip (cs : list ascii) : list ascii :=
  rev (dropwhile isspace (rev (dropwhile isspace cs))).

(** Value of a digit character in [int()]: 0-9, then letters from 10. *)
Definition digit_value (c : ascii) : Z :=
  let n := ord c in
  if between 48 n 57 then n - 48
  else if between 97 n 122 then n - 87
  else if between 65 n 90 then n - 55
  else 37.

(** The digit run of an integer literal: digits below [base] separated by
    single underscores, neither leading nor trailing.  [prev_us] tells
    whether the previous character was an underscore; [seen] counts the
    digits read.  [None] is a malformed run. *)
Fixpoint int_digits (base : Z) (cs : list ascii) (prev_us : bool)
         (seen : nat) (acc : Z) : option Z :=
  match cs with
  | [] => if prev_us then None
          else match seen with O => None | _ => Some acc end
  | c :: cs' =>
      if Ascii.eqb c "_" then
        if prev_us then None else int_digits base cs' true seen acc
      else if digit_value c <? base then
        int_digits base cs' false (S seen) (acc * base + digit_value c)
      else None
  end.

Definition is_one_of (c : ascii) (a b : ascii) : bool :=
  Ascii.eqb c a || Ascii.eqb c b.

(** [int(s, base=0)]: [None] stands for [ValueError]. *)
Definition int_base0 (s : string) : option Z :=
  let cs := strip (chars s) in
  let '(sign, cs) :=
    match cs with
    | c :: r => if Ascii.eqb c "+" then (1, r)
                else if Ascii.eqb c "-" then (-1, r)
                else (1, cs)
    | [] => (1, cs)
    end in
  let skip_us (r : list ascii) :=
    match r with
    | u :: r' => if Ascii.eqb u "_" then r' else r
    | [] => r
    end in
  let body :=
    match cs with
    | z :: p :: r =>
        if Ascii.eqb z "0" then
          if is_one_of p "x" "X" then
            (16, false, skip_us r)
          else if is_one_of p "o" "O" then
            (8, false, skip_us r)
          else if is_one_of p "b" "B" then
            (2, false, skip_us r)
          else (10, true, cs)
        else (10, false, cs)
    | [z] => (10, Ascii.eqb z "0", cs)
    | [] => (10, false, cs)
    end in
  let '(base, zero_only, ds) := body in
  match ds with
  | [] => None
  | d :: _ =>
      if Ascii.eqb d "_" then None
      else
        match int_digits base ds false O 0 with
        | None => None
        | Some n =>
            if zero_only && negb (n =? 0) then None else Some (sign * n)
        end
  end.

(** [int(s)] for a string that satisfies [isdigit]: the superscript
    digits pass [isdigit] and make [int] raise [ValueError] ([None]). *)
Definition int_of_digits (s : string) : option Z :=
  if forallb is_ascii_digit (chars s)
  then int_digits 10 (chars s) false O 0
  else None.

Definition lower (c : ascii) : ascii :=
  let n := ord c in
  if between 65 n 90 then ascii_of_N (Z.to_N (n + 32)) else c.

(** Underscores of a float literal stand between two digits. *)
Fixpoint float_underscores_ok (prev : option ascii) (cs : list ascii)
  : bool :=
  let prev_digit :=
    match prev with Some p => is_ascii_digit p | None => false end in
  let prev_us :=
    match prev with Some p => Ascii.eqb p "_" | None => false end in
  match cs with
  | [] => negb prev_us
  | c :: cs' =>
      if Ascii.eqb c "_" then
        prev_digit && float_underscores_ok (Some c) cs'
      else
        (negb prev_us || is_ascii_digit c)
        && float_underscores_ok (Some c) cs'
  end.

Definition drop_sign (cs : list ascii) : list ascii :=
  match cs with
  | c :: r => if is_one_of c "+" "-" then r else cs
  | [] => cs
  end.

Definition all_digits1 (cs : list ascii) : bool :=
  match cs with [] => false | _ => forallb is_ascii_digit cs end.

Fixpoint span_digits (cs : list ascii) : list ascii * list ascii :=
  match cs with
  | c :: r =>
      if is_ascii_digit c
      then let '(d, rest) := span_digits r in (c :: d, rest)
      else ([], cs)
  | [] => ([], [])
  end.

Definition float_exponent_ok (cs : list ascii) : bool :=
  match cs with
  | [] => true
  | e :: r => Ascii.eqb (lower e) "e" && all_digits1 (drop_sign r)
  end.

(** Whether [float(s)] returns; [false] stands for [ValueError]. *)
Definition float_ok (s : string) : bool :=
  let cs := strip (chars s) in
  float_underscores_ok None cs &&
  let cs := filter (fun c => negb (Ascii.eqb c "_")) cs in
  let body := map lower (drop_sign cs) in
  let word := string_of_list_ascii body in
  if str_in word ["inf"; "infinity"; "nan"] then true
  else
    let '(ip, rest) := span_digits body in
    match rest with
    | dot :: r =>
        if Ascii.eqb dot "." then
          let '(fp, rest') := span_digits r in
          match ip, fp with
          | [], [] => false
          | _, _ => float_exponent_ok rest'
          end
        else
          match ip with
          | [] => false
          | _ => float_exponent_ok rest
          end
    | [] => match ip with [] => false | _ => true end
    end.

End Py.

(** ** Schema model ([lcmgen2.py]) *)

Record LcmTypename := mkLcmTypename {
  lctypename : string;
  package : string;
  shortname : string
}.

Inductive DimensionMode := CONST | VAR.

Definition DimensionMode_value (m : DimensionMode) : Z :=
  match m with CONST => 0 | VAR => 1 end.

Record Dimension := mkDimension {
  mode : DimensionMode;
  size : string
}.

Record Member := mkMember {
  type : LcmTypename;
  membername : string;
  dimensions : list Dimension;
  comment : option string
}.

Record Constant := mkConstant {
  typename : string;
  const_membername : string;
  val_str : string;
  const_comment : option string
}.

#[warnings="-register-all"]
Inductive Struct := mkStruct {
  structname : LcmTypename;
  members : list Member;
  structs : list Struct;
  constants : list Constant;
  lcmfile : string;
  hash : Z;
  struct_comment : option string;
  struct_file_comment : option string
}.

Definition PRIMITIVE_TYPES : list string :=
  ["int8_t"; "int16_t"; "int32_t"; "int64_t"; "byte"; "float"; "double";
   "string"; "boolean"].

Definition ARRAY_DIMENSION_TYPES : list string :=
  ["int8_t"; "int16_t"; "int32_t"; "int64_t"].

Definition CONST_TYPES : list string :=
  ["int8_t"; "int16_t"; "int32_t"; "int64_t"; "float"; "double"].

Definition INT_TYPES : list (string * (Z * Z)) :=
  [("int8_t", (-128, 127));
   ("int16_t", (-32767 - 1, 32767));
   ("int32_t", (-2147483647 - 1, 2147483647));
   ("int64_t", (-9223372036854775807 - 1, 9223372036854775807))].

Fixpoint dict_get {A} (d : list (string * A)) (k : string) : option A :=
  match d with
  | [] => None
  | (k', v) :: d' => if String.eqb k k' then Some v else dict_get d' k
  end.

(** [int_in_type_bounds]; [None] stands for the [KeyError] of
    [INT_TYPES[type]]. *)
Definition int_in_type_bounds (val : Z) (ty : string) : option bool :=
  match dict_get INT_TYPES ty with
  | Some bounds => Some ((fst bounds <=? val) && (val <=? snd bounds))
  | None => None
  end.

(** [is_legal_member_name]; [None] stands for the [IndexError] of [s[0]]. *)
Definition is_legal_member_name (s : string) : option bool :=
  match s with
  | EmptyString => None
  | String c _ => Some (Py.isalpha c || Ascii.eqb c "_")
  end.

Definition is_array_dimension_type (tn : LcmTypename) : bool :=
  Py.str_in (lctypename tn) ARRAY_DIMENSION_TYPES.

(** ** Fingerprint *)

Definition c_int64 (v : Z) : Z := (v + 2 ^ 63) mod 2 ^ 64 - 2 ^ 63.

Definition hash_update (v char_ord : Z) : Z :=
  let c := char_ord in
  let v := Z.lxor (Z.shiftl v 8) (Z.shiftr v 55) + c in
  c_int64 v.

Definition hash_string_update (v : Z) (s : string) : Z :=
  let v := hash_update v (Py.len s) in
  fold_left (fun v c => hash_update v (Py.ord c)) (Py.chars s) v.

Definition hash_seed : Z := 0x12345678.

(** One iteration of the loop over [structure.members]. *)
Definition hash_member (v : Z) (member : Member) : Z :=
  let v := hash_string_update v (membername member) in
  let v :=
    if Py.str_in (lctypename (type member)) PRIMITIVE_TYPES
    then hash_string_update v (lctypename (type member))
    else v in
  let v := hash_update v (Z.of_nat (List.length (dimensions member))) in
  fold_left
    (fun v dim =>
       let v := hash_update v (DimensionMode_value (mode dim)) in
       hash_string_update v (size dim))
    (dimensions member) v.

Definition hash_structure (structure : Struct) : Z :=
  fold_left hash_member (members structure) hash_seed.

(** ** Lexer state ([lcm_tokenize.py]) *)

Inductive TokenType := INVALID | EOF | COMMENT | OTHER.

Definition TokenType_eqb (a b : TokenType) : bool :=
  match a, b with
  | INVALID, INVALID | EOF, EOF | COMMENT, COMMENT | OTHER, OTHER => true
  | _, _ => false
  end.

(** [current_char] and [unget_char] hold a one-character string, the empty
    string or [None]; the sources only test them for truth, so the empty
    string and [None] are both [None] here.  [f] is the part of the file
    that [readline] has not yet returned. *)
Record Tokenize := mkTokenize {
  token : string;
  token_line : Z;
  token_column : Z;
  current_char : option ascii;
  current_line : Z;
  current_column : Z;
  unget_char : option ascii;
  unget_line : Z;
  unget_column : Z;
  buffer : string;
  buffer_line : Z;
  buffer_column : Z;
  buffer_len : Z;
  path : string;
  f : string;
  hasnext : Z;
  token_type : TokenType
}.

Definition set_token (x : string) (r : Tokenize) : Tokenize :=
  mkTokenize x (token_line r) (token_column r) (current_char r)
    (current_line r) (current_column r) (unget_char r) (unget_line r)
    (unget_column r) (buffer r) (buffer_line r) (buffer_column r)
    (buffer_len r) (path r) (f r) (hasnext r) (token_type r).

Definition set_token_line (x : Z) (r : Tokenize) : Tokenize :=
  mkTokenize (token r) x (token_column r) (current_char r) (current_line r)
    (current_column r) (unget_char r) (unget_line r) (unget_column r)
    (buffer r) (buffer_line r) (buffer_column r) (buffer_len r) (path r)
    (f r) (hasnext r) (token_type r).

Definition set_token_column (x : Z) (r : Tokenize) : Tokenize :=
  mkTokenize (token r) (token_line r) x (current_char r) (current_line r)
    (current_column r) (unget_char r) (unget_line r) (unget_column r)
    (buffer r) (buffer_line r) (buffer_column r) (buffer_len r) (path r)
    (f r) (hasnext r) (token_type r).

Definition set_current_char (x : option ascii) (r : Tokenize) : Tokenize :=
  mkTokenize (token r) (token_line r) (token_column r) x (current_line r)
    (current_column r) (unget_char r) (unget_line r) (unget_column r)
    (buffer r) (buffer_line r) (buffer_column r) (buffer_len r) (path r)
    (f r) (hasnext r) (token_type r).

Definition set_current_line (x : Z) (r : Tokenize) : Tokenize :=
  mkTokenize (token r) (token_line r) (token_column r) (current_char r) x
    (current_column r) (unget_char r) (unget_line r) (unget_column r)
    (buffer r) (buffer_line r) (buffer_column r) (buffer_len r) (path r)
    (f r) (hasnext r) (token_type r).

Definition set_current_column (x : Z) (r : Tokenize) : Tokenize :=
  mkTokenize (token r) (token_line r) (token_column r) (current_char r)
    (current_line r) x (unget_char r) (unget_line r) (unget_column r)
    (buffer r) (buffer_line r) (buffer_column r) (buffer_len r) (path r)
    (f r) (hasnext r) (token_type r).

Definition set_unget_char (x : option ascii) (r : Tokenize) : Tokenize :=
  mkTokenize (token r) (token_line r) (token_column r) (current_char r)
    (current_line r) (current_column r) x (unget_line r) (unget_column r)
    (buffer r) (buffer_line r) (buffer_column r) (buffer_len r) (path r)
    (f r) (hasnext r) (token_type r).

Definition set_unget_line (x : Z) (r : Tokenize) : Tokenize :=
  mkTokenize (token r) (token_line r) (token_column r) (current_char r)
    (current_line r) (current_column r) (unget_char r) x (unget_column r)
    (buffer r) (buffer_line r) (buffer_column r) (buffer_len r) (path r)
    (f r) (hasnext r) (token_type r).

Definition set_unget_column (x : Z) (r : Tokenize) : Tokenize :=
  mkTokenize (token r) (token_line r) (token_column r) (current_char r)
    (current_line r) (current_column r) (unget_char r) (unget_line r) x
    (buffer r) (buffer_line r) (buffer_column r) (buffer_len r) (path r)
    (f r) (hasnext r) (token_type r).

Definition set_buffer (x : string) (r : Tokenize) : Tokenize :=
  mkTokenize (token r) (token_line r) (token_column r) (current_char r)
    (current_line r) (current_column r) (unget_char r) (unget_line r)
    (unget_column r) x (buffer_line r) (buffer_column r) (buffer_len r)
    (path r) (f r) (hasnext r) (token_type r).

Definition set_buffer_line (x : Z) (r : Tokenize) : Tokenize :=
  mkTokenize (token r) (token_line r) (token_column r) (current_char r)
    (current_line r) (current_column r) (unget_char r) (unget_line r)
    (unget_column r) (buffer r) x (buffer_column r) (buffer_len r) (path r)
    (f r) (hasnext r) (token_type r).

Definition set_buffer_column (x : Z) (r : Tokenize) : Tokenize :=
  mkTokenize (token r) (token_line r) (token_column r) (current_char r)
    (current_line r) (current_column r) (unget_char r) (unget_line r)
    (unget_column r) (buffer r) (buffer_line r) x (buffer_len r) (path r)
    (f r) (hasnext r) (token_type r).

Definition set_buffer_len (x : Z) (r : Tokenize) : Tokenize :=
  mkTokenize (token r) (token_line r) (token_column r) (current_char r)
    (current_line r) (current_column r) (unget_char r) (unget_line r)
    (unget_column r) (buffer r) (buffer_line r) (buffer_column r) x (path r)
    (f r) (hasnext r) (token_type r).

Definition set_path (x : string) (r : Tokenize) : Tokenize :=
  mkTokenize (token r) (token_line r) (token_column r) (current_char r)
    (current_line r) (current_column r) (unget_char r) (unget_line r)
    (unget_column r) (buffer r) (buffer_line r) (buffer_column r)
    (buffer_len r) x (f r) (hasnext r) (token_type r).

Definition set_f (x : string) (r : Tokenize) : Tokenize :=
  mkTokenize (token r) (token_line r) (token_column r) (current_char r)
    (current_line r) (current_column r) (unget_char r) (unget_line r)
    (unget_column r) (buffer r) (buffer_line r) (buffer_column r)
    (buffer_len r) (path r) x (hasnext r) (token_type r).

Definition set_hasnext (x : Z) (r : Tokenize) : Tokenize :=
  mkTokenize (token r) (token_line r) (token_column r) (current_char r)
    (current_line r) (current_column r) (unget_char r) (unget_line r)
    (unget_column r) (buffer r) (buffer_line r) (buffer_column r)
    (buffer_len r) (path r) (f r) x (token_type r).

Definition set_token_type (x : TokenType) (r : Tokenize) : Tokenize :=
  mkTokenize (token r) (token_line r) (token_column r) (current_char r)
    (current_line r) (current_column r) (unget_char r) (unget_line r)
    (unget_column r) (buffer r) (buffer_line r) (buffer_column r)
    (buffer_len r) (path r) (f r) (hasnext r) x.

(** [create], once [path.open] has returned the text [src]. *)
Definition create (p : string) (src : string) : Tokenize :=
  {| f := src; path := p;
     token := EmptyString; token_line := -1; token_column := -1;
     buffer := EmptyString; buffer_column := 0; buffer_len := 0;
     buffer_line := 0;
     hasnext := 0;
     current_char := None; current_column := 0; current_line := 0;
     unget_char := None; unget_column := 0; unget_line := 0;
     token_type := INVALID |}.

(** ** Compiler state *)

Record ParseCache := mkParseCache {
  cache_package : string;
  comment_doc : option string;
  file_comment : option string
}.

(** The [gopt] dictionary: an absent key is [None]. *)
Record GenOptions := mkGenOptions {
  package_prefix : option string;
  tokenize : option bool
}.

Record Lcmgen := mkLcmgen {
  parse_cache : ParseCache;
  gopt : GenOptions;
  lcmgen_structs : list Struct
}.

Definition create_lcmgen : Lcmgen :=
  {| parse_cache :=
       {| cache_package := EmptyString; comment_doc := None;
          file_comment := None |};
     lcmgen_structs := [];
     gopt := {| package_prefix := None; tokenize := None |} |}.

(** ** The state monad of one file

    [World] holds the objects that the lexer and the parser of one file
    mutate: the tokenizer [t], the compiler state [lcmgen] and the lines
    written to standard output, one entry per [print] call. *)

Record World := mkWorld {
  t : Tokenize;
  lcmgen : Lcmgen;
  stdout : list string
}.

Inductive exn := IndexError | ValueError | KeyError | AssertionError.

(** How a computation ends: it returns, it calls [sys.exit], it raises an
    exception nobody catches, or the model ran out of loop iterations. *)
Inductive Res (A : Type) :=
| Ok (a : A) (w : World)
| Exit (code : Z) (w : World)
| Raise (e : exn) (w : World)
| OutOfFuel.

Arguments Ok {A} a w.
Arguments Exit {A} code w.
Arguments Raise {A} e w.
Arguments OutOfFuel {A}.

Definition M (A : Type) : Type := World -> Res A.

Definition ret {A} (a : A) : M A := fun w => Ok a w.

Definition bind {A B} (m : M A) (k : A -> M B) : M B :=
  fun w =>
    match m w with
    | Ok a w' => k a w'
    | Exit c w' => Exit c w'
    | Raise e w' => Raise e w'
    | OutOfFuel => OutOfFuel
    end.

Declare Scope monad_scope.
Delimit Scope monad_scope with monad.
Notation "x <- m ;; k" := (bind m (fun x => k))
  (at level 61, m at next level, right associativity) : monad_scope.
Notation "m ;; k" := (bind m (fun _ => k))
  (at level 61, right associativity) : monad_scope.
Local Open Scope monad_scope.

Definition sys_exit {A} (code : Z) : M A := fun w => Exit code w.
Definition raise {A} (e : exn) : M A := fun w => Raise e w.
Definition out_of_fuel {A} : M A := fun _ => OutOfFuel.

Definition get_t : M Tokenize := fun w => Ok (t w) w.
Definition upd_t (g : Tokenize -> Tokenize) : M unit :=
  fun w => Ok tt (mkWorld (g (t w)) (lcmgen w) (stdout w)).

Definition get_lcmgen : M Lcmgen := fun w => Ok (lcmgen w) w.
Definition upd_lcmgen (g : Lcmgen -> Lcmgen) : M unit :=
  fun w => Ok tt (mkWorld (t w) (g (lcmgen w)) (stdout w)).

Definition print (line : string) : M unit :=
  fun w => Ok tt (mkWorld (t w) (lcmgen w) (stdout w ++ [line])).

(** ** Characters *)

Definition NL : ascii := "010".
Definition TAB : ascii := "009".
Definition CR : ascii := "013".
Definition SPACE : ascii := " ".
Definition DQUOTE : ascii := "034".
Definition SQUOTE : ascii := "'".
Definition BACKSLASH : ascii := "\".
Definition SLASH : ascii := "/".
Definition STAR : ascii := "*".

(** [c == x] for an optional character [c]. *)
Definition is_chr (c : option ascii) (x : ascii) : bool :=
  match c with Some ch => Ascii.eqb ch x | None => false end.

(** [f.readline()]: the next line with its newline, and what is left. *)
Fixpoint readline (s : string) : string * string :=
  match s with
  | EmptyString => (EmptyString, EmptyString)
  | String c r =>
      if Ascii.eqb c NL then (String c EmptyString, r)
      else let '(l, r') := readline r in (String c l, r')
  end.

(** [s[i]]; [None] stands for [IndexError]. *)
Definition str_index (s : string) (i : Z) : option ascii :=
  let i' := if i <? 0 then Py.len s + i else i in
  if i' <? 0 then None else String.get (Z.to_nat i') s.

Definition add_char (s : string) (c : ascii) : string :=
  s ++ String c EmptyString.

(** ** Character level *)

Definition next_char : M (option ascii) :=
  tk <- get_t ;;
  match unget_char tk with
  | Some c =>
      upd_t (fun t =>
               set_unget_char None
                 (set_current_column (unget_column t)
                    (set_current_line (unget_line t)
                       (set_current_char (unget_char t) t)))) ;;
      ret (Some c)
  | None =>
      more <-
        (if buffer_column tk =? buffer_len tk then
           let '(line, rest) := readline (f tk) in
           upd_t (fun t => set_f rest (set_buffer line t)) ;;
           match line with
           | EmptyString => ret false
           | _ =>
               upd_t (fun t =>
                        set_buffer_column 0
                          (set_buffer_line (buffer_line t + 1)
                             (set_buffer_len (Py.len (buffer t)) t))) ;;
               ret true
           end
         else ret true) ;;
      if more : bool then
        tk <- get_t ;;
        match str_index (buffer tk) (buffer_column tk) with
        | None => raise IndexError
        | Some c =>
            upd_t (fun t =>
                     set_buffer_column (buffer_column t + 1)
                       (set_current_column (buffer_column t)
                          (set_current_line (buffer_line t)
                             (set_current_char (Some c) t)))) ;;
            ret (Some c)
        end
      else ret None
  end.

Definition unget : M unit :=
  upd_t (fun t =>
           set_unget_column (current_column t)
             (set_unget_line (current_line t)
                (set_unget_char (current_char t) t))).

Definition add_char_to_token (c : ascii) : M unit :=
  upd_t (fun t => set_token (add_char (token t) c) t).

Definition set_type (ty : TokenType) : M unit :=
  upd_t (set_token_type ty).

Definition unescape (c : option ascii) : option ascii :=
  match c with
  | None => None
  | Some ch =>
      if Ascii.eqb ch "n" then Some NL
      else if Ascii.eqb ch "r" then Some CR
      else if Ascii.eqb ch "t" then Some TAB
      else Some ch
  end.

Definition OPERATOR_CHARS : list ascii := Py.chars "!~<>=&|^%*+=".

Definition SINGLE_CHAR_TOKENS : list ascii :=
  Py.chars "();" ++ [DQUOTE] ++ Py.chars ",:'[]".

(** [c in xs] for an optional character: [None] is in no list. *)
Definition opt_in (c : option ascii) (xs : list ascii) : bool :=
  match c with Some ch => Py.chr_in ch xs | None => false end.

(** Every loop of the sources is a [Fixpoint] on a bound [n] on its number
    of iterations, and stops with [OutOfFuel] when the bound is used up. *)

Section Lexer.

Variable fuel : nat.

(** Read until the end of the current line. *)
Fixpoint flush_line_loop (n : nat) (c : option ascii) : M unit :=
  match n with
  | O => out_of_fuel
  | S n' =>
      match c with
      | Some ch =>
          if Ascii.eqb ch NL then ret tt
          else c' <- next_char ;; flush_line_loop n' c'
      | None => ret tt
      end
  end.

Definition flush_line : M unit :=
  c <- next_char ;; flush_line_loop fuel c.

(** *** Block comments *)

(** Go through leading whitespace; returns the first other character
    and [pos]. *)
Fixpoint comment_leading_space (n : nat) (pos : Z)
  : M (option ascii * Z) :=
  match n with
  | O => out_of_fuel
  | S n' =>
      c <- next_char ;;
      match c with
      | Some ch =>
          if Ascii.eqb ch SPACE || Ascii.eqb ch TAB then
            add_char_to_token ch ;;
            comment_leading_space n' (pos + 1)
          else ret (c, pos)
      | None => ret (c, pos)
      end
  end.

(** Go through asterisks; returns [c], [pos] and [got_asterisk]. *)
Fixpoint comment_asterisks (n : nat) (c : option ascii) (pos : Z)
         (got_asterisk : bool) : M (option ascii * Z * bool) :=
  match n with
  | O => out_of_fuel
  | S n' =>
      match c with
      | Some ch =>
          if Ascii.eqb ch STAR then
            add_char_to_token ch ;;
            c' <- next_char ;;
            comment_asterisks n' c' (pos + 1) true
          else ret (c, pos, got_asterisk)
      | None => ret (c, pos, got_asterisk)
      end
  end.

(** The rest of the line is comment content; returns [c], [pos] and
    [comment_finished]. *)
Fixpoint comment_rest_of_line (n : nat) (c : option ascii) (pos : Z)
  : M (option ascii * Z * bool) :=
  match n with
  | O => out_of_fuel
  | S n' =>
      match c with
      | Some last_c =>
          if Ascii.eqb last_c NL then ret (c, pos, false)
          else
            add_char_to_token last_c ;;
            c' <- next_char ;;
            if Ascii.eqb last_c STAR && is_chr c' SLASH
            then ret (c', pos + 1 - 1, true)
            else comment_rest_of_line n' c' (pos + 1)
      | None => ret (c, pos, false)
      end
  end.

(** The loop [while not comment_finished]; [None] is the [return None]
    at end of stream, [Some pos] the value of [pos] when the loop is
    left. *)
Fixpoint comment_lines (n : nat) (pos : Z) : M (option Z) :=
  match n with
  | O => out_of_fuel
  | S n' =>
      let pos_line_start := pos in
      r <- comment_leading_space fuel pos ;;
      let '(c, pos) := r in
      r <- comment_asterisks fuel c pos false ;;
      let '(c, pos, got_asterisk) := r in
      r <-
        (if got_asterisk : bool then
           upd_t (fun t =>
                    set_token (Py.slice_to (token t) pos_line_start) t) ;;
           if is_chr c SLASH then ret (c, pos_line_start, true)
           else if is_chr c SPACE then
             c' <- next_char ;; ret (c', pos_line_start, false)
           else ret (c, pos_line_start, false)
         else ret (c, pos, false)) ;;
      let '(c, pos, finished_at_stars) := r in
      if finished_at_stars : bool then ret (Some pos)
      else
        r <- comment_rest_of_line fuel c pos ;;
        let '(c, pos, comment_finished) := r in
        if comment_finished : bool then ret (Some pos)
        else
          match c with
          | None =>
              tk <- get_t ;;
              print (path tk ++ " : EOF reached while parsing comment!") ;;
              ret None
          | Some ch =>
              if negb (Ascii.eqb ch NL) then raise AssertionError
              else if negb (pos_line_start =? pos) then
                add_char_to_token ch ;;
                comment_lines n' (pos + 1)
              else comment_lines n' pos
          end
  end.

Definition tokenize_extended_comment : M (option Z) :=
  upd_t (set_token EmptyString) ;;
  r <- comment_lines fuel 0 ;;
  match r with
  | None => ret None
  | Some pos => set_type COMMENT ;; ret (Some pos)
  end.

(** *** One token *)

(** [while c and c.isspace(): c = next_char(t)] *)
Fixpoint skip_space (n : nat) (c : option ascii) : M (option ascii) :=
  match n with
  | O => out_of_fuel
  | S n' =>
      match c with
      | Some ch =>
          if Py.isspace ch then c' <- next_char ;; skip_space n' c'
          else ret c
      | None => ret c
      end
  end.

(** The body of a string literal, up to the closing quote. *)
Fixpoint string_literal (n : nat) (pos : Z) (escape_next : bool)
  : M (option Z) :=
  match n with
  | O => out_of_fuel
  | S n' =>
      c <- next_char ;;
      match c with
      | None => ret None
      | Some ch =>
          if escape_next then string_literal n' pos false
          else if Ascii.eqb ch DQUOTE then
            add_char_to_token ch ;; ret (Some (pos + 1))
          else if Ascii.eqb ch BACKSLASH then string_literal n' pos true
          else add_char_to_token ch ;; string_literal n' (pos + 1) false
      end
  end.

(** [while c in OPERATOR_CHARS] *)
Fixpoint operator_run (n : nat) (c : option ascii) (pos : Z) : M Z :=
  match n with
  | O => out_of_fuel
  | S n' =>
      match c with
      | Some ch =>
          if Py.chr_in ch OPERATOR_CHARS then
            add_char_to_token ch ;;
            c' <- next_char ;;
            operator_run n' c' (pos + 1)
          else ret pos
      | None => ret pos
      end
  end.

(** [while c == x: c = next_char(t)] *)
Fixpoint skip_char (n : nat) (x : ascii) (c : option ascii)
  : M (option ascii) :=
  match n with
  | O => out_of_fuel
  | S n' =>
      if is_chr c x then c' <- next_char ;; skip_char n' x c'
      else ret c
  end.

(** The text of a line comment, up to the newline. *)
Fixpoint line_comment_text (n : nat) (c : option ascii) (pos : Z) : M Z :=
  match n with
  | O => out_of_fuel
  | S n' =>
      match c with
      | Some ch =>
          if Ascii.eqb ch NL then ret pos
          else
            add_char_to_token ch ;;
            c' <- next_char ;;
            line_comment_text n' c' (pos + 1)
      | None => ret pos
      end
  end.

(** The last loop: all other tokens are alpha-numeric blobs. *)
Fixpoint blob (n : nat) (c : option ascii) (pos : Z) : M Z :=
  match n with
  | O => out_of_fuel
  | S n' =>
      match c with
      | Some ch =>
          if Py.isspace ch then ret pos
          else
            add_char_to_token ch ;;
            let pos := pos + 1 in
            if Py.chr_in ch SINGLE_CHAR_TOKENS then ret pos
            else
              c' <- next_char ;;
              if opt_in c' SINGLE_CHAR_TOKENS || opt_in c' OPERATOR_CHARS
              then unget ;; ret pos
              else blob n' c' pos
      | None => ret pos
      end
  end.

Definition tokenize_next_internal : M (option Z) :=
  set_type INVALID ;;
  upd_t (set_token EmptyString) ;;
  c <- next_char ;;
  c <- skip_space fuel c ;;
  match c with
  | None => set_type INVALID ;; ret None
  | Some ch =>
      (* A token is starting. mark its position. *)
      upd_t (fun t =>
               set_token_column (current_column t)
                 (set_token_line (current_line t) t)) ;;
      if Ascii.eqb ch SQUOTE then
        (* c is a character literal? *)
        add_char_to_token ch ;;
        c <- next_char ;;
        c <- (if is_chr c BACKSLASH
              then c' <- next_char ;; ret (unescape c')
              else ret c) ;;
        match c with
        | None => ret None
        | Some ch =>
            add_char_to_token ch ;;
            c <- next_char ;;
            match c with
            | Some q =>
                if Ascii.eqb q SQUOTE then
                  add_char_to_token q ;;
                  set_type OTHER ;;
                  ret (Some 3)
                else ret None
            | None => ret None
            end
        end
      else if Ascii.eqb ch DQUOTE then
        (* c is a string literal? *)
        add_char_to_token ch ;;
        string_literal fuel 1 false
      else if Py.chr_in ch OPERATOR_CHARS then
        (* c is an operator? *)
        set_type OTHER ;;
        pos <- operator_run fuel c 0 ;;
        unget ;;
        ret (Some pos)
      else if Ascii.eqb ch SLASH then
        (* c is a comment? *)
        add_char_to_token ch ;;
        c <- next_char ;;
        match c with
        | None => set_type OTHER ;; ret (Some 1)
        | Some ch2 =>
            if Ascii.eqb ch2 STAR then tokenize_extended_comment
            else if Ascii.eqb ch2 SLASH then
              set_type COMMENT ;;
              c <- next_char ;;
              c <- skip_char fuel SLASH c ;;
              c <- skip_char fuel SPACE c ;;
              upd_t (set_token EmptyString) ;;
              pos <- line_comment_text fuel c 0 ;;
              unget ;;
              ret (Some pos)
            else
              set_type OTHER ;;
              unget ;;
              ret (Some 1)
        end
      else
        set_type OTHER ;;
        pos <- blob fuel c 0 ;;
        ret (Some pos)
  end.

Definition tokenize_next : M (option Z) :=
  tk <- get_t ;;
  if negb (hasnext tk =? 0) then
    upd_t (set_hasnext 0) ;; ret (Some 0)
  else tokenize_next_internal.

Definition tokenize_peek : M (option Z) :=
  tk <- get_t ;;
  if negb (hasnext tk =? 0) then ret (Some 0)
  else
    res <- tokenize_next ;;
    match res with
    | Some _ => upd_t (set_hasnext 1) ;; ret res
    | None => ret res
    end.

End Lexer.

(** ** Parser ([lcmgen2.py]) *)

Definition KW_STRUCT : string := "struct".
Definition KW_PACKAGE : string := "package".
Definition KW_CONST : string := "const".
Definition KW_ENUM : string := "enum".

Definition set_structname (x : LcmTypename) (r : Struct) : Struct :=
  mkStruct x (members r) (structs r) (constants r) (lcmfile r) (hash r)
    (struct_comment r) (struct_file_comment r).

Definition set_members (x : list Member) (r : Struct) : Struct :=
  mkStruct (structname r) x (structs r) (constants r) (lcmfile r) (hash r)
    (struct_comment r) (struct_file_comment r).

Definition set_structs (x : list Struct) (r : Struct) : Struct :=
  mkStruct (structname r) (members r) x (constants r) (lcmfile r) (hash r)
    (struct_comment r) (struct_file_comment r).

Definition set_constants (x : list Constant) (r : Struct) : Struct :=
  mkStruct (structname r) (members r) (structs r) x (lcmfile r) (hash r)
    (struct_comment r) (struct_file_comment r).

Definition set_lcmfile (x : string) (r : Struct) : Struct :=
  mkStruct (structname r) (members r) (structs r) (constants r) x (hash r)
    (struct_comment r) (struct_file_comment r).

Definition set_hash (x : Z) (r : Struct) : Struct :=
  mkStruct (structname r) (members r) (structs r) (constants r) (lcmfile r) x
    (struct_comment r) (struct_file_comment r).

Definition set_struct_comment (x : option string) (r : Struct) : Struct :=
  mkStruct (structname r) (members r) (structs r) (constants r) (lcmfile r)
    (hash r) x (struct_file_comment r).

Definition set_struct_file_comment (x : option string) (r : Struct) : Struct
    :=
  mkStruct (structname r) (members r) (structs r) (constants r) (lcmfile r)
    (hash r) (struct_comment r) x.

Definition set_cache_package (x : string) (r : ParseCache) : ParseCache :=
  mkParseCache x (comment_doc r) (file_comment r).

Definition set_comment_doc (x : option string) (r : ParseCache) : ParseCache
    :=
  mkParseCache (cache_package r) x (file_comment r).

Definition set_file_comment (x : option string) (r : ParseCache) : ParseCache
    :=
  mkParseCache (cache_package r) (comment_doc r) x.

Definition set_parse_cache (x : ParseCache) (r : Lcmgen) : Lcmgen :=
  mkLcmgen x (gopt r) (lcmgen_structs r).

Definition set_gopt (x : GenOptions) (r : Lcmgen) : Lcmgen :=
  mkLcmgen (parse_cache r) x (lcmgen_structs r).

Definition set_lcmgen_structs (x : list Struct) (r : Lcmgen) : Lcmgen :=
  mkLcmgen (parse_cache r) (gopt r) x.

Definition upd_cache (g : ParseCache -> ParseCache) : M unit :=
  upd_lcmgen (fun l => set_parse_cache (g (parse_cache l)) l).

(** Truth of a string: it is not empty. *)
Definition nonempty (s : string) : bool :=
  match s with EmptyString => false | _ => true end.

Definition create_typename (lcmgen : Lcmgen) (raw_typename : string)
  : LcmTypename :=
  let tmp := raw_typename in
  let last_dot_loc := Py.rfind_dot tmp in
  let '(typename, package, shortname) :=
    if last_dot_loc =? -1 then
      let shortname := tmp in
      if Py.str_in shortname PRIMITIVE_TYPES then
        (raw_typename, EmptyString, shortname)
      else
        let package := cache_package (parse_cache lcmgen) in
        if nonempty package
        then (package ++ "." ++ shortname, package, shortname)
        else (shortname, package, shortname)
    else
      (raw_typename, Py.slice_to tmp last_dot_loc,
       Py.slice_from tmp (last_dot_loc + 1)) in
  let package_prefix :=
    match package_prefix (gopt lcmgen) with
    | Some p => p
    | None => EmptyString
    end in
  if nonempty package_prefix && negb (Py.str_in shortname PRIMITIVE_TYPES)
  then
    let package :=
      if nonempty package then "." ++ package else EmptyString in
    let package := package_prefix ++ package in
    mkLcmTypename (package ++ "." ++ shortname) package shortname
  else mkLcmTypename typename package shortname.

Definition create_struct (lcmgen : Lcmgen) (src_path : string)
           (structname : string) : Struct :=
  {| struct_comment := None;
     constants := [];
     struct_file_comment := None;
     members := [];
     lcmfile := src_path;
     structs := [];
     structname := create_typename lcmgen structname;
     hash := 0 |}.

Definition find_member (structure : Struct) (name : string)
  : option Member :=
  find (fun it => String.eqb (membername it) name) (members structure).

Definition find_const (structure : Struct) (name : string)
  : option Constant :=
  find (fun it => String.eqb (const_membername it) name)
       (constants structure).

Definition find_struct (lcmgen : Lcmgen) (package' name : string)
  : option Struct :=
  find (fun s => String.eqb (package (structname s)) package'
                 && String.eqb (shortname (structname s)) name)
       (lcmgen_structs lcmgen).

(** [member.dimensions.append(dim)] for the member object that sits at
    index [i] of [structure.members]. *)
Fixpoint append_dimension_at (i : nat) (dim : Dimension) (ms : list Member)
  : list Member :=
  match ms, i with
  | [], _ => []
  | m :: ms', O =>
      mkMember (type m) (membername m) (dimensions m ++ [dim]) (comment m)
      :: ms'
  | m :: ms', S i' => m :: append_dimension_at i' dim ms'
  end.

Definition location_line (tk : Tokenize) : string :=
  path tk ++ " : " ++ Py.str_of_int (token_line tk).

(** Semantic error: it parsed fine, but it is illegal. *)
Definition semantic_error {A} (msg : string) : M A :=
  tk <- get_t ;;
  print EmptyString ;;
  print msg ;;
  print (location_line tk) ;;
  print (buffer tk) ;;
  sys_exit 1.

Definition semantic_warning (msg : string) : M unit :=
  tk <- get_t ;;
  print EmptyString ;;
  print msg ;;
  print (location_line tk) ;;
  print (buffer tk).

(** Parsing error: we cannot continue. *)
Definition parse_error {A} (msg : string) : M A :=
  tk <- get_t ;;
  print EmptyString ;;
  print msg ;;
  print (location_line tk) ;;
  print (buffer tk) ;;
  let margin :=
    string_of_list_ascii
      (map (fun c => if Py.isspace c then c else SPACE)
           (Py.chars (Py.slice_to (buffer tk) (token_column tk)))) in
  print (margin ++ "^") ;;
  sys_exit 1.

Definition is_some {A} (o : option A) : bool :=
  match o with Some _ => true | None => false end.

Definition when (b : bool) (m : M unit) : M unit :=
  if b then m else ret tt.

(** [is_legal_member_name] with its [IndexError]. *)
Definition legal_member_name (s : string) : M bool :=
  match is_legal_member_name s with
  | Some b => ret b
  | None => raise IndexError
  end.

(** [comment, lcmgen.parse_cache.comment_doc =
      (lcmgen.parse_cache.comment_doc, None)] *)
Definition take_comment_doc : M (option string) :=
  g <- get_lcmgen ;;
  upd_cache (set_comment_doc None) ;;
  ret (comment_doc (parse_cache g)).

Section Parser.

Variable fuel : nat.

(** The loop of [parse_try_consume_comment]. *)
Fixpoint consume_comments (n : nat) (store_comment_doc : bool) : M unit :=
  match n with
  | O => out_of_fuel
  | S n' =>
      res <- tokenize_peek fuel ;;
      tk <- get_t ;;
      if is_some res && TokenType_eqb (token_type tk) COMMENT then
        tokenize_next fuel ;;
        when store_comment_doc
          (tk <- get_t ;;
           upd_cache (fun c =>
             match comment_doc c with
             | None => set_comment_doc (Some (token tk)) c
             | Some doc =>
                 set_comment_doc
                   (Some (doc ++ String NL EmptyString ++ token tk)) c
             end)) ;;
        consume_comments n' store_comment_doc
      else ret tt
  end.

(** [has_lcmgen] tells whether the caller passed an [lcmgen] object or
    [None]. *)
Definition parse_try_consume_comment (has_lcmgen store_comment_doc : bool)
  : M unit :=
  when store_comment_doc
    (if has_lcmgen then upd_cache (set_comment_doc None)
     else raise AssertionError) ;;
  consume_comments fuel store_comment_doc.

(** If the next non-comment token is [tok], consume it and return True. *)
Definition parse_try_consume (tok : string) : M bool :=
  parse_try_consume_comment false false ;;
  res <- tokenize_peek fuel ;;
  when (negb (is_some res))
    (parse_error ("End of file while looking for " ++ tok ++ ".")) ;;
  tk <- get_t ;;
  let get_next :=
    negb (TokenType_eqb (token_type tk) COMMENT)
    && String.eqb (token tk) tok in
  when get_next (tokenize_next fuel ;; ret tt) ;;
  ret get_next.

(** [while t.token_type == TokenType.COMMENT: res = tokenize_next(t)] *)
Fixpoint skip_comment_tokens (n : nat) (res : option Z) : M (option Z) :=
  match n with
  | O => out_of_fuel
  | S n' =>
      tk <- get_t ;;
      if TokenType_eqb (token_type tk) COMMENT then
        res' <- tokenize_next fuel ;; skip_comment_tokens n' res'
      else ret res
  end.

(** Consume the next token; if it is not [tok], an error is emitted and
    the program exits. *)
Definition parse_require (tok : string) : M unit :=
  parse_try_consume_comment false false ;;
  res <- tokenize_next fuel ;;
  res <- skip_comment_tokens fuel res ;;
  tk <- get_t ;;
  when (negb (is_some res) || negb (String.eqb (token tk) tok))
    (parse_error ("Expected token: " ++ tok)).

(** Require that the next token exist (not EOF). *)
Definition tokenize_next_or_fail (description : string) : M unit :=
  res <- tokenize_next fuel ;;
  when (negb (is_some res))
    (parse_error
       ("End of file reached, expected: " ++ description ++ ".")).

(** The name of a new member or constant: legal and not yet used. *)
Definition new_member_name (structure : Struct) : M string :=
  tk <- get_t ;;
  let membername := token tk in
  legal <- legal_member_name membername ;;
  when (negb legal)
    (parse_error "Invalid member name. Name must start with [a-zA-Z_].") ;;
  (* Make sure the name is new *)
  when (is_some (find_const structure membername)
        || is_some (find_member structure membername))
    (semantic_error ("Duplicate member name '" ++ membername)) ;;
  ret membername.

(** The nested function [another_constant] of [parse_const]. *)
Definition another_constant (typename : string) (structure : Struct)
  : M Struct :=
  (* Get the name *)
  parse_try_consume_comment true false ;;
  tokenize_next_or_fail "name identifier" ;;
  membername <- new_member_name structure ;;
  (* Get the value *)
  parse_require "=" ;;
  parse_try_consume_comment true false ;;
  tokenize_next_or_fail "constant value" ;;
  (* Consume last parsed comment *)
  comment <- take_comment_doc ;;
  tk <- get_t ;;
  let valstr := token tk in
  (if is_some (dict_get INT_TYPES typename) then
     match Py.int_base0 valstr with
     | None => parse_error "Expected integer value"
     | Some intval =>
         match int_in_type_bounds intval typename with
         | None => raise KeyError
         | Some inside =>
             when (negb inside)
               (semantic_error
                  ("Integer value out of bounds for " ++ typename ++ "."))
         end
     end
   else if Py.str_in typename ["float"; "double"] then
     when (negb (Py.float_ok valstr))
       (parse_error "Expected floating point value")
   else
     print ("Unhandled / Invalid case: " ++ typename) ;;
     raise AssertionError) ;;
  let const := mkConstant typename membername valstr comment in
  ret (set_constants (constants structure ++ [const]) structure).

(** [while parse_try_consume(t, ","): another_constant()] *)
Fixpoint more_constants (n : nat) (typename : string) (structure : Struct)
  : M Struct :=
  match n with
  | O => out_of_fuel
  | S n' =>
      more <- parse_try_consume "," ;;
      if more : bool then
        structure <- another_constant typename structure ;;
        more_constants n' typename structure
      else ret structure
  end.

Definition parse_const (structure : Struct) : M Struct :=
  parse_try_consume_comment true false ;;
  tokenize_next_or_fail "type identifier" ;;
  (* Get type *)
  tk <- get_t ;;
  when (negb (Py.str_in (token tk) CONST_TYPES))
    (parse_error "Invalid type for const") ;;
  let typename := token tk in
  structure <- another_constant typename structure ;;
  structure <- more_constants fuel typename structure ;;
  parse_require ";" ;;
  ret structure.

(** The mode and size of the dimension whose size token is [size_arg]. *)
Definition resolve_dimension (structure : Struct) (size_arg : string)
  : M (DimensionMode * string) :=
  if Py.isdigit size_arg then
    (* Constant literal *)
    match Py.int_of_digits size_arg with
    | None => raise ValueError
    | Some intval =>
        when (intval <=? 0)
          (semantic_error "Constant array size must be > 0") ;;
        ret (CONST, size_arg)
    end
  else
    legal <- legal_member_name size_arg ;;
    when (negb legal)
      (semantic_error "Array size variable must have a valid name.") ;;
    match find_const structure size_arg with
    | Some dim_const =>
        when (negb (Py.str_in (typename dim_const) CONST_TYPES))
          (semantic_error
             ("Array dimension '" ++ size_arg
              ++ "' must be an integer type.")) ;;
        ret (CONST, val_str dim_const)
    | None =>
        match find_member structure size_arg with
        | None =>
            semantic_error
              ("Unknown array size argument '" ++ size_arg ++ "'."
               ++ String NL EmptyString
               ++ "Size arguments must be declared before the array.")
        | Some dim_var =>
            when (negb (Z.of_nat (List.length (dimensions dim_var)) =? 0)
                  || negb (is_array_dimension_type (type dim_var)))
              (semantic_error
                 ("Array dimension '" ++ size_arg
                  ++ "' must be a scalar integer type.")) ;;
            ret (VAR, size_arg)
        end
    end.

(** [while parse_try_consume(t, "[")]: the dimensions of the member
    object at index [member] of [structure.members]. *)
Fixpoint parse_dimensions (n : nat) (member : nat) (structure : Struct)
  : M Struct :=
  match n with
  | O => out_of_fuel
  | S n' =>
      more <- parse_try_consume "[" ;;
      if more : bool then
        parse_try_consume_comment true false ;;
        tokenize_next_or_fail "array size" ;;
        tk <- get_t ;;
        (* Invalid close *)
        when (String.eqb (token tk) "]")
          (semantic_error "Array size must be provided.") ;;
        let size_arg := token tk in
        r <- resolve_dimension structure size_arg ;;
        let '(dim_mode, size) := r in
        parse_require "]" ;;
        let dim := mkDimension dim_mode size in
        parse_dimensions n' member
          (set_members
             (append_dimension_at member dim (members structure))
             structure)
      else ret structure
  end.

(** The loop [while True] of [parse_member]: one member per turn, as
    long as there are commas. *)
Fixpoint parse_member_names (n : nat) (typename : LcmTypename)
         (structure : Struct) : M Struct :=
  match n with
  | O => out_of_fuel
  | S n' =>
      parse_try_consume_comment true false ;;
      tokenize_next_or_fail "name identifier" ;;
      membername <- new_member_name structure ;;
      (* Consume last parsed comment *)
      comment <- take_comment_doc ;;
      let member := mkMember typename membername [] comment in
      let index := List.length (members structure) in
      let structure :=
        set_members (members structure ++ [member]) structure in
      structure <- parse_dimensions fuel index structure ;;
      more <- parse_try_consume "," ;;
      if more : bool then parse_member_names n' typename structure
      else ret structure
  end.

(** Parse a member declaration. *)
Definition parse_member (structure : Struct) : M Struct :=
  is_struct <- parse_try_consume KW_STRUCT ;;
  if is_struct : bool then
    parse_error "Recursive structs are not supported."
  else
    is_enum <- parse_try_consume KW_ENUM ;;
    if is_enum : bool then
      parse_error "LCM enums are no longer supported."
    else
      is_const <- parse_try_consume KW_CONST ;;
      if is_const : bool then parse_const structure
      else
        parse_try_consume_comment true false ;;
        tokenize_next_or_fail "type identifier" ;;
        tk <- get_t ;;
        legal <- legal_member_name (token tk) ;;
        when (negb legal) (parse_error "Invalid type name.") ;;
        when (String.eqb (token tk) "int")
          (semantic_warning
             ("int type should probably be int8_t, int16_t, "
              ++ "int32_t, or int64_t")) ;;
        g <- get_lcmgen ;;
        let typename := create_typename g (token tk) in
        structure <- parse_member_names fuel typename structure ;;
        parse_require ";" ;;
        ret structure.

(** The loop [while True] of [parse_struct]. *)
Fixpoint parse_struct_body (n : nat) (structure : Struct) : M Struct :=
  match n with
  | O => out_of_fuel
  | S n' =>
      (* Save member comment *)
      parse_try_consume_comment true true ;;
      closed <- parse_try_consume "}" ;;
      if closed : bool then ret structure
      else
        structure <- parse_member structure ;;
        parse_struct_body n' structure
  end.

Definition parse_struct (lcmfile : string) : M Struct :=
  (* Assume the "struct" token is already consumed *)
  parse_try_consume_comment true false ;;
  tokenize_next_or_fail "struct name" ;;
  tk <- get_t ;;
  let name := token tk in
  g <- get_lcmgen ;;
  let structure := create_struct g lcmfile name in
  (* Consume available comments *)
  let structure :=
    set_struct_file_comment (file_comment (parse_cache g)) structure in
  upd_cache (set_file_comment None) ;;
  doc <- take_comment_doc ;;
  let structure := set_struct_comment doc structure in
  parse_require "{" ;;
  structure <- parse_struct_body fuel structure ;;
  ret (set_hash (hash_structure structure) structure).

(** A top-level construct; [src_file] is the argument [lcmfile]. *)
Definition parse_entity (src_file : string) : M bool :=
  parse_try_consume_comment true true ;;
  res <- tokenize_next fuel ;;
  match res with
  | None => ret false
  | Some _ =>
      tk <- get_t ;;
      if String.eqb (token tk) KW_PACKAGE then
        (* Consume comment *)
        upd_cache (fun c =>
                     set_comment_doc None
                       (set_file_comment (comment_doc c) c)) ;;
        parse_try_consume_comment true false ;;
        tokenize_next_or_fail "package name" ;;
        tk <- get_t ;;
        upd_cache (set_cache_package (token tk)) ;;
        parse_require ";" ;;
        ret true
      else if String.eqb (token tk) KW_STRUCT then
        structure <- parse_struct src_file ;;
        g <- get_lcmgen ;;
        match find_struct g (package (structname structure))
                          (shortname (structname structure)) with
        | Some prev =>
            print ("ERROR: Duplicate type '"
                   ++ lctypename (structname structure)
                   ++ " declared in " ++ src_file ++ ". "
                   ++ String NL EmptyString
                   ++ "       It was previously declared in "
                   ++ lcmfile prev ++ ".") ;;
            ret false
        | None =>
            upd_lcmgen (fun l =>
                          set_lcmgen_structs
                            (lcmgen_structs l ++ [structure]) l) ;;
            ret true
        end
      else if String.eqb (token tk) KW_ENUM then
        print "Enums are no longer supported." ;;
        ret false
      else parse_error "Missing struct token."
  end.

(** [res = parse_entity(...)] followed by [while res: res = ...]. *)
Fixpoint parse_entities (n : nat) (lcmfile : string) : M unit :=
  match n with
  | O => out_of_fuel
  | S n' =>
      res <- parse_entity lcmfile ;;
      if res : bool then parse_entities n' lcmfile else ret tt
  end.

Definition ljust (s : string) (width : nat) : string :=
  s ++ string_of_list_ascii (repeat SPACE (width - String.length s)).

Definition rjust (s : string) (width : nat) : string :=
  string_of_list_ascii (repeat SPACE (width - String.length s)) ++ s.

(** The token listing of [handle_file]. *)
Fixpoint dump_tokens (n : nat) (ntok : Z) : M unit :=
  match n with
  | O => out_of_fuel
  | S n' =>
      res <- tokenize_next fuel ;;
      match res with
      | None => ret tt
      | Some _ =>
          tk <- get_t ;;
          print (rjust (Py.str_of_int ntok) 6 ++ " "
                 ++ rjust (Py.str_of_int (token_line tk)) 6 ++ " "
                 ++ rjust (Py.str_of_int (token_column tk)) 6 ++ ": "
                 ++ token tk) ;;
          dump_tokens n' (ntok + 1)
      end
  end.

(** [handle_file] from the point where [lcm_tokenize.create] has
    returned a tokenizer. *)
Definition handle_open_file (path : string) : M bool :=
  g <- get_lcmgen ;;
  match tokenize (gopt g) with
  | Some true =>
      print (ljust "tok#" 6 ++ " " ++ ljust "line" 6 ++ " "
             ++ ljust "col" 6 ++ ": token") ;;
      dump_tokens fuel 0 ;;
      ret true
  | _ =>
      parse_entities fuel path ;;
      (* XXX The condition in the C code is a bit unclear *)
      ret true
  end.

End Parser.

(** ** The run over all input files ([handle_file], [main.py]) *)

(** The files the process can open, by path. *)
Definition FileSystem : Type := list (string * string).

(** How a run over several files ends; the compiler state and the output
    outlive the tokenizer of each file. *)
Inductive Run (A : Type) :=
| Done (a : A) (g : Lcmgen) (out : list string)
| Stopped (code : Z) (g : Lcmgen) (out : list string)
| Crashed (e : exn) (g : Lcmgen) (out : list string)
| Unbounded.

Arguments Done {A} a g out.
Arguments Stopped {A} code g out.
Arguments Crashed {A} e g out.
Arguments Unbounded {A}.

Definition handle_file (fuel : nat) (fs : FileSystem) (g : Lcmgen)
           (out : list string) (path : string) : Run bool :=
  match dict_get fs path with
  | None => Done false g (out ++ ["Failed to open " ++ path ++ "."])
  | Some src =>
      match handle_open_file fuel path (mkWorld (create path src) g out) with
      | Ok a w => Done a (lcmgen w) (stdout w)
      | Exit c w => Stopped c (lcmgen w) (stdout w)
      | Raise e w => Crashed e (lcmgen w) (stdout w)
      | OutOfFuel => Unbounded
      end
  end.

(** [for path in args.input_files] *)
Fixpoint handle_files (fuel : nat) (fs : FileSystem) (g : Lcmgen)
         (out : list string) (input_files : list string) : Run unit :=
  match input_files with
  | [] => Done tt g out
  | path :: rest =>
      match handle_file fuel fs g out path with
      | Done suc g' out' =>
          if suc then handle_files fuel fs g' out' rest
          else Stopped 1 g' out'
      | Stopped c g' out' => Stopped c g' out'
      | Crashed e g' out' => Crashed e g' out'
      | Unbounded => Unbounded
      end
  end.

(** [main], from [gen = lcmgen2.create_lcmgen()] on, for parsed arguments
    [input_files] and [--tokenize]; the echo of the parsed arguments and
    the [--debug] dump are left out. *)
Definition main (fuel : nat) (fs : FileSystem) (input_files : list string)
           (tokenize_flag : bool) : Run unit :=
  let gen := create_lcmgen in
  let gen :=
    set_gopt {| package_prefix := None; tokenize := Some tokenize_flag |}
             gen in
  match handle_files fuel fs gen [] input_files with
  | Done _ g out => if tokenize_flag then Stopped 0 g out else Done tt g out
  | r => r
  end.

(** ** Vocabulary of the statements *)

(** The range of [c_int64]. *)
Definition int64 (v : Z) : Prop := - 2 ^ 63 <= v < 2 ^ 63.

(** The scalar-mixing rule in the words of the specification: shift the
    64-bit word left by 8, XOR it with its logical right shift by 55, add
    [c], keep 64 bits.  [v mod 2 ^ 64] is the word of the signed [v]. *)
Definition spec_scalar_mix (v c : Z) : Z :=
  let u := v mod 2 ^ 64 in
  c_int64 (Z.lxor (Z.shiftl u 8 mod 2 ^ 64) (Z.shiftr u 55) + c).

(** Arithmetic right shift of the 64-bit word [u] by [n]: the vacated bits
    are copies of bit 63. *)
Definition sar64 (u n : Z) : Z :=
  Z.lor (Z.shiftr u n)
        (if Z.testbit u 63 then Z.shiftl (Z.ones n) (64 - n) else 0).

(** The same rule with the arithmetic shift in place of the logical one. *)
Definition arithmetic_scalar_mix (v c : Z) : Z :=
  let u := v mod 2 ^ 64 in
  c_int64 (Z.lxor (Z.shiftl u 8 mod 2 ^ 64) (sar64 u 55) + c).

(** The shift-and-XOR part of [hash_update], before [c] is added. *)
Definition rot (v : Z) : Z := Z.lxor (Z.shiftl v 8) (Z.shiftr v 55).

(** A step of the fingerprint that keeps states in range and never maps
    two states to one. *)
Definition mixer (g : Z -> Z) : Prop :=
  (forall v, int64 v -> int64 (g v)) /\
  (forall v v', int64 v -> int64 v' -> g v = g v' -> v = v').

(** A struct with the given name, members and constants. *)
Definition struct_of (name : string) (ms : list Member) (cs : list Constant)
  : Struct :=
  mkStruct (mkLcmTypename name EmptyString name) ms [] cs "types.lcm" 0
           None None.

(** What the fingerprint reads of a member: its name, its type text when
    the type is primitive, its dimensions. *)
Definition member_shape (m : Member)
  : string * option string * list Dimension :=
  (membername m,
   if Py.str_in (lctypename (type m)) PRIMITIVE_TYPES
   then Some (lctypename (type m)) else None,
   dimensions m).

(** [hash_member] on the shape alone. *)
Definition hash_shape (v : Z)
           (sh : string * option string * list Dimension) : Z :=
  let '(name, ty, dims) := sh in
  let v := hash_string_update v name in
  let v :=
    match ty with Some tn => hash_string_update v tn | None => v end in
  let v := hash_update v (Z.of_nat (List.length dims)) in
  fold_left
    (fun v dim =>
       hash_string_update
         (hash_update v (DimensionMode_value (mode dim))) (size dim))
    dims v.

Definition rename_member (m : Member) (name : string) : Member :=
  mkMember (type m) name (dimensions m) (comment m).

(** A scalar member of the given type. *)
Definition scalar (ty name : string) : Member :=
  mkMember (mkLcmTypename ty EmptyString ty) name [] None.

(** The world in which the file [p] with text [src] has just been opened. *)
Definition source_world (p : string) (src : list ascii) (g : Lcmgen)
           (out : list string) : World :=
  mkWorld (create p (string_of_list_ascii src)) g out.

(** The first [tokenize_next] on the text [src]: its result, the token
    text and the token type. *)
Definition first_token (fuel : nat) (src : string)
  : option (option Z * string * TokenType) :=
  match tokenize_next fuel (mkWorld (create "input.lcm" src) create_lcmgen [])
  with
  | Ok r w => Some (r, token (t w), token_type (t w))
  | _ => None
  end.

(** The texts of the first tokens of [w], at most [n] of them, up to the
    first call that returns [None]. *)
Fixpoint token_list (fuel : nat) (n : nat) (w : World) : list string :=
  match n with
  | O => []
  | S n' =>
      match tokenize_next fuel w with
      | Ok (Some _) w' => token (t w') :: token_list fuel n' w'
      | _ => []
      end
  end.

(** [n] calls of [tokenize_next] followed by one more, whose result is
    returned. *)
Fixpoint nth_token (fuel : nat) (n : nat) : M (option Z) :=
  match n with
  | O => tokenize_next fuel
  | S n' => tokenize_next fuel ;; nth_token fuel n'
  end.

Definition is_operator (c : ascii) : Prop :=
  Py.chr_in c OPERATOR_CHARS = true.

(** The text between the quotes of a string literal in the words of the
    specification: a backslash makes the lexer drop the next character,
    the backslash itself is dropped too, and the first quote that is not
    dropped ends the literal.  [None]: the stream ends first. *)
Fixpoint string_text (escape_next : bool) (cs : list ascii)
  : option (list ascii) :=
  match cs with
  | [] => None
  | c :: r =>
      if escape_next then string_text false r
      else if Ascii.eqb c DQUOTE then Some []
      else if Ascii.eqb c BACKSLASH then string_text true r
      else option_map (cons c) (string_text false r)
  end.

(** The characters the tokenizer has still to hand out: the pushed-back
    character, the unread part of the line buffer, the unread part of the
    file. *)
Definition buffered (tk : Tokenize) : list ascii :=
  skipn (Z.to_nat (buffer_column tk)) (Py.chars (buffer tk)).

Definition pending (tk : Tokenize) : list ascii :=
  (match unget_char tk with Some c => [c] | None => [] end
   ++ buffered tk ++ Py.chars (f tk))%list.

(** Invariant of the line buffer. *)
Definition buffer_ok (tk : Tokenize) : Prop :=
  0 <= buffer_column tk <= buffer_len tk /\
  (buffer_column tk = buffer_len tk /\ buffer tk = EmptyString
   \/ buffer_len tk = Py.len (buffer tk)).

(** The fields of the tokenizer that feed [next_char]. *)
Definition stream (tk : Tokenize) :=
  (unget_char tk, buffer tk, buffer_column tk, buffer_len tk, f tk,
   current_char tk).

(** What is left of the world once the token text is set aside. *)
Definition rest_frame (w : World) :=
  (token_type (t w), hasnext (t w), path (t w), lcmgen w, stdout w).

(** [c] is the character in hand and [l] the stream from [c] on. *)
Definition at_stream (c : option ascii) (w : World) (l : list ascii)
  : Prop :=
  buffer_ok (t w) /\ c = hd_error l /\ pending (t w) = tl l.

(** The state in which the lexer is left after an operator run that ends
    the file: the last operator character [x] is pushed back again. *)
Definition stuck (x : ascii) (w : World) : Prop :=
  buffer_ok (t w) /\ pending (t w) = [x] /\ hasnext (t w) = 0.

(** Names and dimensions of the members of every struct of [g]. *)
Definition member_table (g : Lcmgen)
  : list (list (string * string * list Dimension)) :=
  map (fun s =>
         map (fun m => (lctypename (type m), membername m, dimensions m))
             (members s))
      (lcmgen_structs g).

(** Name and declaring file of every struct of [g]. *)
Definition struct_table (g : Lcmgen) : list (string * string) :=
  map (fun s => (lctypename (structname s), lcmfile s)) (lcmgen_structs g).

(** The fingerprints of the structs of a finished run. *)
Definition fingerprints (r : Run bool) : option (list Z) :=
  match r with
  | Done true g _ => Some (map hash (lcmgen_structs g))
  | _ => None
  end.

Definition line (s : string) : string := s ++ String NL EmptyString.

(** The inputs of the examples. *)
Module Src.

Definition line_comment : string := "//   x".

Definition block_comment : string :=
  line "/** header" ++ line " * body" ++ " */".

(** quote, a, backslash, n, b, quote *)
Definition escaped_string : string :=
  String DQUOTE ("a\nb" ++ String DQUOTE EmptyString).

Definition dim_after_size : string :=
  "struct S { int32_t n; double data[n]; }".

Definition dim_before_size : string :=
  "struct S { double data[n]; int32_t n; }".

Definition const_200 : string := "struct S { const int8_t k = 200; }".

Definition const_100 : string := "struct S { const int8_t k = 100; }".

Definition self_dim : string := "struct S { int32_t n[n]; }".

Definition self_dim_twice : string := "struct S { int32_t n[n][n]; }".

(** Two scalar members, in either order. *)
Definition collision_ab : string :=
  "struct S { int32_t aaaaaaaac; int32_t baaaaaaaa; }".

Definition collision_ba : string :=
  "struct S { int32_t baaaaaaaa; int32_t aaaaaaaac; }".

(** Three input files; the second declares the struct of the first
    again. *)
Definition duplicate_files : FileSystem :=
  [("a.lcm", "struct point_t { double x; }");
   ("b.lcm", "struct point_t { double y; }");
   ("c.lcm", "struct pose_t { double z; }")].

End Src.

(** [handle_file] on a single file [S.lcm] with text [src], from the
    initial compiler state. *)
Definition compile (fuel : nat) (src : string) : Run bool :=
  handle_file fuel [("S.lcm", src)] create_lcmgen [] "S.lcm".

(** ** Vocabulary of the model invariants *)

(** [m], started in any world whose compiler state is [g0], can only
    return in a world whose compiler state satisfies [Q]. *)
Definition postg {A} (m : M A) (g0 : Lcmgen) (Q : A -> Lcmgen -> Prop)
  : Prop :=
  forall w a w', lcmgen w = g0 -> m w = Ok a w' -> Q a (lcmgen w').

(** [m] leaves the compiler state alone. *)
Definition lexical {A} (m : M A) : Prop :=
  forall g0, postg m g0 (fun _ g => g = g0).

(** The part of the compiler state that outlives the parsing of one
    entity: the options and the struct list. *)
Definition model (g : Lcmgen) : GenOptions * list Struct :=
  (gopt g, lcmgen_structs g).

(** [m] changes at most the parse cache. *)
Definition keeps_model {A} (m : M A) : Prop :=
  forall g0, postg m g0 (fun _ g => model g = model g0).

(** The names a struct has given out, members first. *)
Definition names (s : Struct) : list string :=
  (map membername (members s) ++ map const_membername (constants s))%list.

Definition legal_name (n : string) : Prop :=
  is_legal_member_name n = Some true.

(** A dimension of a struct with members [ms] and constants [cs]: in
    [VAR] mode its size text names a member of an integer type, in
    [CONST] mode it is a positive decimal literal or the value text of a
    constant. *)
Definition dimension_ok (ms : list Member) (cs : list Constant)
           (d : Dimension) : Prop :=
  match mode d with
  | VAR =>
      exists m, In m ms /\ membername m = size d
                /\ is_array_dimension_type (type m) = true
  | CONST =>
      (exists v, Py.isdigit (size d) = true
                 /\ Py.int_of_digits (size d) = Some v /\ 0 < v)
      \/ (exists c, In c cs /\ val_str c = size d)
  end.

(** A constant of an allowed type whose value text is a literal of that
    type, within the bounds of the type when it is an integer type. *)
Definition constant_ok (c : Constant) : Prop :=
  Py.str_in (typename c) CONST_TYPES = true /\
  match dict_get INT_TYPES (typename c) with
  | Some bounds =>
      exists v, Py.int_base0 (val_str c) = Some v
                /\ fst bounds <= v <= snd bounds
  | None => Py.float_ok (val_str c) = true
  end.

Definition struct_ok (s : Struct) : Prop :=
  NoDup (names s)
  /\ Forall legal_name (names s)
  /\ Forall (fun m => Forall (dimension_ok (members s) (constants s))
                             (dimensions m))
            (members s)
  /\ Forall constant_ok (constants s)
  /\ structs s = [].

(** What parsing the body of a struct leaves alone. *)
Definition header (s : Struct) :=
  (structname s, lcmfile s, struct_comment s, struct_file_comment s,
   structs s).

(** The key under which a struct is looked up. *)
Definition struct_key (s : Struct) : string * string :=
  (package (structname s), shortname (structname s)).

Definition recorded_ok (files : list string) (s : Struct) : Prop :=
  struct_ok s /\ hash s = hash_structure s /\ In (lcmfile s) files.

Definition lcmgen_ok (files : list string) (g : Lcmgen) : Prop :=
  NoDup (map struct_key (lcmgen_structs g))
  /\ Forall (recorded_ok files) (lcmgen_structs g).

(** What the functions that extend the struct [s] guarantee when they
    return. *)
Definition body_post (s : Struct) (g0 : Lcmgen) (s' : Struct) (g : Lcmgen)
  : Prop :=
  struct_ok s' /\ header s' = header s /\ model g = model g0.

(** [g] comes from [g0] by recording further structs. *)
Definition grows (g0 g : Lcmgen) : Prop :=
  gopt g = gopt g0
  /\ exists more, lcmgen_structs g = (lcmgen_structs g0 ++ more)%list.

(** [m] calls [sys.exit] with status 1 only. *)
Definition exit_one {A} (m : M A) : Prop :=
  forall w c w', m w = Exit c w' -> c = 1.

(** ** Vocabulary of the tokenizer's safety *)

(** The number of characters the tokenizer has still to hand out. *)
Definition load (w : World) : nat := List.length (pending (t w)).

(** A character in hand counts as one. *)
Definition hand (c : option ascii) : nat :=
  match c with Some _ => 1%nat | None => 0%nat end.

(** Between two characters: the line buffer is well formed and nothing is
    pushed back. *)
Definition reading (w : World) : Prop :=
  buffer_ok (t w) /\ unget_char (t w) = None.

(** The state in which a loop of the tokenizer leaves the stream: at
    most [k] characters are left, the one in hand included, and the
    [hasnext] flag is [h]. *)
Definition settled (k : nat) (h : Z) (c : option ascii) (w : World)
  : Prop :=
  reading w /\ (hand c + load w <= k)%nat /\ hasnext (t w) = h.

(** [m], started in [w], returns with [Q]; it uses up its iterations
    only if [enough] does not hold; it neither raises nor exits. *)
Definition yields {A} (m : M A) (w : World) (enough : Prop)
           (Q : A -> World -> Prop) : Prop :=
  match m w with
  | Ok a w' => Q a w'
  | OutOfFuel => ~ enough
  | Exit _ _ | Raise _ _ => False
  end.

(** The state in which a call of the tokenizer leaves the stream: a
    character may be pushed back. *)
Definition parked (k : nat) (h : Z) (w : World) : Prop :=
  buffer_ok (t w) /\ (load w <= k)%nat /\ hasnext (t w) = h.

(** [m], started on a well-formed tokenizer, leaves it well formed, and
    the only exceptions it can raise are [IndexError] and [ValueError]:
    no assertion fails and no dictionary key is missing. *)
Definition calm {A} (m : M A) : Prop :=
  forall w,
    buffer_ok (t w) ->
    match m w with
    | Ok _ w' => buffer_ok (t w')
    | Raise e _ => e = IndexError \/ e = ValueError
    | Exit _ _ | OutOfFuel => True
    end.

(** The compiler state with which [main] starts on the files. *)
Definition configured (tokenize_flag : bool) : Lcmgen :=
  set_gopt {| package_prefix := None; tokenize := Some tokenize_flag |}
           create_lcmgen.

(** Two input files for the examples: a package with a struct that has a
    constant and arrays sized by it and by a member, and a struct that
    refers to the first one. *)
Module Sample.

Definition files : FileSystem :=
  [("a.lcm",
    line "package geo;"
    ++ line "struct point_t {"
    ++ line "  const int8_t DIM = 3, MAXN = 0x10;"
    ++ line "  const double EPS = 1e-9;"
    ++ line "  double xyz[DIM];"
    ++ line "  int32_t n;"
    ++ line "  float w[n][2];"
    ++ line "}");
   ("b.lcm",
    line "// a pose"
    ++ line "struct pose_t { geo.point_t p; int64_t utime; }")].

Definition paths : list string := ["a.lcm"; "b.lcm"].

Definition run : Run unit := main 200 files paths false.

Definition model : Lcmgen :=
  match run with Done _ g _ => g | _ => create_lcmgen end.

Definition output : list string :=
  match run with Done _ _ out => out | _ => [] end.

(** The state after the first file. *)
Definition first : Lcmgen :=
  match handle_file 200 files (configured false) [] "a.lcm" with
  | Done _ g _ => g
  | _ => create_lcmgen
  end.

(** The same files in [--tokenize] mode. *)
Definition listed : Lcmgen :=
  match handle_files 200 files (configured true) [] paths with
  | Done _ g _ => g
  | _ => create_lcmgen
  end.

Definition listing : list string :=
  match handle_files 200 files (configured true) [] paths with
  | Done _ _ out => out
  | _ => []
  end.

(** A struct whose array size is the superscript digit two. *)
Definition superscript_size : FileSystem :=
  [("s.lcm", "struct S { int8_t x[" ++ String "178"%char "]; }")].

End Sample.

(** ** Vocabulary of the token theorems *)

(** What the tokenizer works for: the path of the file, the compiler
    state and the output. *)
Definition outside (w : World) : string * Lcmgen * list string :=
  (path (t w), lcmgen w, stdout w).

(** The tokenizer with the character [hd_error l] in hand: [l] is the
    stream from that character on, [cur0] the character read before it,
    [tx] and [ty] the token text and type so far; nothing is pushed back
    and [hasnext] is 0; [o] is the world outside. *)
Definition afoot (o : string * Lcmgen * list string)
           (cur0 : option ascii) (l : list ascii) (tx : string)
           (ty : TokenType) (w : World) : Prop :=
  reading w
  /\ current_char (t w) = match l with c :: _ => Some c | [] => cur0 end
  /\ pending (t w) = tl l
  /\ token (t w) = tx /\ token_type (t w) = ty /\ hasnext (t w) = 0
  /\ outside w = o.

(** The tokenizer after a call: [l] is still to be handed out. *)
Definition lexed (o : string * Lcmgen * list string) (l : list ascii)
           (tx : string) (ty : TokenType) (w : World) : Prop :=
  buffer_ok (t w) /\ pending (t w) = l
  /\ token (t w) = tx /\ token_type (t w) = ty /\ hasnext (t w) = 0
  /\ outside w = o.

(** The last character read, after [xs] has been read. *)
Definition cur_after (cur : option ascii) (xs : list ascii)
  : option ascii :=
  fold_left (fun _ x => Some x) xs cur.

Definition space (c : ascii) : Prop := Py.isspace c = true.

(** A character that neither ends a blob nor is white space. *)
Definition plain (c : ascii) : Prop :=
  Py.isspace c = false
  /\ Py.chr_in c SINGLE_CHAR_TOKENS = false
  /\ Py.chr_in c OPERATOR_CHARS = false.

(** What can follow a blob: the end of the stream, white space, a
    single-character token or an operator character. *)
Definition ends_blob (tail : list ascii) : Prop :=
  match tail with
  | [] => True
  | c :: _ =>
      Py.isspace c = true \/ Py.chr_in c SINGLE_CHAR_TOKENS = true
      \/ Py.chr_in c OPERATOR_CHARS = true
  end.

(** What a blob leaves of the stream: the white space that ends it is
    consumed, any other character is pushed back. *)
Definition after_blob (tail : list ascii) : list ascii :=
  match tail with
  | c :: r => if Py.isspace c then r else tail
  | [] => []
  end.

(** A blank: what [tokenize_extended_comment] skips at the start of a
    line. *)
Definition blank (c : ascii) : Prop := c = SPACE \/ c = TAB.

(** [l] holds an asterisk that is followed by a slash. *)
Fixpoint has_close (l : list ascii) : bool :=
  match l with
  | [] => false
  | a :: r =>
      match r with
      | [] => false
      | b :: _ => (Ascii.eqb a STAR && Ascii.eqb b SLASH) || has_close r
      end
  end.

(** [afoot] for some token text. *)
Definition amid (o : string * Lcmgen * list string) (cur0 : option ascii)
           (l : list ascii) (ty : TokenType) (w : World) : Prop :=
  exists tx, afoot o cur0 l tx ty w.

(** Inside a block comment of which the end is not in sight: [c] is in
    hand, and from [c] on the stream holds no asterisk followed by a
    slash, also when [c] follows an asterisk ([star]). *)
Definition open_at (o : string * Lcmgen * list string) (k : nat)
           (star : bool) (ty : TokenType) (c : option ascii) (w : World)
  : Prop :=
  exists cur0 l,
    c = hd_error l /\ amid o cur0 l ty w
    /\ has_close (if star then STAR :: l else l) = false
    /\ (List.length l <= k)%nat.

(** The same when the character in hand has been dealt with. *)
Definition past (o : string * Lcmgen * list string) (k : nat)
           (ty : TokenType) (w : World) : Prop :=
  exists cur0 x l,
    amid o cur0 (x :: l) ty w /\ has_close l = false
    /\ (List.length l <= k)%nat.

(** The diagnostic of [tokenize_extended_comment]. *)
Definition comment_eof (o : string * Lcmgen * list string)
  : string * Lcmgen * list string :=
  (fst (fst o), snd (fst o),
   (snd o
    ++ [(fst (fst o) ++ " : EOF reached while parsing comment!")%string])
   %list).

(** The tokenizer after [tokenize_peek] has found a token. *)
Definition peeked (o : string * Lcmgen * list string) (l : list ascii)
           (tx : string) (ty : TokenType) (w : World) : Prop :=
  buffer_ok (t w) /\ pending (t w) = l
  /\ token (t w) = tx /\ token_type (t w) = ty /\ hasnext (t w) = 1
  /\ outside w = o.

(** [yields] with a condition [E] on the status and the world of an
    exit. *)
Definition results {A} (m : M A) (w : World) (enough : Prop)
           (Q : A -> World -> Prop) (E : Z -> World -> Prop) : Prop :=
  match m w with
  | Ok a w' => Q a w'
  | Exit c w' => E c w'
  | Raise _ _ => False
  | OutOfFuel => ~ enough
  end.

(** The compiler state once the pending comment is dropped. *)
Definition forget_comment (g : Lcmgen) : Lcmgen :=
  set_parse_cache (set_comment_doc None (parse_cache g)) g.

(** The struct that [parse_struct] builds from a declaration with an
    empty body and no comment: the file comment is taken over from the
    parse cache. *)
Definition empty_struct (g : Lcmgen) (src_path name : string) : Struct :=
  let st :=
    set_struct_file_comment (file_comment (parse_cache g))
                            (create_struct g src_path name) in
  set_hash (hash_structure st) st.

(** A character other than the dot. *)
Definition no_dot (c : ascii) : Prop := Ascii.eqb c "." = false.

(** The three parts of a type name fit together, and the short name
    holds no dot. *)
Definition well_split (typename package shortname : string) : Prop :=
  (typename = (package ++ "." ++ shortname)%string
   \/ (package = EmptyString /\ typename = shortname))
  /\ Py.rfind_dot shortname = -1.

(** * Properties *)

(** ** Arithmetic of the fingerprint *)

Section Wraparound.

Lemma c_int64_range v : int64 (c_int64 v).
Proof.
  unfold int64, c_int64.
  pose proof (Z.mod_pos_bound (v + 2 ^ 63) (2 ^ 64) ltac:(lia)). lia.
Qed.

Lemma c_int64_eq a b :
  c_int64 a = c_int64 b <-> a mod 2 ^ 64 = b mod 2 ^ 64.
Proof.
  unfold c_int64. change (2 ^ 63) with 9223372036854775808.
  change (2 ^ 64) with 18446744073709551616.
  split; intros H; Z.div_mod_to_equations; lia.
Qed.

(** Above bit 62 a signed 64-bit value only has copies of its sign. *)
Lemma sign_bit v n : int64 v -> 63 <= n -> Z.testbit v n = (v <? 0).
Proof.
  unfold int64. intros Hv Hn.
  assert (Hp : 2 ^ 63 <= 2 ^ n) by (apply Z.pow_le_mono_r; lia).
  rewrite Z.testbit_odd, Z.shiftr_div_pow2 by lia.
  destruct (Z.ltb_spec v 0) as [Hneg | Hpos].
  - replace (v / 2 ^ n) with (-1); [reflexivity|].
    apply Z.div_unique with (r := v + 2 ^ n); lia.
  - rewrite Z.div_small by lia. reflexivity.
Qed.

Lemma low_bits a b :
  a mod 2 ^ 64 = b mod 2 ^ 64 <->
  (forall i, 0 <= i < 64 -> Z.testbit a i = Z.testbit b i).
Proof.
  split.
  - intros H i Hi.
    rewrite <- (Z.mod_pow2_bits_low a 64 i),
      <- (Z.mod_pow2_bits_low b 64 i) by lia.
    now rewrite H.
  - intros H. apply Z.bits_inj'. intros i Hi.
    rewrite !Z.testbit_mod_pow2 by lia.
    destruct (Z.ltb_spec i 64); simpl; [apply H; lia | reflexivity].
Qed.

Lemma rot_bit v i :
  0 <= i ->
  Z.testbit (rot v) i
  = xorb (Z.testbit v (i - 8)) (Z.testbit v (i + 55)).
Proof.
  intros. unfold rot.
  now rewrite Z.lxor_spec, Z.shiftl_spec, Z.shiftr_spec by lia.
Qed.

(** With the arithmetic shift no bit of the state is lost: bits 55..62
    come back as bits 0..7, the sign is bit 55 XOR bit 63 of the result,
    and the other bits are the sign XOR bits 8..63. *)
Lemma rot_injective v v' :
  int64 v -> int64 v' -> rot v mod 2 ^ 64 = rot v' mod 2 ^ 64 -> v = v'.
Proof.
  intros Hv Hv' H. rewrite low_bits in H.
  assert (B : forall i, 0 <= i < 64 ->
     xorb (Z.testbit v (i - 8)) (Z.testbit v (i + 55)) =
     xorb (Z.testbit v' (i - 8)) (Z.testbit v' (i + 55))).
  { intros i Hi. rewrite <- !rot_bit by lia. now apply H. }
  assert (Hhi : forall j, 55 <= j < 63 -> Z.testbit v j = Z.testbit v' j).
  { intros j Hj. specialize (B (j - 55) ltac:(lia)).
    rewrite !(Z.testbit_neg_r _ (j - 55 - 8)) in B by lia.
    replace (j - 55 + 55) with j in B by lia. exact B. }
  assert (Hs : (v <? 0) = (v' <? 0)).
  { specialize (B 63 ltac:(lia)).
    change (63 - 8) with 55 in B. change (63 + 55) with 118 in B.
    rewrite (sign_bit v 118), (sign_bit v' 118), (Hhi 55) in B
      by (auto; lia).
    destruct (Z.testbit v' 55), (v <? 0), (v' <? 0);
      simpl in B; congruence. }
  apply Z.bits_inj'. intros n Hn.
  destruct (Z_lt_le_dec n 55) as [Hlo|Hge].
  - specialize (B (n + 8) ltac:(lia)).
    replace (n + 8 - 8) with n in B by lia.
    rewrite (sign_bit v (n + 8 + 55)), (sign_bit v' (n + 8 + 55)), Hs in B
      by (auto; lia).
    destruct (Z.testbit v n), (Z.testbit v' n), (v' <? 0);
      simpl in B; congruence.
  - destruct (Z_lt_le_dec n 63).
    + apply Hhi; lia.
    + rewrite !sign_bit by (auto; lia). exact Hs.
Qed.

Lemma hash_update_injective v v' c :
  int64 v -> int64 v' -> hash_update v c = hash_update v' c -> v = v'.
Proof.
  intros Hv Hv' H. unfold hash_update in H. apply c_int64_eq in H.
  apply rot_injective; auto. fold (rot v) (rot v') in H.
  change (2 ^ 64) with 18446744073709551616 in *.
  Z.div_mod_to_equations. lia.
Qed.

Lemma hash_update_digit v c c' :
  0 <= c < 2 ^ 64 -> 0 <= c' < 2 ^ 64 ->
  hash_update v c = hash_update v c' -> c = c'.
Proof.
  intros Hc Hc' H. unfold hash_update in H. apply c_int64_eq in H.
  change (2 ^ 64) with 18446744073709551616 in *.
  Z.div_mod_to_equations. lia.
Qed.

Lemma sar64_bit u i :
  0 <= i < 64 ->
  Z.testbit (sar64 u 55) i
  = Z.testbit u (i + 55) || (Z.testbit u 63 && (9 <=? i)).
Proof.
  intros Hi. unfold sar64. rewrite Z.lor_spec, Z.shiftr_spec by lia.
  f_equal. destruct (Z.testbit u 63); cbn [andb].
  - rewrite Z.shiftl_spec, Z.testbit_ones by lia.
    change (64 - 55) with 9.
    destruct (Z.leb_spec 9 i), (Z.leb_spec 0 (i - 9)),
      (Z.ltb_spec (i - 9) 55); simpl; try reflexivity; lia.
  - apply Z.bits_0.
Qed.

Lemma shifted_word_bit v i :
  0 <= i < 64 ->
  Z.testbit (Z.shiftl (v mod 2 ^ 64) 8 mod 2 ^ 64) i
  = Z.testbit v (i - 8).
Proof.
  intros Hi. rewrite Z.mod_pow2_bits_low by lia.
  rewrite Z.shiftl_spec by lia.
  destruct (Z_lt_le_dec i 8).
  - rewrite !Z.testbit_neg_r by lia. reflexivity.
  - rewrite Z.mod_pow2_bits_low by lia. reflexivity.
Qed.

Lemma mod_add_cancel a b c :
  (a + c) mod 2 ^ 64 = (b + c) mod 2 ^ 64 <->
  a mod 2 ^ 64 = b mod 2 ^ 64.
Proof.
  change (2 ^ 64) with 18446744073709551616.
  split; intros H; Z.div_mod_to_equations; lia.
Qed.

Lemma hash_update_arithmetic v c :
  int64 v -> hash_update v c = arithmetic_scalar_mix v c.
Proof.
  intros Hv. unfold hash_update, arithmetic_scalar_mix. cbv zeta.
  apply c_int64_eq, mod_add_cancel, low_bits. intros i Hi.
  fold (rot v).
  rewrite rot_bit, Z.lxor_spec, sar64_bit, shifted_word_bit by lia.
  rewrite (Z.mod_pow2_bits_low v 64 63) by lia.
  rewrite (sign_bit v 63) by (auto; lia).
  f_equal. rewrite Z.testbit_mod_pow2 by lia.
  destruct (Z.ltb_spec (i + 55) 64), (Z.leb_spec 9 i); simpl; try lia.
  - now rewrite andb_false_r, orb_false_r.
  - rewrite sign_bit by (auto; lia). now rewrite andb_true_r.
Qed.

Lemma hash_update_logical_iff v c :
  int64 v -> (hash_update v c = spec_scalar_mix v c <-> 0 <= v).
Proof.
  intros Hv. unfold hash_update, spec_scalar_mix. cbv zeta.
  rewrite c_int64_eq, mod_add_cancel, low_bits. fold (rot v).
  assert (Hbit : forall i, 0 <= i < 64 ->
            Z.testbit (Z.lxor (Z.shiftl (v mod 2 ^ 64) 8 mod 2 ^ 64)
                              (Z.shiftr (v mod 2 ^ 64) 55)) i =
            xorb (Z.testbit v (i - 8))
                 ((i + 55 <? 64) && Z.testbit v (i + 55))).
  { intros i Hi.
    rewrite Z.lxor_spec, Z.shiftr_spec, shifted_word_bit by lia.
    now rewrite Z.testbit_mod_pow2 by lia. }
  split.
  - intros H. specialize (H 9 ltac:(lia)).
    rewrite rot_bit, Hbit in H by lia.
    change (9 + 55 <? 64) with false in H. cbn [andb] in H.
    rewrite (sign_bit v (9 + 55)) in H by (auto; lia).
    destruct (Z.ltb_spec v 0); [|lia].
    destruct (Z.testbit v (9 - 8)); simpl in H; discriminate.
  - intros Hpos i Hi. rewrite rot_bit, Hbit by lia. f_equal.
    destruct (Z.ltb_spec (i + 55) 64); cbn [andb]; [reflexivity|].
    rewrite sign_bit by (auto; lia).
    destruct (Z.ltb_spec v 0); [lia | reflexivity].
Qed.

End Wraparound.

(** C2, as stated: on the state -1 the logical shift of the specification
    and [hash_update] disagree; so they do on the negative state that the
    fingerprint of [int32_t x; int32_t y] leaves behind. *)
Lemma C2_logical_shift_counterexample :
  (int64 (-1) /\ hash_update (-1) 0 = 255 /\ spec_scalar_mix (-1) 0 = -257)
  /\ let v :=
       hash_structure
         (struct_of "s" [scalar "int32_t" "x"; scalar "int32_t" "y"] []) in
     v = -6352952876372373660
     /\ hash_update v 1 = 3042457864887114576
     /\ spec_scalar_mix v 1 = -3042457864887114416.
Proof.
  unfold int64. repeat split; try (vm_compute; reflexivity); lia.
Qed.

(** C2, amended: from the seed 0x12345678 on, each scalar-mixing step
    [hash_update v c] is [((v << 8) XOR (v >> 55)) + c] kept to 64 bits in
    two's complement, where [>> 55] is the arithmetic (sign-propagating)
    right shift of the 64-bit value; this holds for every signed 64-bit
    state [v] and every [c], and it is the logical-shift value of the
    specification exactly when [v] is not negative. *)
Theorem C2_hash_update_arithmetic_shift :
  forall v c,
    int64 v ->
    hash_update v c = arithmetic_scalar_mix v c
    /\ (hash_update v c = spec_scalar_mix v c <-> 0 <= v)
    /\ hash_structure (struct_of "empty" [] []) = 0x12345678.
Proof.
  intros v c Hv. split; [|split].
  - now apply hash_update_arithmetic.
  - now apply hash_update_logical_iff.
  - reflexivity.
Qed.

(** The step from the state -1 with [c = 7]. *)
Lemma C2_hash_update_witness :
  hash_update (-1) 7 = arithmetic_scalar_mix (-1) 7.
Proof.
  apply (C2_hash_update_arithmetic_shift (-1) 7). unfold int64. lia.
Defined.

(** ** The fingerprint as a function of the member list *)

Section Shape.

Lemma hash_member_shape v m :
  hash_member v m = hash_shape v (member_shape m).
Proof.
  unfold hash_member, member_shape, hash_shape.
  destruct (Py.str_in (lctypename (type m)) PRIMITIVE_TYPES); reflexivity.
Qed.

Lemma hash_members_shapes ms : forall v,
  fold_left hash_member ms v
  = fold_left hash_shape (map member_shape ms) v.
Proof.
  induction ms as [|m ms IH]; intros v; simpl; [reflexivity|].
  now rewrite IH, hash_member_shape.
Qed.

End Shape.

Create HintDb mixers.

Section Mixers.

Lemma mixer_id : mixer (fun v => v).
Proof. split; auto. Qed.

Lemma mixer_compose g h :
  mixer g -> mixer h -> mixer (fun v => h (g v)).
Proof. intros [Rg Ig] [Rh Ih]. split; intros; auto. Qed.

Lemma hash_update_range v c : int64 (hash_update v c).
Proof. apply c_int64_range. Qed.

Lemma mixer_hash_update c : mixer (fun v => hash_update v c).
Proof.
  split.
  - intros v _. apply c_int64_range.
  - intros v v'. apply hash_update_injective.
Qed.

Lemma mixer_fold {A} (step : Z -> A -> Z) (xs : list A) :
  (forall x, mixer (fun v => step v x)) ->
  mixer (fun v => fold_left step xs v).
Proof.
  intros H. induction xs as [|x xs IH]; simpl.
  - apply mixer_id.
  - apply (mixer_compose (fun v => step v x)
                         (fun v => fold_left step xs v)); auto.
Qed.

Lemma mixer_hash_string_update s :
  mixer (fun v => hash_string_update v s).
Proof.
  unfold hash_string_update.
  apply (mixer_compose
           (fun v => hash_update v (Py.len s))
           (fun v => fold_left (fun v c => hash_update v (Py.ord c))
                               (Py.chars s) v)).
  - apply mixer_hash_update.
  - apply mixer_fold. intros c. apply mixer_hash_update.
Qed.

(** [hash_member] after the member name has been mixed in. *)
Lemma mixer_hash_member_tail m :
  mixer (fun v =>
    let v :=
      if Py.str_in (lctypename (type m)) PRIMITIVE_TYPES
      then hash_string_update v (lctypename (type m)) else v in
    let v := hash_update v (Z.of_nat (List.length (dimensions m))) in
    fold_left
      (fun v dim =>
         let v := hash_update v (DimensionMode_value (mode dim)) in
         hash_string_update v (size dim))
      (dimensions m) v).
Proof.
  cbv zeta.
  apply (mixer_compose
           (fun v => if Py.str_in (lctypename (type m)) PRIMITIVE_TYPES
                     then hash_string_update v (lctypename (type m))
                     else v)
           (fun v => fold_left _ (dimensions m)
                       (hash_update
                          v (Z.of_nat (List.length (dimensions m)))))).
  - destruct (Py.str_in _ _);
      [apply mixer_hash_string_update | apply mixer_id].
  - apply (mixer_compose (fun v => hash_update v _)
                         (fun v => fold_left _ (dimensions m) v)).
    + apply mixer_hash_update.
    + apply mixer_fold. intros dim.
      apply (mixer_compose
               (fun v => hash_update v _)
               (fun v => hash_string_update v (size dim))).
      * apply mixer_hash_update.
      * apply mixer_hash_string_update.
Qed.

Lemma mixer_hash_member m : mixer (fun v => hash_member v m).
Proof.
  unfold hash_member.
  apply (mixer_compose (fun v => hash_string_update v (membername m)) _
           (mixer_hash_string_update _) (mixer_hash_member_tail m)).
Qed.

End Mixers.

#[local] Hint Resolve hash_update_range : mixers.
#[local] Hint Extern 1 (mixer (fun v => hash_update v _)) =>
  apply mixer_hash_update : mixers.

Section OneCharacter.

Lemma chars_app a b :
  Py.chars (a ++ b) = (Py.chars a ++ Py.chars b)%list.
Proof.
  unfold Py.chars.
  induction a as [|c a IH]; simpl; [reflexivity|now rewrite IH].
Qed.

Lemma len_app_char a x b y :
  Py.len (a ++ String x b) = Py.len (a ++ String y b).
Proof.
  unfold Py.len. f_equal.
  induction a as [|c a IH]; simpl; [reflexivity|now rewrite IH].
Qed.

Lemma ord_injective x y : Py.ord x = Py.ord y -> x = y.
Proof.
  unfold Py.ord. intros H. apply N2Z.inj in H.
  rewrite <- (ascii_N_embedding x), <- (ascii_N_embedding y).
  now rewrite H.
Qed.

Lemma ord_range x : 0 <= Py.ord x < 2 ^ 64.
Proof.
  unfold Py.ord. pose proof (N_ascii_bounded x).
  change (2 ^ 64) with 18446744073709551616. lia.
Qed.

Lemma seed_int64 : int64 hash_seed.
Proof. unfold int64, hash_seed. lia. Qed.

Lemma hash_string_one_char v a b x y :
  int64 v -> x <> y ->
  hash_string_update v (a ++ String x b)
  <> hash_string_update v (a ++ String y b).
Proof.
  intros Hv Hxy. unfold hash_string_update.
  rewrite (len_app_char a x b y), !chars_app. simpl.
  rewrite !fold_left_app. simpl.
  set (st := fold_left _ (Py.chars a) _).
  assert (Hst : int64 st).
  { unfold st. apply (mixer_fold (fun v c => hash_update v (Py.ord c)));
      auto with mixers. }
  intros H.
  apply (mixer_fold (fun v c => hash_update v (Py.ord c)) (Py.chars b))
    in H; auto with mixers.
  apply hash_update_digit in H; try apply ord_range.
  apply Hxy, ord_injective, H.
Qed.

Lemma hash_one_char_rename pre m post a b x y :
  x <> y -> membername m = a ++ String x b ->
  fold_left hash_member (pre ++ m :: post) hash_seed <>
  fold_left hash_member
    (pre ++ rename_member m (a ++ String y b) :: post) hash_seed.
Proof.
  intros Hxy Hname. rewrite !fold_left_app. simpl.
  set (st := fold_left hash_member pre hash_seed).
  assert (Hst : int64 st).
  { apply (mixer_fold hash_member pre mixer_hash_member), seed_int64. }
  intros H.
  apply (mixer_fold hash_member post mixer_hash_member) in H;
    try (apply (mixer_hash_member _); exact Hst).
  unfold hash_member in H. simpl in H. rewrite Hname in H.
  apply (mixer_hash_member_tail m) in H;
    try (apply (mixer_hash_string_update _); exact Hst).
  revert H. now apply hash_string_one_char.
Qed.

End OneCharacter.




(** ** The lexer as a reader of a character stream *)

Section Stream.

Lemma readline_split s :
  s = fst (readline s) ++ snd (readline s).
Proof.
  induction s as [|c s IH]; simpl; [reflexivity|].
  destruct (Ascii.eqb c NL); simpl; [reflexivity|].
  destruct (readline s) as [l r]. simpl in *. now rewrite <- IH.
Qed.

Lemma readline_nonempty c s : fst (readline (String c s)) <> EmptyString.
Proof.
  simpl. destruct (Ascii.eqb c NL); [discriminate|].
  destruct (readline s). discriminate.
Qed.

Lemma get_nth_error s n : String.get n s = nth_error (Py.chars s) n.
Proof.
  revert n. induction s as [|c s IH]; intros [|n]; simpl; auto.
Qed.

Lemma skipn_nth_error {A} (l : list A) n c :
  nth_error l n = Some c -> skipn n l = c :: skipn (S n) l.
Proof.
  revert l.
  induction n as [|n IH]; intros [|x l] H; simpl in *; try discriminate.
  - now inversion H.
  - now apply IH.
Qed.

Lemma len_chars s : Py.len s = Z.of_nat (List.length (Py.chars s)).
Proof.
  unfold Py.len, Py.chars. f_equal. induction s; simpl; auto.
Qed.

(** [next_char] hands out the head of the pending characters and leaves
    the tail; at end of stream it returns [None] and keeps
    [current_char]. *)
Lemma next_char_spec w :
  buffer_ok (t w) ->
  exists w',
    next_char w = Ok (hd_error (pending (t w))) w' /\
    buffer_ok (t w') /\
    pending (t w') = tl (pending (t w)) /\
    unget_char (t w') = None /\
    (token (t w'), rest_frame w') = (token (t w), rest_frame w) /\
    current_char (t w') =
      match pending (t w) with
      | c :: _ => Some c
      | [] => current_char (t w)
      end.
Proof.
  intros [Hcol Hbuf]. destruct w as [tk g out]. simpl in *.
  unfold next_char, bind, get_t. simpl.
  destruct (unget_char tk) as [u|] eqn:Hu.
  - eexists. split; [unfold pending; rewrite Hu; reflexivity|].
    simpl. unfold pending, buffer_ok, buffered, rest_frame. simpl.
    rewrite Hu. simpl. repeat split; auto; lia.
  - destruct (Z.eqb_spec (buffer_column tk) (buffer_len tk)) as [Heq|Hne].
    + assert (Hb : buffered tk = []).
      { unfold buffered.
        destruct Hbuf as [[_ ->]|Hl]; [now destruct (Z.to_nat _)|].
        apply skipn_all2. rewrite len_chars in Hl. lia. }
      pose proof (readline_split (f tk)) as Hsplit.
      destruct (f tk) as [|c0 rest0] eqn:Hf.
      * simpl. eexists.
        split; [unfold pending; rewrite Hu, Hb, Hf; reflexivity|].
        unfold pending, buffer_ok, rest_frame. rewrite Hb.
        unfold buffered. simpl. rewrite Hu, Hf. simpl.
        assert (Hnil : skipn (Z.to_nat (buffer_column tk)) (@nil ascii)
                       = [])
          by now destruct (Z.to_nat (buffer_column tk)).
        rewrite Hnil. repeat split; auto; try lia.
      * pose proof (readline_nonempty c0 rest0) as Hne.
        destruct (readline (String c0 rest0)) as [ln rest] eqn:Hrl.
        simpl in Hne, Hsplit.
        destruct ln as [|c ln]; [congruence|].
        simpl. unfold upd_t, bind, ret. simpl.
        eexists. split.
        { unfold pending. rewrite Hu, Hb, Hf, Hsplit. reflexivity. }
        unfold pending, buffer_ok, rest_frame. rewrite Hb.
        unfold buffered. simpl. rewrite Hu, Hf, Hsplit. simpl.
        rewrite chars_app.
        assert (1 <= Py.len (String c ln))
          by (unfold Py.len; simpl; lia).
        repeat split; auto; lia.
    + destruct Hbuf as [[? _]|Hl]; [lia|].
      unfold ret, bind. simpl. unfold str_index.
      assert (Hlt : (buffer_column tk <? 0) = false)
        by (apply Z.ltb_ge; lia).
      rewrite !Hlt, get_nth_error.
      destruct (nth_error (Py.chars (buffer tk))
                          (Z.to_nat (buffer_column tk)))
        as [c|] eqn:Hn.
      * simpl. unfold upd_t. simpl.
        eexists. split.
        { unfold pending, buffered. rewrite Hu. simpl.
          rewrite (skipn_nth_error _ _ _ Hn). reflexivity. }
        unfold pending, buffer_ok, buffered, rest_frame. simpl.
        rewrite Hu. simpl. rewrite (skipn_nth_error _ _ _ Hn). simpl.
        replace (Z.to_nat (buffer_column tk + 1))
          with (S (Z.to_nat (buffer_column tk))) by lia.
        repeat split; auto; try lia.
      * apply nth_error_None in Hn. rewrite len_chars in Hl. lia.
Qed.

Lemma stream_pending a b : stream a = stream b -> pending a = pending b.
Proof.
  unfold stream, pending, buffered. intros H.
  inversion H as [[H1 H2 H3 H4 H5 H6]]. now rewrite H1, H2, H3, H5.
Qed.

Lemma stream_buffer_ok a b :
  stream a = stream b -> buffer_ok b -> buffer_ok a.
Proof.
  unfold stream, buffer_ok. intros H.
  inversion H as [[H1 H2 H3 H4 H5 H6]]. now rewrite H2, H3, H4.
Qed.

Lemma at_stream_intro c w l :
  buffer_ok (t w) -> c = hd_error l -> pending (t w) = tl l ->
  at_stream c w l.
Proof. intros. split; [|split]; assumption. Qed.

Lemma at_stream_ext c w w' l :
  stream (t w') = stream (t w) -> at_stream c w l -> at_stream c w' l.
Proof.
  intros H (B & C & P). apply at_stream_intro; auto.
  - eapply stream_buffer_ok; eauto.
  - now rewrite (stream_pending _ _ H).
Qed.

Lemma bind_ok {A B} (m : M A) (k : A -> M B) w a w' :
  m w = Ok a w' -> bind m k w = k a w'.
Proof. unfold bind. now intros ->. Qed.

Lemma next_char_step w l :
  buffer_ok (t w) -> pending (t w) = l ->
  exists w', next_char w = Ok (hd_error l) w' /\
             at_stream (hd_error l) w' l /\
             token (t w') = token (t w) /\
             rest_frame w' = rest_frame w.
Proof.
  intros B P.
  destruct (next_char_spec w B) as (w' & E & B' & P' & _ & F & _).
  exists w'. rewrite P in *.
  pose proof (f_equal fst F) as Ft. pose proof (f_equal snd F) as Fr.
  split; [|split; [|split]]; auto using at_stream_intro.
Qed.

Lemma create_stream p src g out :
  buffer_ok (t (source_world p src g out)) /\
  pending (t (source_world p src g out)) = src.
Proof.
  split.
  - unfold buffer_ok. simpl. split; [lia|]. left. split; reflexivity.
  - unfold pending, buffered. simpl.
    apply list_ascii_of_string_of_list_ascii.
Qed.

Lemma append_char s c s' : add_char s c ++ s' = s ++ String c s'.
Proof.
  unfold add_char.
  induction s as [|a s IH]; simpl; [reflexivity|now rewrite IH].
Qed.

Lemma append_empty s : s ++ EmptyString = s.
Proof. induction s; simpl; congruence. Qed.

Lemma hd_app_ne {A} (x : A) (l1 l2 : list A) :
  (l1 = [] -> hd_error l2 <> Some x) ->
  (l1 <> [] -> hd_error l1 <> Some x) ->
  hd_error (l1 ++ l2) <> Some x.
Proof.
  destruct l1; simpl; intros H1 H2; [apply H1|apply H2]; congruence.
Qed.

End Stream.

Ltac conj4 := split; [|split; [|split]].

(** The world after an update of the tokenizer that leaves the stream
    alone. *)
Ltac same_stream S := eapply at_stream_ext; [|exact S]; reflexivity.

Section Loops.

Lemma skip_space_nonspace n ch w :
  Py.isspace ch = false -> skip_space (S n) (Some ch) w = Ok (Some ch) w.
Proof. intros H. simpl. now rewrite H. Qed.

Lemma skip_char_spec x : forall xs n c w rest,
  at_stream c w (xs ++ rest) -> Forall (eq x) xs ->
  hd_error rest <> Some x -> (List.length xs < n)%nat ->
  exists w', skip_char n x c w = Ok (hd_error rest) w' /\
             at_stream (hd_error rest) w' rest /\
             token (t w') = token (t w) /\
             rest_frame w' = rest_frame w.
Proof.
  induction xs as [|a xs IH]; intros n c w rest S Hall Hrest Hn;
    destruct n as [|n]; simpl in Hn; try lia.
  - simpl in *. destruct S as (B & -> & P). exists w. simpl.
    assert (is_chr (hd_error rest) x = false) as ->.
    { destruct (hd_error rest) as [ch|]; simpl; auto.
      destruct (Ascii.eqb_spec ch x); congruence. }
    conj4; auto using at_stream_intro.
  - inversion Hall as [|? ? <- Hall']; subst. destruct S as (B & -> & P).
    simpl in *. rewrite Ascii.eqb_refl.
    destruct (next_char_step w _ B P) as (w1 & E1 & S1 & T1 & F1).
    rewrite (bind_ok _ _ _ _ _ E1).
    destruct (IH n _ w1 rest S1 Hall' Hrest ltac:(lia))
      as (w' & E & S' & T' & F').
    exists w'. conj4; auto; congruence.
Qed.

Lemma line_comment_text_spec : forall text n c w pos tail,
  at_stream c w (text ++ tail) -> Forall (fun ch => ch <> NL) text ->
  hd_error tail = None \/ hd_error tail = Some NL ->
  (List.length text < n)%nat ->
  exists w', line_comment_text n c pos w
             = Ok (pos + Z.of_nat (List.length text)) w' /\
             at_stream (hd_error tail) w' tail /\
             token (t w') = token (t w) ++ string_of_list_ascii text /\
             rest_frame w' = rest_frame w.
Proof.
  induction text as [|a text IH]; intros n c w pos tail S Hall Htail Hn;
    destruct n as [|n]; simpl in Hn; try lia.
  - simpl in *. destruct S as (B & -> & P). exists w. simpl.
    rewrite Z.add_0_r, append_empty.
    conj4; auto using at_stream_intro.
    destruct Htail as [-> | ->]; reflexivity.
  - inversion Hall as [|? ? Ha Hall']; subst. destruct S as (B & -> & P).
    simpl in *.
    destruct (Ascii.eqb_spec a NL) as [|_]; [contradiction|].
    unfold add_char_to_token at 1. unfold bind at 1. unfold upd_t at 1.
    set (w0 := mkWorld _ _ _).
    assert (B0 : buffer_ok (t w0))
      by (eapply stream_buffer_ok; [|exact B]; reflexivity).
    assert (P0 : pending (t w0) = (text ++ tail)%list)
      by (rewrite <- P; apply stream_pending; reflexivity).
    destruct (next_char_step w0 _ B0 P0) as (w1 & E1 & S1 & T1 & F1).
    rewrite (bind_ok _ _ _ _ _ E1).
    destruct (IH n _ w1 (pos + 1) tail S1 Hall' Htail ltac:(lia))
      as (w' & E & S' & T' & F').
    exists w'. rewrite E. conj4; auto.
    + f_equal. lia.
    + rewrite T', T1. unfold w0. simpl. apply append_char.
    + rewrite F', F1. reflexivity.
Qed.

(** The loop of a string literal computes [string_text]. *)
Lemma string_literal_spec : forall body n w pos esc,
  buffer_ok (t w) -> pending (t w) = body ->
  (List.length body < n)%nat ->
  exists w',
    string_literal n pos esc w
    = Ok (option_map
            (fun kept => pos + Z.of_nat (List.length kept) + 1)
            (string_text esc body)) w' /\
    (forall kept,
        string_text esc body = Some kept ->
        token (t w')
        = token (t w) ++ string_of_list_ascii (kept ++ [DQUOTE])) /\
    rest_frame w' = rest_frame w.
Proof.
  induction body as [|a body IH]; intros n w pos esc B P Hn;
    destruct n as [|n]; simpl in Hn; try lia;
    destruct (next_char_step w _ B P) as (w1 & E1 & S1 & T1 & F1);
    cbn [string_literal]; rewrite (bind_ok _ _ _ _ _ E1); cbn [hd_error].
  - exists w1. simpl. split; [reflexivity|]. split; [discriminate|auto].
  - destruct S1 as (B1 & _ & P1). cbn [tl] in P1.
    cbn [string_text]. destruct esc.
    + destruct (IH n w1 pos false B1 P1 ltac:(lia)) as (w' & E & T' & F').
      exists w'. split; [exact E|]. split; [|congruence].
      intros kept Hk. rewrite (T' kept Hk). now rewrite T1.
    + destruct (Ascii.eqb a DQUOTE) eqn:Hq.
      * apply Ascii.eqb_eq in Hq. subst a.
        unfold add_char_to_token, bind, upd_t, ret.
        exists (mkWorld (set_token (add_char (token (t w1)) DQUOTE) (t w1))
                        (lcmgen w1) (stdout w1)).
        split; [simpl; do 2 f_equal; lia|]. split.
        -- intros kept Hk. inversion Hk. simpl. now rewrite T1.
        -- rewrite <- F1. reflexivity.
      * destruct (Ascii.eqb a BACKSLASH) eqn:Hb.
        -- destruct (IH n w1 pos true B1 P1 ltac:(lia))
             as (w' & E & T' & F').
           exists w'. split; [exact E|]. split; [|congruence].
           intros kept Hk. rewrite (T' kept Hk). now rewrite T1.
        -- unfold add_char_to_token at 1. unfold bind at 1.
           unfold upd_t at 1.
           set (w2 := mkWorld _ _ _).
           assert (B2 : buffer_ok (t w2))
             by (eapply stream_buffer_ok; [|exact B1]; reflexivity).
           assert (P2 : pending (t w2) = body)
             by (rewrite <- P1; apply stream_pending; reflexivity).
           destruct (IH n w2 (pos + 1) false B2 P2 ltac:(lia))
             as (w' & E & T' & F').
           exists w'. rewrite E. split; [|split].
           ++ destruct (string_text false body) as [kept|]; simpl;
                [|reflexivity].
              do 2 f_equal. lia.
           ++ intros kept Hk.
              destruct (string_text false body) as [kept'|];
                simpl in Hk; inversion Hk; subst.
              rewrite (T' kept' eq_refl). unfold w2. simpl.
              rewrite T1. apply append_char.
           ++ rewrite F', <- F1. reflexivity.
Qed.

End Loops.

(** ** Tokens of a line *)

Example tokens_of_a_struct_line :
  token_list 32 16
    (source_world "input.lcm" (Py.chars "struct foo { int32_t x; }")
                  create_lcmgen [])
  = ["struct"; "foo"; "{"; "int32_t"; "x"; ";"; "}"].
Proof. vm_compute. reflexivity. Qed.

Example tokens_around_an_operator :
  token_list 32 16
    (source_world "input.lcm" (Py.chars (line "const int8_t k=-3;"))
                  create_lcmgen [])
  = ["const"; "int8_t"; "k"; "="; "-3"; ";"].
Proof. vm_compute. reflexivity. Qed.

(** ** Line comments *)

(** C5, as stated: for the source line [//   x] the comment text is [x];
    none of the three spaces is kept. *)
Lemma C5_line_comment_counterexample :
  first_token 16 Src.line_comment = Some (Some 1, "x", COMMENT)
  /\ "x" <> "  x".
Proof. split; [vm_compute; reflexivity | discriminate]. Qed.

(** C5, amended: for a line comment introduced by [//], the lexer
    discards any further leading [/] characters and all the spaces that
    follow them, and the comment token's text is the remainder of the line
    excluding the newline; for the source line [//   x] the text is [x].
    Here [text] is that remainder: it does not start with a space, nor
    with a slash when no space precedes it. *)
Theorem C5_line_comment_text :
  forall fuel p g out slashes spaces text tail,
    Forall (eq SLASH) slashes -> Forall (eq SPACE) spaces ->
    Forall (fun ch => ch <> NL) text ->
    hd_error text <> Some SPACE ->
    (spaces = [] -> hd_error text <> Some SLASH) ->
    hd_error tail = None \/ hd_error tail = Some NL ->
    (List.length (slashes ++ spaces ++ text) < fuel)%nat ->
    exists w',
      tokenize_next fuel
        (source_world
           p (SLASH :: SLASH :: slashes ++ spaces ++ text ++ tail)%list
           g out)
      = Ok (Some (Z.of_nat (List.length text))) w' /\
      token (t w') = string_of_list_ascii text /\
      token_type (t w') = COMMENT.
Proof.
  intros fuel p g out slashes spaces text tail
         Hsl Hsp Htx Hns Hnsl Htail Hfuel.
  destruct (create_stream
              p (SLASH :: SLASH :: slashes ++ spaces ++ text ++ tail)%list
              g out)
    as (B0 & P0).
  set (w0 := source_world _ _ _ _) in *.
  unfold tokenize_next.
  rewrite (bind_ok get_t _ w0 (t w0) w0 eq_refl).
  change (hasnext (t w0)) with 0. cbn [Z.eqb negb].
  unfold tokenize_next_internal.
  unfold set_type at 1. unfold bind at 1, upd_t at 1.
  unfold bind at 1, upd_t at 1.
  set (w1 := mkWorld _ _ _).
  assert (B1 : buffer_ok (t w1)) by exact B0.
  assert (P1 : pending (t w1)
               = (SLASH :: SLASH :: slashes ++ spaces ++ text ++ tail)%list)
    by exact P0.
  destruct (next_char_step w1 _ B1 P1) as (w2 & E2 & S2 & T2 & F2).
  rewrite (bind_ok _ _ _ _ _ E2). cbn [hd_error].
  destruct fuel as [|n]; [simpl in Hfuel; lia|].
  rewrite (bind_ok _ _ _ _ _ (skip_space_nonspace n SLASH w2 eq_refl)).
  change ((SLASH =? SQUOTE)%char) with false.
  change ((SLASH =? DQUOTE)%char) with false.
  change (Py.chr_in SLASH OPERATOR_CHARS) with false.
  change ((SLASH =? SLASH)%char) with true. cbv iota.
  unfold bind at 1, upd_t at 1.
  unfold add_char_to_token at 1. unfold bind at 1, upd_t at 1.
  set (w3 := mkWorld _ _ _).
  assert (S3 : at_stream
                 (Some SLASH) w3
                 (SLASH :: SLASH :: slashes ++ spaces ++ text ++ tail)%list)
    by same_stream S2.
  destruct S3 as (B3 & _ & P3). cbn [tl] in P3.
  destruct (next_char_step w3 _ B3 P3) as (w4 & E4 & S4 & T4 & F4).
  rewrite (bind_ok _ _ _ _ _ E4). cbn [hd_error].
  change ((SLASH =? STAR)%char) with false.
  change ((SLASH =? SLASH)%char) with true. cbv iota.
  unfold set_type at 1. unfold bind at 1, upd_t at 1.
  set (w5 := mkWorld _ _ _).
  assert (S5 : at_stream
                 (Some SLASH) w5
                 (SLASH :: slashes ++ spaces ++ text ++ tail)%list)
    by same_stream S4.
  destruct S5 as (B5 & _ & P5). cbn [tl] in P5.
  destruct (next_char_step w5 _ B5 P5) as (w6 & E6 & S6 & T6 & F6).
  rewrite (bind_ok _ _ _ _ _ E6).
  assert (Hh1 : hd_error (spaces ++ text ++ tail) <> Some SLASH).
  { apply hd_app_ne.
    - intros Hs. apply hd_app_ne; [|intros _; now apply Hnsl].
      intros _. destruct Htail as [-> | ->]; discriminate.
    - intros Hs. destruct Hsp as [|? ? <-]; [congruence|discriminate]. }
  assert (Hh2 : hd_error (text ++ tail) <> Some SPACE).
  { apply hd_app_ne; [|intros _; exact Hns].
    intros _. destruct Htail as [-> | ->]; discriminate. }
  rewrite !length_app in Hfuel.
  destruct (skip_char_spec SLASH slashes (S n) _ w6 _ S6 Hsl Hh1
                           ltac:(lia))
    as (w7 & E7 & S7 & T7 & F7).
  rewrite (bind_ok _ _ _ _ _ E7).
  destruct (skip_char_spec SPACE spaces (S n) _ w7 _ S7 Hsp Hh2
                           ltac:(lia))
    as (w8 & E8 & S8 & T8 & F8).
  rewrite (bind_ok _ _ _ _ _ E8).
  unfold bind at 1, upd_t at 1.
  set (w9 := mkWorld _ _ _).
  assert (S9 : at_stream (hd_error (text ++ tail)) w9 (text ++ tail))
    by same_stream S8.
  destruct (line_comment_text_spec text (S n) _ w9 0 tail S9 Htx Htail
                                   ltac:(lia))
    as (w10 & E10 & S10 & T10 & F10).
  rewrite (bind_ok _ _ _ _ _ E10).
  unfold bind, unget, upd_t, ret. eexists. split; [reflexivity|].
  cbn [t token token_type set_unget_column set_unget_line set_unget_char].
  split.
  - rewrite T10. reflexivity.
  - assert (H10 : token_type (t w10) = token_type (t w9))
      by (unfold rest_frame in F10; congruence).
    assert (H8 : token_type (t w8) = token_type (t w7))
      by (unfold rest_frame in F8; congruence).
    assert (H7 : token_type (t w7) = token_type (t w6))
      by (unfold rest_frame in F7; congruence).
    assert (H6 : token_type (t w6) = token_type (t w5))
      by (unfold rest_frame in F6; congruence).
    rewrite H10. change (token_type (t w9)) with (token_type (t w8)).
    rewrite H8, H7, H6. reflexivity.
Qed.

(** The line [//   x]: no further slash, three spaces, the text [x]. *)
Lemma C5_line_comment_witness :
  exists w',
    tokenize_next 16
      (source_world "input.lcm" (Py.chars Src.line_comment) create_lcmgen [])
    = Ok (Some 1) w' /\
    token (t w') = "x" /\ token_type (t w') = COMMENT.
Proof.
  apply (C5_line_comment_text
           16 "input.lcm" create_lcmgen []
           [] [SPACE; SPACE; SPACE] ["x"%char] []).
  - constructor.
  - repeat constructor.
  - repeat constructor. discriminate.
  - discriminate.
  - discriminate.
  - left. reflexivity.
  - simpl. lia.
Defined.

(** ** Block comments *)

(** C6, as stated: the token text of the three-line block comment is not
    [header], newline, [body]. *)
Lemma C6_block_comment_counterexample :
  exists r tok ty,
    first_token 32 Src.block_comment = Some (r, tok, ty)
    /\ tok <> "header" ++ String NL "body".
Proof.
  exists (Some 12), (line "header" ++ line "body"), COMMENT.
  split; [vm_compute; reflexivity | discriminate].
Qed.

(** C6, amended: tokenizing the three-line block comment
    [/** header], [ * body], [ */] produces a single comment-classified
    token whose text is [header], newline, [body], newline: per physical
    line the leading horizontal whitespace, the run of leading asterisks
    and a single space after them are stripped, the comment ends when the
    asterisk run is immediately followed by [/], and the newline of the
    last content line remains at the end of the token text. *)
Theorem C6_block_comment_text :
  first_token 32 Src.block_comment
  = Some (Some 12, line "header" ++ line "body", COMMENT).
Proof. vm_compute. reflexivity. Qed.

(** ** String literals *)

Lemma string_text_no_quote body :
  ~ In DQUOTE body -> forall esc, string_text esc body = None.
Proof.
  induction body as [|a body IH]; intros Hin esc; simpl; [reflexivity|].
  assert (Ha : Ascii.eqb a DQUOTE = false).
  { apply Ascii.eqb_neq. intros ->. apply Hin. now left. }
  assert (Hb : ~ In DQUOTE body) by (intros H; apply Hin; now right).
  rewrite Ha. destruct esc; [now apply IH|].
  destruct (Ascii.eqb a BACKSLASH); rewrite IH; auto.
Qed.

(** C7: in string-literal scanning a backslash makes the lexer consume
    the next character without appending it, and the backslash is not
    appended either, so the token text is the opening quote, the
    characters that [string_text] keeps and the closing quote; for the
    six characters quote, a, backslash, n, b, quote the text is quote, a,
    b, quote.  A string that is not closed before the end of the stream
    makes [tokenize_next] return [None]; this is the case of every body
    without a quote character. *)
Theorem C7_string_literal_drops_escapes :
  first_token 16 Src.escaped_string
  = Some (Some 4, String DQUOTE ("ab" ++ String DQUOTE EmptyString),
          INVALID)
  /\ (forall fuel p g out body,
         (List.length body < fuel)%nat ->
         exists r w',
           tokenize_next fuel (source_world p (DQUOTE :: body) g out)
           = Ok r w' /\
           match string_text false body with
           | Some kept =>
               r = Some (Z.of_nat (List.length kept) + 2) /\
               token (t w')
               = string_of_list_ascii (DQUOTE :: kept ++ [DQUOTE])
           | None => r = None
           end)
  /\ (forall fuel p g out body,
         ~ In DQUOTE body ->
         (List.length body < fuel)%nat ->
         exists w',
           tokenize_next fuel (source_world p (DQUOTE :: body) g out)
           = Ok None w').
Proof.
  assert (General : forall fuel p g out body,
         (List.length body < fuel)%nat ->
         exists r w',
           tokenize_next fuel (source_world p (DQUOTE :: body) g out)
           = Ok r w' /\
           match string_text false body with
           | Some kept =>
               r = Some (Z.of_nat (List.length kept) + 2) /\
               token (t w')
               = string_of_list_ascii (DQUOTE :: kept ++ [DQUOTE])
           | None => r = None
           end).
  { intros fuel p g out body Hfuel.
    destruct (create_stream p (DQUOTE :: body) g out) as (B0 & P0).
    set (w0 := source_world _ _ _ _) in *.
    unfold tokenize_next.
    rewrite (bind_ok get_t _ w0 (t w0) w0 eq_refl).
    change (hasnext (t w0)) with 0. cbn [Z.eqb negb].
    unfold tokenize_next_internal.
    unfold set_type at 1. unfold bind at 1, upd_t at 1.
    unfold bind at 1, upd_t at 1.
    set (w1 := mkWorld _ _ _).
    assert (B1 : buffer_ok (t w1)) by exact B0.
    assert (P1 : pending (t w1) = DQUOTE :: body) by exact P0.
    destruct (next_char_step w1 _ B1 P1) as (w2 & E2 & S2 & T2 & F2).
    rewrite (bind_ok _ _ _ _ _ E2). cbn [hd_error].
    destruct fuel as [|n]; [simpl in Hfuel; lia|].
    rewrite (bind_ok _ _ _ _ _ (skip_space_nonspace n DQUOTE w2 eq_refl)).
    change ((DQUOTE =? SQUOTE)%char) with false.
    change ((DQUOTE =? DQUOTE)%char) with true. cbv iota.
    unfold bind at 1, upd_t at 1.
    unfold add_char_to_token at 1. unfold bind at 1, upd_t at 1.
    set (w3 := mkWorld _ _ _).
    assert (S3 : at_stream (Some DQUOTE) w3 (DQUOTE :: body))
      by same_stream S2.
    destruct S3 as (B3 & _ & P3). cbn [tl] in P3.
    destruct (string_literal_spec body (S n) w3 1 false B3 P3 Hfuel)
      as (w4 & E4 & T4 & F4).
    rewrite E4. eexists. exists w4. split; [reflexivity|].
    destruct (string_text false body) as [kept|]; cbn [option_map];
      [|reflexivity].
    split; [f_equal; lia|].
    rewrite (T4 kept eq_refl). unfold w3. simpl. rewrite T2. reflexivity. }
  split; [vm_compute; reflexivity|]. split; [exact General|].
  intros fuel p g out body Hin Hfuel.
  destruct (General fuel p g out body Hfuel) as (r & w' & E & Hr).
  rewrite (string_text_no_quote body Hin false) in Hr. subst r.
  now exists w'.
Qed.

(** The opening quote followed by a, backslash, n, b and the end of the
    stream. *)
Lemma C7_string_literal_witness :
  exists w',
    tokenize_next 8
      (source_world "input.lcm" (DQUOTE :: Py.chars "a\nb") create_lcmgen [])
    = Ok None w'.
Proof.
  apply (proj2 (proj2 C7_string_literal_drops_escapes)).
  - simpl. intros [H|[H|[H|[H|[]]]]]; discriminate.
  - simpl. lia.
Defined.

(** ** An operator run at the end of the file *)

Section OperatorAtEnd.

Lemma operator_in x : is_operator x -> In x OPERATOR_CHARS.
Proof.
  unfold is_operator, Py.chr_in. intros H.
  apply existsb_exists in H. destruct H as (y & Hy & E).
  apply Ascii.eqb_eq in E. now subst.
Qed.

(** An operator character starts neither white space nor a literal. *)
Lemma operator_plain x :
  is_operator x ->
  Py.isspace x = false /\ Ascii.eqb x SQUOTE = false
  /\ Ascii.eqb x DQUOTE = false.
Proof.
  intros H. apply operator_in in H. simpl in H.
  repeat (destruct H as [<-|H]; [repeat split; reflexivity|]).
  contradiction.
Qed.

(** [unget] puts [current_char] back in front of the stream. *)
Lemma unget_pending tk :
  unget_char tk = None ->
  pending
    (set_unget_column (current_column tk)
       (set_unget_line (current_line tk)
          (set_unget_char (current_char tk) tk)))
  = (match current_char tk with Some c => [c] | None => [] end
     ++ pending tk)%list.
Proof. unfold pending, buffered. simpl. now intros ->. Qed.

Lemma last_cons {A} (l : list A) : forall a d,
  last (a :: l) d = last l a.
Proof.
  induction l as [|b l IH]; intros a d; [reflexivity|].
  change (last (a :: b :: l) d) with (last (b :: l) d).
  now rewrite !IH.
Qed.

(** An operator run that reaches the end of the stream: the last
    character stays in [current_char]. *)
Lemma operator_run_to_eof : forall l n c0 w pos,
  buffer_ok (t w) -> pending (t w) = l ->
  current_char (t w) = Some c0 ->
  Forall is_operator (c0 :: l) ->
  (List.length l + 1 < n)%nat ->
  exists w',
    operator_run n (Some c0) pos w
    = Ok (pos + 1 + Z.of_nat (List.length l)) w' /\
    buffer_ok (t w') /\ pending (t w') = [] /\
    unget_char (t w') = None /\
    current_char (t w') = Some (last l c0) /\
    token (t w') = token (t w) ++ string_of_list_ascii (c0 :: l) /\
    rest_frame w' = rest_frame w.
Proof.
  induction l as [|a l IH]; intros n c0 w pos B P C Hops Hn;
    destruct n as [|n]; simpl in Hn; try lia;
    inversion Hops as [|? ? Hc0 Hl]; subst;
    cbn [operator_run]; rewrite Hc0;
    unfold add_char_to_token at 1; unfold bind at 1; unfold upd_t at 1;
    set (w0 := mkWorld _ _ _);
    assert (B0 : buffer_ok (t w0))
      by (eapply stream_buffer_ok; [|exact B]; reflexivity);
    assert (P0 : pending (t w0) = pending (t w))
      by (apply stream_pending; reflexivity);
    destruct (next_char_spec w0 B0) as (w1 & E1 & B1 & P1 & U1 & F1 & C1);
    rewrite P0 in E1, P1, C1; rewrite P in E1, P1, C1;
    rewrite (bind_ok _ _ _ _ _ E1); cbn [hd_error];
    pose proof (f_equal fst F1) as Ft; pose proof (f_equal snd F1) as Fr;
    cbn [fst snd] in Ft, Fr.
  - destruct n as [|n]; [lia|]. cbn [operator_run]. unfold ret.
    exists w1. cbn [tl] in P1. cbn [List.length last].
    repeat (split; [first [reflexivity | assumption | idtac] |]).
    + f_equal. lia.
    + rewrite C1. exact C.
    + rewrite Fr. reflexivity.
  - cbn [tl] in P1.
    destruct (IH n a w1 (pos + 1) B1 P1 C1 Hl ltac:(lia))
      as (w' & E & B' & P' & U' & C' & T' & F').
    exists w'. rewrite E.
    repeat (split; [first [reflexivity | assumption | idtac] |]).
    + f_equal. cbn [List.length]. lia.
    + rewrite C'. now rewrite last_cons.
    + rewrite T', Ft. unfold w0. simpl. apply append_char.
    + rewrite F', Fr. reflexivity.
Qed.

(** One call on a stream that consists of operator characters up to
    its end: the run is the token, and the lexer is left [stuck] on its
    last character. *)
Lemma operator_tail_call fuel w c0 l :
  buffer_ok (t w) -> hasnext (t w) = 0 -> pending (t w) = c0 :: l ->
  Forall is_operator (c0 :: l) ->
  (List.length l + 1 < fuel)%nat ->
  exists w',
    tokenize_next fuel w = Ok (Some (1 + Z.of_nat (List.length l))) w' /\
    token (t w') = string_of_list_ascii (c0 :: l) /\
    stuck (last l c0) w'.
Proof.
  intros B H P Hops Hfuel.
  assert (Hc0 : is_operator c0) by now inversion Hops.
  destruct (operator_plain c0 Hc0) as (Hsp & Hsq & Hdq).
  unfold tokenize_next.
  rewrite (bind_ok get_t _ w (t w) w eq_refl).
  rewrite H. cbn [Z.eqb negb].
  unfold tokenize_next_internal.
  unfold set_type at 1. unfold bind at 1, upd_t at 1.
  unfold bind at 1, upd_t at 1.
  set (w1 := mkWorld _ _ _).
  assert (B1 : buffer_ok (t w1))
    by (eapply stream_buffer_ok; [|exact B]; reflexivity).
  assert (P1 : pending (t w1) = pending (t w))
    by (apply stream_pending; reflexivity).
  destruct (next_char_spec w1 B1) as (w2 & E2 & B2 & P2 & U2 & F2 & C2).
  rewrite P1 in E2, P2, C2. rewrite P in E2, P2, C2.
  cbn [hd_error tl] in E2, P2.
  rewrite (bind_ok _ _ _ _ _ E2).
  destruct fuel as [|n]; [lia|].
  rewrite (bind_ok _ _ _ _ _ (skip_space_nonspace n c0 w2 Hsp)).
  unfold bind at 1, upd_t at 1.
  rewrite Hsq, Hdq, Hc0.
  unfold set_type at 1. unfold bind at 1, upd_t at 1.
  set (w3 := mkWorld _ _ _).
  assert (B3 : buffer_ok (t w3))
    by (eapply stream_buffer_ok; [|exact B2]; reflexivity).
  assert (P3 : pending (t w3) = l)
    by (rewrite <- P2; apply stream_pending; reflexivity).
  assert (C3 : current_char (t w3) = Some c0) by exact C2.
  destruct (operator_run_to_eof l (S n) c0 w3 0 B3 P3 C3 Hops Hfuel)
    as (w4 & E4 & B4 & P4 & U4 & C4 & T4 & F4).
  rewrite (bind_ok _ _ _ _ _ E4).
  unfold bind, unget, upd_t, ret. eexists. split; [reflexivity|].
  pose proof (f_equal fst F2) as Ft2. pose proof (f_equal snd F2) as Fr2.
  cbn [fst snd] in Ft2, Fr2.
  split.
  - cbn [t token set_unget_column set_unget_line set_unget_char].
    rewrite T4. unfold w3. cbn [t token set_token_type set_token_column
                                  set_token_line].
    rewrite Ft2. reflexivity.
  - unfold stuck. cbn [t]. split; [|split].
    + exact B4.
    + rewrite unget_pending by exact U4. rewrite C4, P4. reflexivity.
    + unfold rest_frame in *.
      cbn [hasnext set_unget_column set_unget_line set_unget_char].
      assert (H4 : hasnext (t w4) = hasnext (t w3)) by congruence.
      assert (H2 : hasnext (t w2) = hasnext (t w1)) by congruence.
      rewrite H4. change (hasnext (t w3)) with (hasnext (t w2)).
      rewrite H2. exact H.
Qed.

(** From then on every call returns the last character again. *)
Lemma operator_forever fuel x : forall n w c0 l,
  buffer_ok (t w) -> hasnext (t w) = 0 -> pending (t w) = c0 :: l ->
  Forall is_operator (c0 :: l) -> last l c0 = x ->
  (List.length l + 1 < fuel)%nat ->
  exists r w',
    nth_token fuel n w = Ok (Some r) w' /\
    token (t w')
    = string_of_list_ascii (match n with O => c0 :: l | S _ => [x] end).
Proof.
  induction n as [|n IH]; intros w c0 l B H P Hops Hlast Hfuel;
    destruct (operator_tail_call fuel w c0 l B H P Hops Hfuel)
      as (w1 & E1 & T1 & (B1 & P1 & H1)).
  - cbn [nth_token]. eauto.
  - cbn [nth_token]. rewrite (bind_ok _ _ _ _ _ E1).
    rewrite Hlast in P1.
    assert (Hx : Forall is_operator [x]).
    { constructor; [|constructor]. rewrite <- Hlast.
      clear - Hops. revert c0 Hops.
      induction l as [|a l IHl]; intros c0 Hops;
        inversion Hops; subst; [assumption|].
      rewrite last_cons. now apply IHl. }
    destruct (IH w1 x [] B1 H1 P1 Hx eq_refl ltac:(simpl; lia))
      as (r & w' & E & T').
    exists r, w'. split; [exact E|].
    rewrite T'. now destruct n.
Qed.

End OperatorAtEnd.

(** C4 (the code departs from the claim): when the input consists of
    operator characters up to its very end, with no trailing newline, no
    call of [tokenize_next] ever returns [None]: the first call returns
    the run, and every later call returns the last operator character [x]
    once more, because [unget] after the end of the stream pushes back the
    character that is still in [current_char]. *)
Theorem C4_operator_at_end_of_file_repeats :
  forall fuel p g out ops x n,
    Forall is_operator ops -> is_operator x ->
    (List.length ops + 1 < fuel)%nat ->
    exists r w',
      nth_token fuel n (source_world p (ops ++ [x]) g out)
      = Ok (Some r) w' /\
      token (t w')
      = string_of_list_ascii
          (match n with O => ops ++ [x] | S _ => [x] end)%list.
Proof.
  intros fuel p g out ops x n Hops Hx Hfuel.
  destruct (create_stream p (ops ++ [x]) g out) as (B & P).
  assert (Hall : Forall is_operator (ops ++ [x])).
  { apply Forall_app. split; [assumption|]. now constructor. }
  destruct ops as [|c0 l].
  - apply (operator_forever fuel x n _ x [] B eq_refl P Hall eq_refl).
    simpl. simpl in Hfuel. lia.
  - apply (operator_forever fuel x n _ c0 (l ++ [x]) B eq_refl P Hall).
    + apply last_last.
    + rewrite length_app. simpl in *. lia.
Qed.

(** The file that holds the single character [+]: the seventh call still
    returns the token [+]. *)
Lemma C4_operator_at_end_witness :
  exists r w',
    nth_token 2 6 (source_world "input.lcm" ["+"%char] create_lcmgen [])
    = Ok (Some r) w' /\
    token (t w') = "+".
Proof.
  apply (C4_operator_at_end_of_file_repeats
           2 "input.lcm" create_lcmgen [] [] "+"%char 6).
  - constructor.
  - reflexivity.
  - simpl. lia.
Defined.

(** With a bound of fewer than two iterations the token [+] cannot be
    read at all. *)
Lemma plus_needs_two_iterations fuel w :
  (fuel <= 1)%nat ->
  buffer_ok (t w) -> hasnext (t w) = 0 -> pending (t w) = ["+"%char] ->
  tokenize_next fuel w = OutOfFuel.
Proof.
  intros Hsmall B H P.
  unfold tokenize_next. rewrite (bind_ok get_t _ w (t w) w eq_refl).
  rewrite H. cbn [Z.eqb negb]. unfold tokenize_next_internal.
  unfold set_type at 1. unfold bind at 1, upd_t at 1.
  unfold bind at 1, upd_t at 1.
  set (w1 := mkWorld _ _ _).
  assert (B1 : buffer_ok (t w1))
    by (eapply stream_buffer_ok; [|exact B]; reflexivity).
  assert (P1 : pending (t w1) = ["+"%char])
    by (rewrite <- P; apply stream_pending; reflexivity).
  destruct (next_char_spec w1 B1) as (w2 & E2 & B2 & P2 & U2 & F2 & C2).
  rewrite P1 in E2, P2, C2. cbn [hd_error tl] in E2, P2.
  rewrite (bind_ok _ _ _ _ _ E2).
  destruct fuel as [|[|k]]; [reflexivity| |lia].
  rewrite (bind_ok _ _ _ _ _ (skip_space_nonspace 0 "+"%char w2 eq_refl)).
  unfold bind at 1, upd_t at 1.
  change (("+" =? SQUOTE)%char) with false.
  change (("+" =? DQUOTE)%char) with false.
  change (Py.chr_in "+" OPERATOR_CHARS) with true. cbv iota.
  unfold set_type at 1. unfold bind at 1, upd_t at 1.
  cbn [operator_run].
  change (Py.chr_in "+" OPERATOR_CHARS) with true. cbv iota.
  unfold add_char_to_token at 1.
  unfold bind at 1. unfold bind at 1. unfold upd_t at 1.
  set (w3 := mkWorld _ _ _).
  assert (B3 : buffer_ok (t w3))
    by (eapply stream_buffer_ok; [|exact B2]; reflexivity).
  destruct (next_char_spec w3 B3) as (w4 & E4 & _).
  unfold bind at 1. rewrite E4. reflexivity.
Qed.

(** In the token listing of [handle_file] the same input uses up every
    bound on the number of loop iterations. *)
Lemma token_listing_unbounded : forall fuel,
  main fuel [("plus.lcm", "+")] ["plus.lcm"] true = Unbounded.
Proof.
  intros fuel. unfold main, handle_files, handle_file. simpl dict_get.
  cbv iota.
  enough (E : forall n ntok w,
             buffer_ok (t w) -> hasnext (t w) = 0 ->
             pending (t w) = ["+"%char] ->
             dump_tokens fuel n ntok w = OutOfFuel).
  { unfold handle_open_file. unfold bind, get_lcmgen, print. simpl.
    rewrite E; try reflexivity.
    unfold buffer_ok. simpl. split; [lia|]. left. split; reflexivity. }
  assert (Hplus : Forall is_operator ["+"%char])
    by (constructor; [reflexivity|constructor]).
  induction n as [|n IH]; intros ntok w B H P; [reflexivity|].
  cbn [dump_tokens].
  destruct (Nat.le_gt_cases fuel 1) as [Hsmall|Hbig].
  - unfold bind at 1.
    now rewrite (plus_needs_two_iterations fuel w Hsmall B H P).
  - destruct (operator_tail_call fuel w "+"%char [] B H P Hplus
                                 ltac:(simpl; lia))
      as (w1 & E1 & T1 & (B1 & P1 & H1)).
    rewrite (bind_ok _ _ _ _ _ E1).
    rewrite (bind_ok get_t _ w1 (t w1) w1 eq_refl).
    unfold print at 1. unfold bind at 1.
    apply IH; assumption.
Qed.

(** ** Whole files *)

(** C8: array-dimension names are looked up among the members and
    constants already in the struct being parsed.  [struct S { int32_t n;
    double data[n]; }] parses, and the single dimension of [data] is in
    [VAR] mode with size text [n]; [struct S { double data[n]; int32_t n;
    }] stops with the semantic error that [n] is unknown, exit status 1. *)
Theorem C8_dimension_names_declared_before_use :
  (exists g,
      compile 64 Src.dim_after_size = Done true g []
      /\ member_table g
         = [[("int32_t", "n", []);
             ("double", "data", [mkDimension VAR "n"])]])
  /\ compile 64 Src.dim_before_size
     = Stopped 1 create_lcmgen
         [EmptyString;
          line "Unknown array size argument 'n'."
          ++ "Size arguments must be declared before the array.";
          "S.lcm : 1";
          Src.dim_before_size].
Proof.
  split; [eexists; split|]; vm_compute; reflexivity.
Qed.

(** C9: integer constants are checked against the signed range of their
    type.  [const int8_t k = 200;] stops with the semantic error that the
    value is out of bounds, [const int8_t k = 100;] appends a constant
    with value text [100]; the bounds table holds the two's-complement
    ranges of the four integer types. *)
Theorem C9_integer_constants_range_checked :
  INT_TYPES
  = [("int8_t", (-128, 127));
     ("int16_t", (-32768, 32767));
     ("int32_t", (-2147483648, 2147483647));
     ("int64_t", (-9223372036854775808, 9223372036854775807))]
  /\ (forall v,
         int_in_type_bounds v "int8_t"
         = Some ((- 2 ^ 7 <=? v) && (v <=? 2 ^ 7 - 1))
         /\ int_in_type_bounds v "int16_t"
            = Some ((- 2 ^ 15 <=? v) && (v <=? 2 ^ 15 - 1))
         /\ int_in_type_bounds v "int32_t"
            = Some ((- 2 ^ 31 <=? v) && (v <=? 2 ^ 31 - 1))
         /\ int_in_type_bounds v "int64_t"
            = Some ((- 2 ^ 63 <=? v) && (v <=? 2 ^ 63 - 1)))
  /\ compile 64 Src.const_200
     = Stopped 1 create_lcmgen
         [EmptyString;
          "Integer value out of bounds for int8_t.";
          "S.lcm : 1";
          Src.const_200]
  /\ (exists g,
         compile 64 Src.const_100 = Done true g []
         /\ map constants (lcmgen_structs g)
            = [[mkConstant "int8_t" "k" "100" None]]).
Proof.
  split; [reflexivity|].
  split; [intros v; repeat split; reflexivity|].
  split; [|eexists; split]; vm_compute; reflexivity.
Qed.

(** C10: a member is in the member list before its own dimensions are
    resolved.  [int32_t n[n];] is accepted and gives the member [n] one
    [VAR] dimension with size text [n]; a second [[n]] on the same member
    stops with a semantic error, because [n] has a dimension by then. *)
Theorem C10_member_visible_to_its_own_dimensions :
  (exists g,
      compile 64 Src.self_dim = Done true g []
      /\ member_table g = [[("int32_t", "n", [mkDimension VAR "n"])]])
  /\ compile 64 Src.self_dim_twice
     = Stopped 1 create_lcmgen
         [EmptyString;
          "Array dimension 'n' must be a scalar integer type.";
          "S.lcm : 1";
          Src.self_dim_twice].
Proof.
  split; [eexists; split|]; vm_compute; reflexivity.
Qed.

(** ** Duplicate structs *)

Lemma sequel_returns_true {A} (m : M A) w a w' :
  (m ;; ret true)%monad w = Ok a w' -> a = true.
Proof.
  unfold bind, ret. destruct (m w); intros H; inversion H. reflexivity.
Qed.

(** Once the file is open, [handle_file] has no way to report a failure
    to its caller. *)
Lemma handle_file_opened_reports_success fuel fs g out path src g' out' :
  dict_get fs path = Some src ->
  handle_file fuel fs g out path <> Done false g' out'.
Proof.
  intros Hopen. unfold handle_file. rewrite Hopen.
  destruct (handle_open_file fuel path _) as [a w| | |] eqn:E;
    try discriminate.
  assert (a = true) as ->; [|discriminate].
  unfold handle_open_file in E. unfold bind at 1 in E.
  unfold get_lcmgen in E. cbv beta iota in E.
  destruct (tokenize (gopt _)) as [[|]|].
  - unfold bind at 1 in E. unfold print at 1 in E. cbv beta iota in E.
    eapply sequel_returns_true, E.
  - eapply sequel_returns_true, E.
  - eapply sequel_returns_true, E.
Qed.

(** C3 (the code departs from the claim): [a.lcm] and [b.lcm] declare the
    struct [point_t].  The duplicate is reported with both file names and
    is not appended to the struct list, but [handle_file] returns [True]
    for [b.lcm], so [main] goes on to [c.lcm] and ends normally, with
    exit status 0. *)
Theorem C3_duplicate_struct_does_not_stop_the_run :
  exists g,
    main 64 Src.duplicate_files ["a.lcm"; "b.lcm"; "c.lcm"] false
    = Done tt g
        [line "ERROR: Duplicate type 'point_t declared in b.lcm. "
         ++ "       It was previously declared in a.lcm."]
    /\ struct_table g = [("point_t", "a.lcm"); ("pose_t", "c.lcm")].
Proof.
  eexists. split; vm_compute; reflexivity.
Qed.

(** ** What a computation can leave in the compiler state *)

Section Post.

Lemma postg_conseq {A} (m : M A) g0 (Q Q' : A -> Lcmgen -> Prop) :
  postg m g0 Q -> (forall a g, Q a g -> Q' a g) -> postg m g0 Q'.
Proof. intros H HQ w a w' Hg E. apply HQ. eapply H; eauto. Qed.

Lemma postg_ret {A} (a : A) g0 (Q : A -> Lcmgen -> Prop) :
  Q a g0 -> postg (ret a) g0 Q.
Proof. intros H w b w' Hg E. inversion E; subst. exact H. Qed.

Lemma postg_bind {A B} (m : M A) (k : A -> M B) g0
      (Q : B -> Lcmgen -> Prop) :
  postg m g0 (fun a g1 => postg (k a) g1 Q) -> postg (bind m k) g0 Q.
Proof.
  intros H w b w' Hg E. unfold bind in E.
  destruct (m w) as [a w1| | |] eqn:Em; try discriminate.
  exact (H w a w1 Hg Em w1 b w' eq_refl E).
Qed.

Lemma postg_get_t g0 (Q : Tokenize -> Lcmgen -> Prop) :
  (forall tk, Q tk g0) -> postg get_t g0 Q.
Proof. intros H w a w' Hg E. inversion E; subst. apply H. Qed.

Lemma postg_get_lcmgen g0 (Q : Lcmgen -> Lcmgen -> Prop) :
  Q g0 g0 -> postg get_lcmgen g0 Q.
Proof. intros H w a w' Hg E. inversion E; subst. exact H. Qed.

Lemma postg_upd_t f g0 (Q : unit -> Lcmgen -> Prop) :
  Q tt g0 -> postg (upd_t f) g0 Q.
Proof. intros H w a w' Hg E. inversion E; subst. exact H. Qed.

Lemma postg_upd_lcmgen f g0 (Q : unit -> Lcmgen -> Prop) :
  Q tt (f g0) -> postg (upd_lcmgen f) g0 Q.
Proof. intros H w a w' Hg E. inversion E; subst. exact H. Qed.

Lemma postg_print s g0 (Q : unit -> Lcmgen -> Prop) :
  Q tt g0 -> postg (print s) g0 Q.
Proof. intros H w a w' Hg E. inversion E; subst. exact H. Qed.

Lemma postg_sys_exit {A} c g0 (Q : A -> Lcmgen -> Prop) :
  postg (sys_exit c) g0 Q.
Proof. intros w a w' Hg E. discriminate. Qed.

Lemma postg_raise {A} e g0 (Q : A -> Lcmgen -> Prop) :
  postg (raise e) g0 Q.
Proof. intros w a w' Hg E. discriminate. Qed.

Lemma postg_out_of_fuel {A} g0 (Q : A -> Lcmgen -> Prop) :
  postg out_of_fuel g0 Q.
Proof. intros w a w' Hg E. discriminate. Qed.

(** The two error reports end in [sys.exit]: they never return. *)
Lemma postg_semantic_error {A} msg g0 (Q : A -> Lcmgen -> Prop) :
  postg (semantic_error msg) g0 Q.
Proof. intros w a w' Hg E. discriminate. Qed.

Lemma postg_parse_error {A} msg g0 (Q : A -> Lcmgen -> Prop) :
  postg (parse_error msg) g0 Q.
Proof. intros w a w' Hg E. discriminate. Qed.

Lemma postg_when b m g0 (Q : unit -> Lcmgen -> Prop) :
  (b = true -> postg m g0 Q) -> (b = false -> Q tt g0) ->
  postg (when b m) g0 Q.
Proof.
  intros Ht Hf. destruct b; simpl; [now apply Ht|].
  apply postg_ret. now apply Hf.
Qed.

Lemma postg_lexical {A} (m : M A) g0 (Q : A -> Lcmgen -> Prop) :
  lexical m -> (forall a, Q a g0) -> postg m g0 Q.
Proof.
  intros L H w a w' Hg E. rewrite (L g0 w a w' Hg E). apply H.
Qed.

Lemma postg_keeps_model {A} (m : M A) g0 (Q : A -> Lcmgen -> Prop) :
  keeps_model m -> (forall a g, model g = model g0 -> Q a g) ->
  postg m g0 Q.
Proof. intros K H w a w' Hg E. apply H. exact (K g0 w a w' Hg E). Qed.

Lemma lexical_keeps_model {A} (m : M A) : lexical m -> keeps_model m.
Proof.
  intros L g0 w a w' Hg E. now rewrite (L g0 w a w' Hg E).
Qed.

End Post.

Create HintDb lexical.

Ltac post_basic :=
  match goal with
  | |- postg (bind _ _) _ _ => apply postg_bind
  | |- postg (ret _) _ _ => apply postg_ret
  | |- postg get_t _ _ => apply postg_get_t; intros
  | |- postg get_lcmgen _ _ => apply postg_get_lcmgen
  | |- postg (upd_t _) _ _ => apply postg_upd_t
  | |- postg (print _) _ _ => apply postg_print
  | |- postg (raise _) _ _ => apply postg_raise
  | |- postg (sys_exit _) _ _ => apply postg_sys_exit
  | |- postg out_of_fuel _ _ => apply postg_out_of_fuel
  | |- postg (semantic_error _) _ _ => apply postg_semantic_error
  | |- postg (parse_error _) _ _ => apply postg_parse_error
  | |- postg (match ?x with _ => _ end) _ _ => destruct x
  end.

(** Goals [lexical m]: every step either is a basic operation or has its
    own lemma in the hint database. *)
Ltac lex :=
  repeat
    first
      [ post_basic
      | match goal with
        | |- lexical _ => intros ?
        | |- forall _, _ => intros
        | |- @eq Lcmgen _ _ => reflexivity
        | |- postg _ _ _ =>
            apply postg_lexical; [solve [auto with lexical]|]
        end ].

Section LexerFrame.

Lemma lexical_next_char : lexical next_char.
Proof. unfold next_char. lex. Qed.

Lemma lexical_unget : lexical unget.
Proof. unfold unget. lex. Qed.

Lemma lexical_add_char_to_token c : lexical (add_char_to_token c).
Proof. unfold add_char_to_token. lex. Qed.

Lemma lexical_set_type ty : lexical (set_type ty).
Proof. unfold set_type. lex. Qed.

Hint Resolve lexical_next_char lexical_unget lexical_add_char_to_token
  lexical_set_type : lexical.

Lemma lexical_flush_line_loop n : forall c, lexical (flush_line_loop n c).
Proof. induction n; intros c; simpl; lex. Qed.

Lemma lexical_comment_leading_space n :
  forall pos, lexical (comment_leading_space n pos).
Proof. induction n; intros pos; simpl; lex. Qed.

Lemma lexical_comment_asterisks n :
  forall c pos got, lexical (comment_asterisks n c pos got).
Proof. induction n; intros c pos got; simpl; lex. Qed.

Lemma lexical_comment_rest_of_line n :
  forall c pos, lexical (comment_rest_of_line n c pos).
Proof. induction n; intros c pos; simpl; lex. Qed.

Hint Resolve lexical_flush_line_loop lexical_comment_leading_space
  lexical_comment_asterisks lexical_comment_rest_of_line : lexical.

Lemma lexical_comment_lines fuel n :
  forall pos, lexical (comment_lines fuel n pos).
Proof. induction n; intros pos; simpl; lex. Qed.

Hint Resolve lexical_comment_lines : lexical.

Lemma lexical_tokenize_extended_comment fuel :
  lexical (tokenize_extended_comment fuel).
Proof. unfold tokenize_extended_comment. lex. Qed.

Lemma lexical_skip_space n : forall c, lexical (skip_space n c).
Proof. induction n; intros c; simpl; lex. Qed.

Lemma lexical_string_literal n :
  forall pos esc, lexical (string_literal n pos esc).
Proof. induction n; intros pos esc; simpl; lex. Qed.

Lemma lexical_operator_run n : forall c pos, lexical (operator_run n c pos).
Proof. induction n; intros c pos; simpl; lex. Qed.

Lemma lexical_skip_char n : forall x c, lexical (skip_char n x c).
Proof. induction n; intros x c; simpl; lex. Qed.

Lemma lexical_line_comment_text n :
  forall c pos, lexical (line_comment_text n c pos).
Proof. induction n; intros c pos; simpl; lex. Qed.

Lemma lexical_blob n : forall c pos, lexical (blob n c pos).
Proof. induction n; intros c pos; simpl; lex. Qed.

Hint Resolve lexical_tokenize_extended_comment lexical_skip_space
  lexical_string_literal lexical_operator_run lexical_skip_char
  lexical_line_comment_text lexical_blob : lexical.

Lemma lexical_tokenize_next_internal fuel :
  lexical (tokenize_next_internal fuel).
Proof. unfold tokenize_next_internal. lex. Qed.

Hint Resolve lexical_tokenize_next_internal : lexical.

Lemma lexical_tokenize_next fuel : lexical (tokenize_next fuel).
Proof. unfold tokenize_next. lex. Qed.

Hint Resolve lexical_tokenize_next : lexical.

Lemma lexical_tokenize_peek fuel : lexical (tokenize_peek fuel).
Proof. unfold tokenize_peek. lex. Qed.

End LexerFrame.

#[export] Hint Resolve lexical_next_char lexical_unget
  lexical_add_char_to_token lexical_set_type lexical_tokenize_next
  lexical_tokenize_peek : lexical.

(** ** The parser and the struct under construction *)

Create HintDb keeps.

Ltac model_eq :=
  first
    [ congruence
    | unfold model in *; simpl in *;
      repeat match goal with
             | H : (_, _) = (_, _) |- _ => inversion H; clear H
             end;
      congruence ].

(** Goals [keeps_model m]. *)
Ltac km :=
  repeat
    first
      [ post_basic
      | match goal with
        | |- keeps_model _ => intros ?
        | |- forall _, _ => intros
        | |- postg (upd_lcmgen _) _ _ => apply postg_upd_lcmgen
        | |- postg (upd_cache _) _ _ =>
            unfold upd_cache; apply postg_upd_lcmgen
        | |- postg (when _ _) _ _ => apply postg_when
        | |- model _ = model _ => solve [model_eq]
        | |- postg _ _ _ =>
            apply postg_keeps_model;
            [solve [auto using lexical_keeps_model with lexical keeps]|]
        end ].

Section ParserFrame.

Variable fuel : nat.

Lemma keeps_take_comment_doc : keeps_model take_comment_doc.
Proof. unfold take_comment_doc. km. Qed.

Lemma keeps_legal_member_name s : keeps_model (legal_member_name s).
Proof. unfold legal_member_name. km. Qed.

Lemma keeps_semantic_warning msg : keeps_model (semantic_warning msg).
Proof. unfold semantic_warning. km. Qed.

Lemma keeps_upd_cache f : keeps_model (upd_cache f).
Proof. km. Qed.

Lemma keeps_when b (m : M unit) : keeps_model m -> keeps_model (when b m).
Proof. intros K. unfold when. destruct b; [exact K|km]. Qed.

Hint Resolve keeps_take_comment_doc keeps_legal_member_name
  keeps_semantic_warning keeps_upd_cache keeps_when : keeps.

Lemma keeps_consume_comments n :
  forall store, keeps_model (consume_comments fuel n store).
Proof. induction n; intros store; simpl; km. Qed.

Hint Resolve keeps_consume_comments : keeps.

Lemma keeps_parse_try_consume_comment a b :
  keeps_model (parse_try_consume_comment fuel a b).
Proof. unfold parse_try_consume_comment. km. Qed.

Hint Resolve keeps_parse_try_consume_comment : keeps.

Lemma keeps_parse_try_consume tok :
  keeps_model (parse_try_consume fuel tok).
Proof. unfold parse_try_consume. km. Qed.

Lemma keeps_skip_comment_tokens n :
  forall res, keeps_model (skip_comment_tokens fuel n res).
Proof. induction n; intros res; simpl; km. Qed.

Hint Resolve keeps_parse_try_consume keeps_skip_comment_tokens : keeps.

Lemma keeps_parse_require tok : keeps_model (parse_require fuel tok).
Proof. unfold parse_require. km. Qed.

Lemma keeps_tokenize_next_or_fail d :
  keeps_model (tokenize_next_or_fail fuel d).
Proof. unfold tokenize_next_or_fail. km. Qed.

End ParserFrame.

#[export] Hint Resolve keeps_take_comment_doc keeps_legal_member_name
  keeps_semantic_warning keeps_upd_cache keeps_when keeps_consume_comments
  keeps_parse_try_consume_comment keeps_parse_try_consume
  keeps_skip_comment_tokens keeps_parse_require
  keeps_tokenize_next_or_fail : keeps.

Section StructInvariant.

Lemma find_member_none s name :
  find_member s name = None -> ~ In name (map membername (members s)).
Proof.
  unfold find_member. intros H Hin. apply in_map_iff in Hin.
  destruct Hin as (m & <- & Hm).
  pose proof (find_none _ _ H m Hm) as E. simpl in E.
  now rewrite String.eqb_refl in E.
Qed.

Lemma find_const_none s name :
  find_const s name = None ->
  ~ In name (map const_membername (constants s)).
Proof.
  unfold find_const. intros H Hin. apply in_map_iff in Hin.
  destruct Hin as (c & <- & Hc).
  pose proof (find_none _ _ H c Hc) as E. simpl in E.
  now rewrite String.eqb_refl in E.
Qed.

Lemma find_member_some s name m :
  find_member s name = Some m -> In m (members s) /\ membername m = name.
Proof.
  unfold find_member. intros H. apply find_some in H.
  destruct H as (Hin & E). split; [exact Hin|]. now apply String.eqb_eq.
Qed.

Lemma find_const_some s name c :
  find_const s name = Some c ->
  In c (constants s) /\ const_membername c = name.
Proof.
  unfold find_const. intros H. apply find_some in H.
  destruct H as (Hin & E). split; [exact Hin|]. now apply String.eqb_eq.
Qed.

Lemma not_found_fresh s name :
  find_const s name = None -> find_member s name = None ->
  ~ In name (names s).
Proof.
  intros Hc Hm Hin. unfold names in Hin. apply in_app_or in Hin.
  destruct Hin; [now apply (find_member_none s name)|].
  now apply (find_const_none s name).
Qed.

Lemma NoDup_insert {A} (l1 l2 : list A) x :
  NoDup (l1 ++ l2) -> ~ In x (l1 ++ l2) -> NoDup ((l1 ++ [x]) ++ l2).
Proof.
  intros Hnd Hx. rewrite <- app_assoc. simpl.
  apply (NoDup_Add (Add_app x l1 l2)). split; assumption.
Qed.

Lemma NoDup_snoc {A} (l : list A) x :
  NoDup l -> ~ In x l -> NoDup (l ++ [x]).
Proof.
  intros Hnd Hx. rewrite <- (app_nil_r (l ++ [x])).
  apply NoDup_insert; rewrite app_nil_r; assumption.
Qed.

(** Dimensions stay right when the struct gets more members or
    constants. *)
Lemma dimension_ok_more ms cs ms' cs' d :
  (forall m, In m ms ->
             exists m', In m' ms' /\ membername m' = membername m
                        /\ type m' = type m) ->
  (forall c, In c cs -> In c cs') ->
  dimension_ok ms cs d -> dimension_ok ms' cs' d.
Proof.
  intros Hm Hc. unfold dimension_ok. destruct (mode d).
  - intros [H | (c & Hin & E)]; [now left | right].
    exists c. split; auto.
  - intros (m & Hin & En & Et). destruct (Hm m Hin) as (m' & Hin' & En' & Et').
    exists m'. split; [exact Hin'|]. split; congruence.
Qed.

Lemma append_dimension_names i d ms :
  map membername (append_dimension_at i d ms) = map membername ms.
Proof.
  revert i. induction ms as [|m ms IH]; intros [|i]; simpl; auto.
  now rewrite IH.
Qed.

Lemma append_dimension_keeps i d ms m :
  In m ms ->
  exists m', In m' (append_dimension_at i d ms)
             /\ membername m' = membername m /\ type m' = type m.
Proof.
  revert i. induction ms as [|a ms IH]; intros i Hin; [contradiction|].
  destruct Hin as [<- | Hin].
  - destruct i; simpl; eexists; (split; [left; reflexivity|]); auto.
  - destruct i as [|i]; simpl.
    + exists m. auto.
    + destruct (IH i Hin) as (m' & H1 & H2). exists m'. auto.
Qed.

(** After [append_dimension_at] every member has its old dimensions, and
    possibly [d] after them. *)
Lemma append_dimension_dims i d ms m' :
  In m' (append_dimension_at i d ms) ->
  exists m, In m ms /\
            (dimensions m' = dimensions m
             \/ dimensions m' = (dimensions m ++ [d])%list).
Proof.
  revert i. induction ms as [|a ms IH]; intros i Hin; [destruct i; contradiction|].
  destruct i as [|i]; simpl in Hin.
  - destruct Hin as [E | Hin].
    + exists a. split; [now left|]. right. now rewrite <- E.
    + exists m'. split; [now right|]. now left.
  - destruct Hin as [E | Hin].
    + exists a. split; [now left|]. left. now rewrite E.
    + destruct (IH i Hin) as (m & H1 & H2). exists m. split; [now right|auto].
Qed.

Lemma struct_ok_add_constant s c :
  struct_ok s -> ~ In (const_membername c) (names s) ->
  legal_name (const_membername c) -> constant_ok c ->
  struct_ok (set_constants (constants s ++ [c]) s).
Proof.
  intros (Hnd & Hleg & Hdim & Hcs & Hst) Hfresh Hl Hc.
  unfold struct_ok, names in *. simpl.
  rewrite map_app, app_assoc. simpl.
  split; [|split; [|split; [|split]]].
  - apply NoDup_snoc; assumption.
  - apply Forall_app. split; [assumption|]. now constructor.
  - eapply Forall_impl; [|exact Hdim]. intros m Hm.
    eapply Forall_impl; [|exact Hm]. intros d.
    apply dimension_ok_more.
    + intros m0 H0. exists m0. auto.
    + intros c0 H0. apply in_or_app. now left.
  - apply Forall_app. split; [assumption|]. now constructor.
  - assumption.
Qed.

Lemma struct_ok_add_member s ty name cm :
  struct_ok s -> ~ In name (names s) -> legal_name name ->
  struct_ok (set_members (members s ++ [mkMember ty name [] cm]) s).
Proof.
  intros (Hnd & Hleg & Hdim & Hcs & Hst) Hfresh Hl.
  unfold struct_ok, names in *. simpl.
  rewrite map_app. simpl.
  split; [|split; [|split; [|split]]].
  - apply NoDup_insert; assumption.
  - rewrite <- app_assoc. simpl.
    apply Forall_app. apply Forall_app in Hleg. destruct Hleg as (H1 & H2).
    split; [assumption|]. now constructor.
  - apply Forall_app. split; [|repeat constructor].
    eapply Forall_impl; [|exact Hdim]. intros m Hm.
    eapply Forall_impl; [|exact Hm]. intros d.
    apply dimension_ok_more; auto.
    intros m0 H0. exists m0. split; [apply in_or_app; now left|auto].
  - assumption.
  - assumption.
Qed.

Lemma struct_ok_add_dimension s i d :
  struct_ok s -> dimension_ok (members s) (constants s) d ->
  struct_ok (set_members (append_dimension_at i d (members s)) s).
Proof.
  intros (Hnd & Hleg & Hdim & Hcs & Hst) Hd.
  unfold struct_ok, names in *. simpl.
  rewrite append_dimension_names.
  split; [|split; [|split; [|split]]]; try assumption.
  apply Forall_forall. intros m' Hin'.
  destruct (append_dimension_dims i d _ m' Hin') as (m & Hin & Hdims).
  rewrite Forall_forall in Hdim. specialize (Hdim m Hin).
  assert (Hall : Forall (dimension_ok (members s) (constants s))
                        (dimensions m')).
  { destruct Hdims as [-> | ->]; [assumption|].
    apply Forall_app. split; [assumption|]. now constructor. }
  eapply Forall_impl; [|exact Hall]. intros d0.
  apply dimension_ok_more; auto.
  intros m0 H0. now apply append_dimension_keeps.
Qed.

Lemma struct_ok_create g p name : struct_ok (create_struct g p name).
Proof.
  unfold struct_ok, names. simpl. repeat split; constructor.
Qed.

End StructInvariant.

Section ParserInvariant.

Variable fuel : nat.

Lemma new_member_name_post s g0 :
  postg (new_member_name s) g0
        (fun name g => model g = model g0 /\ legal_name name
                       /\ ~ In name (names s)).
Proof.
  unfold new_member_name. apply postg_bind, postg_get_t. intros tk.
  apply postg_bind.
  unfold legal_member_name, legal_name.
  destruct (is_legal_member_name (token tk)) as [legal|] eqn:El;
    [apply postg_ret | apply postg_raise].
  apply postg_bind, postg_when; [intros; apply postg_parse_error|].
  intros Hlegal. apply negb_false_iff in Hlegal. subst legal.
  apply postg_bind, postg_when; [intros; apply postg_semantic_error|].
  intros Hnew. apply orb_false_iff in Hnew. destruct Hnew as (Hc & Hm).
  apply postg_ret. split; [reflexivity|]. split; [exact El|].
  apply not_found_fresh.
  - now destruct (find_const s (token tk)).
  - now destruct (find_member s (token tk)).
Qed.

(** A step that keeps the model, inside a longer computation. *)
Ltac keeps_step :=
  apply postg_bind; apply postg_keeps_model;
  [solve [auto using lexical_keeps_model with lexical keeps]
  |intros ? ? ?].

Tactic Notation "keeps_step" "as" simple_intropattern(a) :=
  apply postg_bind; apply postg_keeps_model;
  [solve [auto using lexical_keeps_model with lexical keeps]
  |intros a ? ?].

Ltac fails_when :=
  apply postg_bind, postg_when;
  [intros;
   match goal with
   | |- postg (semantic_error _) _ _ => apply postg_semantic_error
   | |- postg (parse_error _) _ _ => apply postg_parse_error
   end|].

Lemma resolve_dimension_post s size_arg g0 :
  postg (resolve_dimension s size_arg) g0
        (fun r g => model g = model g0
                    /\ dimension_ok (members s) (constants s)
                                    (mkDimension (fst r) (snd r))).
Proof.
  unfold resolve_dimension.
  destruct (Py.isdigit size_arg) eqn:Hdigit.
  - destruct (Py.int_of_digits size_arg) as [intval|] eqn:Hint;
      [|apply postg_raise].
    fails_when. intros Hpos. apply postg_ret. split; [reflexivity|].
    left. exists intval. simpl. repeat split; auto.
    apply Z.leb_gt in Hpos. exact Hpos.
  - keeps_step. fails_when. intros _.
    destruct (find_const s size_arg) as [dim_const|] eqn:Hc.
    + fails_when. intros _. apply postg_ret. split; [assumption|].
      right. exists dim_const. simpl.
      split; [apply (find_const_some _ _ _ Hc) | reflexivity].
    + destruct (find_member s size_arg) as [dim_var|] eqn:Hm;
        [|apply postg_semantic_error].
      fails_when. intros Hscalar. apply postg_ret. split; [assumption|].
      apply orb_false_iff in Hscalar. destruct Hscalar as (_ & Hty).
      apply negb_false_iff in Hty.
      destruct (find_member_some _ _ _ Hm) as (Hin & Hname).
      exists dim_var. simpl. auto.
Qed.

Lemma another_constant_post ty s g0 :
  Py.str_in ty CONST_TYPES = true -> struct_ok s ->
  postg (another_constant fuel ty s) g0 (body_post s g0).
Proof.
  intros Hty Hs. unfold another_constant.
  keeps_step. keeps_step.
  apply postg_bind.
  eapply postg_conseq; [apply new_member_name_post|].
  intros membername g2 (Hg2 & Hlegal & Hfresh).
  keeps_step. keeps_step. keeps_step. keeps_step as comment.
  apply postg_bind, postg_get_t. intros tk.
  apply postg_bind.
  apply postg_conseq with
    (Q := fun _ g' =>
            model g' = model g0
            /\ constant_ok
                 (mkConstant ty membername (token tk) comment)).
  - unfold constant_ok. cbn [typename val_str].
    destruct (dict_get INT_TYPES ty) as [bounds|] eqn:Hb;
      cbn [is_some].
    + destruct (Py.int_base0 (token tk)) as [intval|] eqn:Hv;
        [|apply postg_parse_error].
      unfold int_in_type_bounds. rewrite Hb.
      apply postg_when; [intros; apply postg_semantic_error|].
      intros Hin. apply negb_false_iff in Hin.
      apply andb_true_iff in Hin. destruct Hin as (Hlo & Hhi).
      apply Z.leb_le in Hlo, Hhi.
      split; [model_eq|]. split; [exact Hty|]. exists intval. auto.
    + destruct (Py.str_in ty ["float"; "double"]) eqn:Hf.
      * apply postg_when; [intros; apply postg_parse_error|].
        intros Hok. apply negb_false_iff in Hok.
        split; [model_eq|]. split; assumption.
      * apply postg_bind, postg_print, postg_raise.
  - intros [] g' (Hg' & Hc). apply postg_ret. split; [|split].
    + apply struct_ok_add_constant; assumption.
    + reflexivity.
    + exact Hg'.
Qed.

Lemma body_post_trans s g0 s1 g1 s2 g2 :
  body_post s g0 s1 g1 -> body_post s1 g1 s2 g2 -> body_post s g0 s2 g2.
Proof.
  intros (_ & Hh1 & Hg1) (Hs2 & Hh2 & Hg2).
  split; [exact Hs2|]. split; congruence.
Qed.

Lemma body_post_from s g0 g1 s' g :
  model g1 = model g0 -> body_post s g1 s' g -> body_post s g0 s' g.
Proof.
  intros Hg (Hs & Hh & Hg'). split; [exact Hs|]. split; congruence.
Qed.

(** A step that extends the struct, inside a longer computation. *)
Ltac body_step lem :=
  apply postg_bind; eapply postg_conseq;
  [apply lem; auto | intros ? ? ?].

Lemma more_constants_post typename n :
  Py.str_in typename CONST_TYPES = true ->
  forall s g0, struct_ok s ->
               postg (more_constants fuel n typename s) g0 (body_post s g0).
Proof.
  intros Hty. induction n as [|n IH]; intros s g0 Hs; simpl.
  - apply postg_out_of_fuel.
  - keeps_step as more. destruct more.
    + apply postg_bind. eapply postg_conseq;
        [apply another_constant_post; assumption|].
      intros s1 g1 B1. eapply postg_conseq; [apply IH, B1|].
      intros s2 g2 B2.
      eapply body_post_from; [eassumption|].
      eapply body_post_trans; eassumption.
    + apply postg_ret. split; [exact Hs|]. split; [reflexivity|assumption].
Qed.

Lemma parse_const_post s g0 :
  struct_ok s -> postg (parse_const fuel s) g0 (body_post s g0).
Proof.
  intros Hs. unfold parse_const.
  keeps_step. keeps_step.
  apply postg_bind, postg_get_t. intros tk.
  fails_when. intros Hty. apply negb_false_iff in Hty.
  apply postg_bind. eapply postg_conseq;
    [apply another_constant_post; assumption|].
  intros s1 g2 B1.
  apply postg_bind. eapply postg_conseq;
    [apply more_constants_post; [assumption|apply B1]|].
  intros s2 g3 B2.
  keeps_step. apply postg_ret.
  pose proof (body_post_trans _ _ _ _ _ _ B1 B2) as (Hs2 & Hh & Hg).
  split; [exact Hs2|]. split; [exact Hh|]. model_eq.
Qed.

Lemma parse_dimensions_post n :
  forall i s g0, struct_ok s ->
                 postg (parse_dimensions fuel n i s) g0 (body_post s g0).
Proof.
  induction n as [|n IH]; intros i s g0 Hs; simpl.
  - apply postg_out_of_fuel.
  - keeps_step as more. destruct more.
    + keeps_step. keeps_step.
      apply postg_bind, postg_get_t. intros tk.
      fails_when. intros _.
      apply postg_bind. eapply postg_conseq;
        [apply resolve_dimension_post|].
      intros [dim_mode size] g4 (Hg4 & Hd). cbn [fst snd] in Hd.
      keeps_step.
      eapply postg_conseq;
        [apply IH, struct_ok_add_dimension; eassumption|].
      intros s' g' (Hs' & Hh & Hg').
      split; [exact Hs'|]. split; [exact Hh|]. model_eq.
    + apply postg_ret. split; [exact Hs|]. split; [reflexivity|assumption].
Qed.

Lemma parse_member_names_post typename n :
  forall s g0, struct_ok s ->
               postg (parse_member_names fuel n typename s) g0
                     (body_post s g0).
Proof.
  induction n as [|n IH]; intros s g0 Hs; simpl.
  - apply postg_out_of_fuel.
  - keeps_step. keeps_step.
    apply postg_bind.
    eapply postg_conseq; [apply new_member_name_post|].
    intros membername g2 (Hg2 & Hlegal & Hfresh).
    keeps_step as comment.
    apply postg_bind. eapply postg_conseq;
      [apply parse_dimensions_post, struct_ok_add_member; eassumption|].
    intros s1 g4 (Hs1 & Hh1 & Hg4).
    keeps_step as more. destruct more.
    + eapply postg_conseq; [apply IH, Hs1|].
      intros s2 g6 (Hs2 & Hh2 & Hg6).
      split; [exact Hs2|].
      split; [exact (eq_trans Hh2 Hh1)|]. model_eq.
    + apply postg_ret. split; [exact Hs1|].
      split; [exact Hh1|]. model_eq.
Qed.

Lemma parse_member_post s g0 :
  struct_ok s -> postg (parse_member fuel s) g0 (body_post s g0).
Proof.
  intros Hs. unfold parse_member.
  keeps_step as is_struct.
  destruct is_struct; [apply postg_parse_error|].
  keeps_step as is_enum.
  destruct is_enum; [apply postg_parse_error|].
  keeps_step as is_const. destruct is_const.
  - eapply postg_conseq; [apply parse_const_post, Hs|].
    intros s1 g4 (Hs1 & Hh1 & Hg4).
    split; [exact Hs1|]. split; [exact Hh1|]. model_eq.
  - keeps_step. keeps_step.
    apply postg_bind, postg_get_t. intros tk.
    keeps_step as legal. fails_when. intros _.
    keeps_step.
    apply postg_bind, postg_get_lcmgen.
    apply postg_bind. eapply postg_conseq;
      [apply parse_member_names_post, Hs|].
    intros s1 g8 (Hs1 & Hh1 & Hg8).
    keeps_step. apply postg_ret.
    split; [exact Hs1|]. split; [exact Hh1|]. model_eq.
Qed.

Lemma parse_struct_body_post n :
  forall s g0, struct_ok s ->
               postg (parse_struct_body fuel n s) g0 (body_post s g0).
Proof.
  induction n as [|n IH]; intros s g0 Hs; simpl.
  - apply postg_out_of_fuel.
  - keeps_step. keeps_step as closed. destruct closed.
    + apply postg_ret. split; [exact Hs|]. split; [reflexivity|].
      model_eq.
    + apply postg_bind. eapply postg_conseq;
        [apply parse_member_post, Hs|].
      intros s1 g3 (Hs1 & Hh1 & Hg3).
      eapply postg_conseq; [apply IH, Hs1|].
      intros s2 g4 (Hs2 & Hh2 & Hg4).
      split; [exact Hs2|].
      split; [exact (eq_trans Hh2 Hh1)|]. model_eq.
Qed.

Lemma struct_ok_header s s' :
  names s' = names s -> members s' = members s ->
  constants s' = constants s -> structs s' = structs s ->
  struct_ok s -> struct_ok s'.
Proof.
  unfold struct_ok. intros -> -> -> ->. auto.
Qed.

Lemma parse_struct_post src g0 :
  postg (parse_struct fuel src) g0
        (fun s g => struct_ok s /\ hash s = hash_structure s
                    /\ lcmfile s = src /\ model g = model g0).
Proof.
  unfold parse_struct.
  keeps_step. keeps_step.
  apply postg_bind, postg_get_t. intros tk.
  apply postg_bind, postg_get_lcmgen.
  keeps_step. keeps_step as doc. keeps_step.
  apply postg_bind. eapply postg_conseq;
    [apply parse_struct_body_post;
     apply (struct_ok_header (create_struct g1 src (token tk)));
     try reflexivity; apply struct_ok_create|].
  intros s1 g5 (Hs1 & Hh1 & Hg5).
  apply postg_ret. split; [|split; [|split]].
  - revert Hs1. apply struct_ok_header; reflexivity.
  - reflexivity.
  - unfold header in Hh1. simpl in Hh1 |- *. congruence.
  - model_eq.
Qed.

Lemma lcmgen_ok_model files g g' :
  model g' = model g -> lcmgen_ok files g -> lcmgen_ok files g'.
Proof.
  unfold model, lcmgen_ok. intros E. inversion E as [[Eo Es]].
  now rewrite Es.
Qed.

Lemma grows_refl g : grows g g.
Proof. split; [reflexivity|]. exists []. now rewrite app_nil_r. Qed.

Lemma grows_model g0 g g' : model g' = model g -> grows g0 g -> grows g0 g'.
Proof.
  unfold model, grows. intros E. inversion E as [[Eo Es]].
  now rewrite Eo, Es.
Qed.

Lemma grows_trans g0 g1 g2 : grows g0 g1 -> grows g1 g2 -> grows g0 g2.
Proof.
  intros (Ho1 & m1 & E1) (Ho2 & m2 & E2). split; [congruence|].
  exists (m1 ++ m2)%list. now rewrite E2, E1, app_assoc.
Qed.

Lemma find_struct_none g p n :
  find_struct g p n = None ->
  ~ In (p, n) (map struct_key (lcmgen_structs g)).
Proof.
  unfold find_struct. intros H Hin. apply in_map_iff in Hin.
  destruct Hin as (s & E & Hs). inversion E; subst.
  pose proof (find_none _ _ H s Hs) as F. cbn beta in F.
  now rewrite !String.eqb_refl in F.
Qed.

Lemma lcmgen_ok_add files g s :
  lcmgen_ok files g -> recorded_ok files s ->
  find_struct g (package (structname s)) (shortname (structname s)) = None ->
  lcmgen_ok files (set_lcmgen_structs (lcmgen_structs g ++ [s]) g).
Proof.
  intros (Hnd & Hall) Hs Hnew. split; simpl.
  - rewrite map_app. simpl. apply NoDup_snoc; [exact Hnd|].
    now apply find_struct_none.
  - apply Forall_app. split; [exact Hall|]. now constructor.
Qed.

Lemma parse_entity_post files src g0 :
  postg (parse_entity fuel src) g0
        (fun _ g => grows g0 g
                    /\ (lcmgen_ok files g0 -> In src files ->
                        lcmgen_ok files g)).
Proof.
  unfold parse_entity.
  keeps_step. keeps_step as res.
  assert (Hsame : forall g, model g = model g0 ->
                            grows g0 g
                            /\ (lcmgen_ok files g0 -> In src files ->
                                lcmgen_ok files g)).
  { intros gx Hgx. split.
    - apply (grows_model g0 g0); [exact Hgx | apply grows_refl].
    - intros Hok _. now apply (lcmgen_ok_model files g0). }
  destruct res as [r|]; [|apply postg_ret, Hsame; model_eq].
  apply postg_bind, postg_get_t. intros tk.
  destruct (String.eqb (token tk) KW_PACKAGE).
  { keeps_step. keeps_step. keeps_step.
    apply postg_bind, postg_get_t. intros tk'.
    keeps_step. keeps_step. apply postg_ret, Hsame. model_eq. }
  destruct (String.eqb (token tk) KW_STRUCT).
  { apply postg_bind. eapply postg_conseq; [apply parse_struct_post|].
    intros s g3 (Hs & Hhash & Hfile & Hg3).
    apply postg_bind, postg_get_lcmgen.
    destruct (find_struct g3 (package (structname s))
                          (shortname (structname s))) as [prev|] eqn:Hf.
    - apply postg_bind, postg_print, postg_ret, Hsame. model_eq.
    - apply postg_bind, postg_upd_lcmgen, postg_ret. split.
      + apply (grows_trans g0 g3).
        * apply (grows_model g0 g0); [model_eq | apply grows_refl].
        * split; [reflexivity|]. now exists [s].
      + intros Hok Hsrc.
        assert (Hok3 : lcmgen_ok files g3).
        { apply (lcmgen_ok_model files g0); [model_eq | exact Hok]. }
        apply lcmgen_ok_add; [exact Hok3| |exact Hf].
        split; [exact Hs|]. split; [exact Hhash|]. now rewrite Hfile. }
  destruct (String.eqb (token tk) KW_ENUM).
  { apply postg_bind, postg_print, postg_ret, Hsame. model_eq. }
  apply postg_parse_error.
Qed.

Lemma parse_entities_post files src n :
  forall g0, postg (parse_entities fuel n src) g0
                   (fun _ g => grows g0 g
                               /\ (lcmgen_ok files g0 -> In src files ->
                                   lcmgen_ok files g)).
Proof.
  induction n as [|n IH]; intros g0; simpl.
  - apply postg_out_of_fuel.
  - apply postg_bind. eapply postg_conseq;
      [apply (parse_entity_post files)|].
    intros res g1 (Hg1 & Hok1). destruct res.
    + eapply postg_conseq; [apply IH|].
      intros [] g2 (Hg2 & Hok2). split.
      * now apply (grows_trans g0 g1).
      * auto.
    + apply postg_ret. now split.
Qed.

Lemma lexical_dump_tokens n : forall ntok, lexical (dump_tokens fuel n ntok).
Proof. induction n; intros ntok; simpl; lex. Qed.

Lemma handle_open_file_post files path g0 :
  postg (handle_open_file fuel path) g0
        (fun suc g => suc = true /\ grows g0 g
                      /\ (lcmgen_ok files g0 -> In path files ->
                          lcmgen_ok files g)).
Proof.
  unfold handle_open_file.
  apply postg_bind, postg_get_lcmgen.
  assert (Hparse :
            postg (parse_entities fuel fuel path ;; ret true) g0
                  (fun suc g => suc = true /\ grows g0 g
                                /\ (lcmgen_ok files g0 -> In path files ->
                                    lcmgen_ok files g))).
  { apply postg_bind. eapply postg_conseq;
      [apply (parse_entities_post files)|].
    intros [] g1 (Hok1 & Hg1). apply postg_ret. auto. }
  destruct (tokenize (gopt g0)) as [[|]|]; try exact Hparse.
  apply postg_bind, postg_print, postg_bind.
  apply postg_lexical; [apply lexical_dump_tokens|]. intros [].
  apply postg_ret. split; [reflexivity|]. split; [apply grows_refl|auto].
Qed.

(** In [--tokenize] mode the compiler state is not touched at all. *)
Lemma handle_open_file_tokenize path g0 :
  tokenize (gopt g0) = Some true ->
  postg (handle_open_file fuel path) g0 (fun _ g => g = g0).
Proof.
  intros Htok. unfold handle_open_file.
  apply postg_bind, postg_get_lcmgen. rewrite Htok.
  apply postg_bind, postg_print, postg_bind.
  apply postg_lexical; [apply lexical_dump_tokens|]. intros [].
  now apply postg_ret.
Qed.

End ParserInvariant.

(** ** The run over the input files *)

Section RunInvariant.

Variable fuel : nat.
Variable fs : FileSystem.
Variable files : list string.

Lemma handle_file_done g out path suc g' out' :
  handle_file fuel fs g out path = Done suc g' out' ->
  grows g g' /\ (lcmgen_ok files g -> In path files -> lcmgen_ok files g').
Proof.
  unfold handle_file. intros H.
  destruct (dict_get fs path) as [src|].
  - destruct (handle_open_file fuel path (mkWorld (create path src) g out))
      as [a w| | |] eqn:E; try discriminate.
    inversion H; subst.
    exact (proj2 (handle_open_file_post fuel files path g
                    (mkWorld (create path src) g out) _ _ eq_refl E)).
  - inversion H; subst. split; [apply grows_refl | auto].
Qed.

Lemma handle_files_done paths :
  forall g out g' out',
    handle_files fuel fs g out paths = Done tt g' out' ->
    grows g g' /\ (lcmgen_ok files g -> incl paths files ->
                   lcmgen_ok files g').
Proof.
  induction paths as [|path rest IH]; intros g out g' out' H; simpl in H.
  - inversion H; subst. split; [apply grows_refl | auto].
  - destruct (handle_file fuel fs g out path) as [suc g1 out1| | |] eqn:E;
      try discriminate.
    destruct suc; [|discriminate].
    destruct (handle_file_done _ _ _ _ _ _ E) as (Hg1 & Hok1).
    destruct (IH _ _ _ _ H) as (Hg' & Hok').
    split; [now apply (grows_trans g g1)|].
    intros Hok Hin. apply Hok'.
    + apply Hok1; [exact Hok|]. apply Hin. now left.
    + intros p Hp. apply Hin. now right.
Qed.

Lemma lcmgen_ok_start o : lcmgen_ok files (set_gopt o create_lcmgen).
Proof. split; simpl; constructor. Qed.

Lemma main_done input_files flag g out :
  main fuel fs input_files flag = Done tt g out ->
  incl input_files files ->
  flag = false /\ lcmgen_ok files g.
Proof.
  unfold main. intros H Hin.
  destruct (handle_files fuel fs _ [] input_files)
    as [[] g1 out1| | |] eqn:E; try discriminate.
  destruct flag; [discriminate|]. inversion H; subst.
  split; [reflexivity|].
  exact (proj2 (handle_files_done _ _ _ _ _ E) (lcmgen_ok_start _) Hin).
Qed.

End RunInvariant.

(** ** The exit status *)

Create HintDb exits.

Section ExitBasics.

Lemma exit_one_ret {A} (a : A) : exit_one (ret a).
Proof. intros w c w' E. discriminate. Qed.

Lemma exit_one_bind {A B} (m : M A) (k : A -> M B) :
  exit_one m -> (forall a, exit_one (k a)) -> exit_one (bind m k).
Proof.
  intros Hm Hk w c w' E. unfold bind in E.
  destruct (m w) as [a w1|c1 w1| |] eqn:Em; try discriminate.
  - exact (Hk a w1 c w' E).
  - inversion E; subst. exact (Hm w c w' Em).
Qed.

Lemma exit_one_get_t : exit_one get_t.
Proof. intros w c w' E. discriminate. Qed.

Lemma exit_one_upd_t f : exit_one (upd_t f).
Proof. intros w c w' E. discriminate. Qed.

Lemma exit_one_get_lcmgen : exit_one get_lcmgen.
Proof. intros w c w' E. discriminate. Qed.

Lemma exit_one_upd_lcmgen f : exit_one (upd_lcmgen f).
Proof. intros w c w' E. discriminate. Qed.

Lemma exit_one_print s : exit_one (print s).
Proof. intros w c w' E. discriminate. Qed.

Lemma exit_one_raise {A} e : exit_one (@raise A e).
Proof. intros w c w' E. discriminate. Qed.

Lemma exit_one_out_of_fuel {A} : exit_one (@out_of_fuel A).
Proof. intros w c w' E. discriminate. Qed.

Lemma exit_one_sys_exit {A} : exit_one (@sys_exit A 1).
Proof. intros w c w' E. now inversion E. Qed.

Lemma exit_one_when b m : exit_one m -> exit_one (when b m).
Proof. intros H. destruct b; [exact H | apply exit_one_ret]. Qed.

End ExitBasics.

#[export] Hint Resolve exit_one_ret exit_one_get_t exit_one_upd_t
  exit_one_get_lcmgen exit_one_upd_lcmgen exit_one_print exit_one_raise
  exit_one_out_of_fuel exit_one_sys_exit : exits.

(** Goals [exit_one m], by the structure of [m]. *)
Ltac ex :=
  repeat
    match goal with
    | |- forall _, _ => intros ?
    | |- exit_one (bind _ _) => apply exit_one_bind
    | |- exit_one (when _ _) => apply exit_one_when
    | |- exit_one (upd_cache _) => apply exit_one_upd_lcmgen
    | |- exit_one (match ?x with _ => _ end) => destruct x
    | |- exit_one (let '(_, _) := ?x in _) => destruct x
    | |- exit_one _ => solve [auto with exits]
    end.

Section ExitStatus.

Variable fuel : nat.

Lemma exit_one_next_char : exit_one next_char.
Proof. unfold next_char. ex. Qed.

Lemma exit_one_unget : exit_one unget.
Proof. unfold unget. ex. Qed.

Lemma exit_one_add_char_to_token c : exit_one (add_char_to_token c).
Proof. unfold add_char_to_token. ex. Qed.

Lemma exit_one_set_type ty : exit_one (set_type ty).
Proof. unfold set_type. ex. Qed.

Hint Resolve exit_one_next_char exit_one_unget exit_one_add_char_to_token
  exit_one_set_type : exits.

Lemma exit_one_comment_leading_space n :
  forall pos, exit_one (comment_leading_space n pos).
Proof. induction n; intros pos; simpl; ex. Qed.

Lemma exit_one_comment_asterisks n :
  forall c pos got, exit_one (comment_asterisks n c pos got).
Proof. induction n; intros c pos got; simpl; ex. Qed.

Lemma exit_one_comment_rest_of_line n :
  forall c pos, exit_one (comment_rest_of_line n c pos).
Proof. induction n; intros c pos; simpl; ex. Qed.

Hint Resolve exit_one_comment_leading_space exit_one_comment_asterisks
  exit_one_comment_rest_of_line : exits.

Lemma exit_one_comment_lines n :
  forall pos, exit_one (comment_lines fuel n pos).
Proof. induction n; intros pos; simpl; ex. Qed.

Hint Resolve exit_one_comment_lines : exits.

Lemma exit_one_tokenize_extended_comment :
  exit_one (tokenize_extended_comment fuel).
Proof. unfold tokenize_extended_comment. ex. Qed.

Lemma exit_one_skip_space n : forall c, exit_one (skip_space n c).
Proof. induction n; intros c; simpl; ex. Qed.

Lemma exit_one_string_literal n :
  forall pos esc, exit_one (string_literal n pos esc).
Proof. induction n; intros pos esc; simpl; ex. Qed.

Lemma exit_one_operator_run n : forall c pos, exit_one (operator_run n c pos).
Proof. induction n; intros c pos; simpl; ex. Qed.

Lemma exit_one_skip_char n x : forall c, exit_one (skip_char n x c).
Proof. induction n; intros c; simpl; ex. Qed.

Lemma exit_one_line_comment_text n :
  forall c pos, exit_one (line_comment_text n c pos).
Proof. induction n; intros c pos; simpl; ex. Qed.

Lemma exit_one_blob n : forall c pos, exit_one (blob n c pos).
Proof. induction n; intros c pos; simpl; ex. Qed.

Hint Resolve exit_one_tokenize_extended_comment exit_one_skip_space
  exit_one_string_literal exit_one_operator_run exit_one_skip_char
  exit_one_line_comment_text exit_one_blob : exits.

Lemma exit_one_tokenize_next_internal :
  exit_one (tokenize_next_internal fuel).
Proof. unfold tokenize_next_internal. ex. Qed.

Hint Resolve exit_one_tokenize_next_internal : exits.

Lemma exit_one_tokenize_next : exit_one (tokenize_next fuel).
Proof. unfold tokenize_next. ex. Qed.

Hint Resolve exit_one_tokenize_next : exits.

Lemma exit_one_tokenize_peek : exit_one (tokenize_peek fuel).
Proof. unfold tokenize_peek. ex. Qed.

Lemma exit_one_semantic_error {A} msg : exit_one (@semantic_error A msg).
Proof. unfold semantic_error. ex. Qed.

Lemma exit_one_parse_error {A} msg : exit_one (@parse_error A msg).
Proof. unfold parse_error. ex. Qed.

Lemma exit_one_semantic_warning msg : exit_one (semantic_warning msg).
Proof. unfold semantic_warning. ex. Qed.

Lemma exit_one_legal_member_name s : exit_one (legal_member_name s).
Proof. unfold legal_member_name. ex. Qed.

Lemma exit_one_take_comment_doc : exit_one take_comment_doc.
Proof. unfold take_comment_doc. ex. Qed.

Hint Resolve exit_one_tokenize_peek exit_one_semantic_error
  exit_one_parse_error exit_one_semantic_warning
  exit_one_legal_member_name exit_one_take_comment_doc : exits.

Lemma exit_one_consume_comments n :
  forall store, exit_one (consume_comments fuel n store).
Proof. induction n; intros store; simpl; ex. Qed.

Hint Resolve exit_one_consume_comments : exits.

Lemma exit_one_parse_try_consume_comment a b :
  exit_one (parse_try_consume_comment fuel a b).
Proof. unfold parse_try_consume_comment. ex. Qed.

Hint Resolve exit_one_parse_try_consume_comment : exits.

Lemma exit_one_parse_try_consume tok : exit_one (parse_try_consume fuel tok).
Proof. unfold parse_try_consume. ex. Qed.

Lemma exit_one_skip_comment_tokens n :
  forall res, exit_one (skip_comment_tokens fuel n res).
Proof. induction n; intros res; simpl; ex. Qed.

Hint Resolve exit_one_parse_try_consume exit_one_skip_comment_tokens
  : exits.

Lemma exit_one_parse_require tok : exit_one (parse_require fuel tok).
Proof. unfold parse_require. ex. Qed.

Lemma exit_one_tokenize_next_or_fail d :
  exit_one (tokenize_next_or_fail fuel d).
Proof. unfold tokenize_next_or_fail. ex. Qed.

Lemma exit_one_new_member_name s : exit_one (new_member_name s).
Proof. unfold new_member_name. ex. Qed.

Hint Resolve exit_one_parse_require exit_one_tokenize_next_or_fail
  exit_one_new_member_name : exits.

Lemma exit_one_another_constant ty s :
  exit_one (another_constant fuel ty s).
Proof. unfold another_constant. ex. Qed.

Hint Resolve exit_one_another_constant : exits.

Lemma exit_one_more_constants n ty :
  forall s, exit_one (more_constants fuel n ty s).
Proof. induction n; intros s; simpl; ex. Qed.

Hint Resolve exit_one_more_constants : exits.

Lemma exit_one_parse_const s : exit_one (parse_const fuel s).
Proof. unfold parse_const. ex. Qed.

Lemma exit_one_resolve_dimension s a : exit_one (resolve_dimension s a).
Proof. unfold resolve_dimension. ex. Qed.

Hint Resolve exit_one_parse_const exit_one_resolve_dimension : exits.

Lemma exit_one_parse_dimensions n :
  forall i s, exit_one (parse_dimensions fuel n i s).
Proof. induction n; intros i s; simpl; ex. Qed.

Hint Resolve exit_one_parse_dimensions : exits.

Lemma exit_one_parse_member_names n ty :
  forall s, exit_one (parse_member_names fuel n ty s).
Proof. induction n; intros s; simpl; ex. Qed.

Hint Resolve exit_one_parse_member_names : exits.

Lemma exit_one_parse_member s : exit_one (parse_member fuel s).
Proof. unfold parse_member. ex. Qed.

Hint Resolve exit_one_parse_member : exits.

Lemma exit_one_parse_struct_body n :
  forall s, exit_one (parse_struct_body fuel n s).
Proof. induction n; intros s; simpl; ex. Qed.

Hint Resolve exit_one_parse_struct_body : exits.

Lemma exit_one_parse_struct src : exit_one (parse_struct fuel src).
Proof. unfold parse_struct. ex. Qed.

Hint Resolve exit_one_parse_struct : exits.

Lemma exit_one_parse_entity src : exit_one (parse_entity fuel src).
Proof. unfold parse_entity. ex. Qed.

Hint Resolve exit_one_parse_entity : exits.

Lemma exit_one_parse_entities n src : exit_one (parse_entities fuel n src).
Proof. induction n; simpl; ex. Qed.

Lemma exit_one_dump_tokens n : forall k, exit_one (dump_tokens fuel n k).
Proof. induction n; intros k; simpl; ex. Qed.

Hint Resolve exit_one_parse_entities exit_one_dump_tokens : exits.

Lemma exit_one_handle_open_file path : exit_one (handle_open_file fuel path).
Proof. unfold handle_open_file. ex. Qed.

Variable fs : FileSystem.

Lemma handle_file_stopped g out path c g' out' :
  handle_file fuel fs g out path = Stopped c g' out' -> c = 1.
Proof.
  unfold handle_file. intros H.
  destruct (dict_get fs path) as [src|]; [|discriminate].
  destruct (handle_open_file fuel path (mkWorld (create path src) g out))
    as [a w|c1 w| |] eqn:E; try discriminate.
  inversion H; subst. exact (exit_one_handle_open_file path _ _ _ E).
Qed.

Lemma handle_files_stopped paths :
  forall g out c g' out',
    handle_files fuel fs g out paths = Stopped c g' out' -> c = 1.
Proof.
  induction paths as [|path rest IH]; intros g out c g' out' H;
    simpl in H; [discriminate|].
  destruct (handle_file fuel fs g out path) as [suc g1 out1|c1 g1 out1| |]
    eqn:E; try discriminate.
  - destruct suc; [exact (IH _ _ _ _ _ H)|]. now inversion H.
  - inversion H; subst. exact (handle_file_stopped _ _ _ _ _ _ E).
Qed.

End ExitStatus.

(** ** The model a successful run leaves behind *)

Section RecordedStructs.

Lemma main_done_recorded fuel fs files flag g out (P : Struct -> Prop) :
  (forall s, recorded_ok files s -> P s) ->
  main fuel fs files flag = Done tt g out ->
  Forall P (lcmgen_structs g).
Proof.
  intros HP H.
  destruct (main_done fuel fs files files flag g out H (incl_refl _))
    as (_ & _ & Hall).
  revert Hall. apply Forall_impl, HP.
Qed.

Lemma hash_structure_int64 s : int64 (hash_structure s).
Proof.
  unfold hash_structure.
  apply (mixer_fold hash_member (members s) mixer_hash_member), seed_int64.
Qed.

End RecordedStructs.

(** X1: when [main] runs to its end, no two recorded structs have the same
    package and short name. *)
Theorem recorded_struct_names_are_unique :
  forall fuel fs files flag g out,
    main fuel fs files flag = Done tt g out ->
    NoDup (map struct_key (lcmgen_structs g)).
Proof.
  intros fuel fs files flag g out H.
  exact (proj1 (proj2 (main_done fuel fs files files flag g out H
                         (incl_refl _)))).
Qed.

Lemma recorded_struct_names_witness :
  NoDup (map struct_key (lcmgen_structs Sample.model)).
Proof.
  apply (recorded_struct_names_are_unique
           200 Sample.files Sample.paths false Sample.model Sample.output).
  vm_compute. reflexivity.
Defined.

(** X2: in every recorded struct the names of the members and of the
    constants are pairwise distinct, members and constants sharing one
    name space, and each name starts with a letter or an underscore. *)
Theorem recorded_names_distinct_and_legal :
  forall fuel fs files flag g out,
    main fuel fs files flag = Done tt g out ->
    Forall (fun s => NoDup (names s) /\ Forall legal_name (names s))
           (lcmgen_structs g).
Proof.
  intros fuel fs files flag g out.
  apply main_done_recorded. intros s ((Hnd & Hleg & _) & _). now split.
Qed.

Lemma recorded_names_witness :
  Forall (fun s => NoDup (names s) /\ Forall legal_name (names s))
         (lcmgen_structs Sample.model).
Proof.
  apply (recorded_names_distinct_and_legal
           200 Sample.files Sample.paths false Sample.model Sample.output).
  vm_compute. reflexivity.
Defined.

(** X3: every array dimension of a recorded member is resolved: a
    variable dimension carries the name of a member of the same struct
    whose type is one of the integer types, a constant dimension carries a
    positive decimal literal or the value text of a constant of the same
    struct. *)
Theorem recorded_dimensions_are_resolved :
  forall fuel fs files flag g out,
    main fuel fs files flag = Done tt g out ->
    Forall (fun s =>
              Forall (fun m =>
                        Forall (dimension_ok (members s) (constants s))
                               (dimensions m))
                     (members s))
           (lcmgen_structs g).
Proof.
  intros fuel fs files flag g out.
  apply main_done_recorded. now intros s ((_ & _ & Hdim & _) & _).
Qed.

Lemma recorded_dimensions_witness :
  Forall (fun s =>
            Forall (fun m =>
                      Forall (dimension_ok (members s) (constants s))
                             (dimensions m))
                   (members s))
         (lcmgen_structs Sample.model).
Proof.
  apply (recorded_dimensions_are_resolved
           200 Sample.files Sample.paths false Sample.model Sample.output).
  vm_compute. reflexivity.
Defined.

(** X4: every recorded constant has one of the six constant types; the
    value text of an integer constant is an integer literal within the
    bounds of its type, that of a [float] or [double] constant is a
    floating-point literal. *)
Theorem recorded_constants_are_checked :
  forall fuel fs files flag g out,
    main fuel fs files flag = Done tt g out ->
    Forall (fun s => Forall constant_ok (constants s)) (lcmgen_structs g).
Proof.
  intros fuel fs files flag g out.
  apply main_done_recorded. now intros s ((_ & _ & _ & Hc & _) & _).
Qed.

Lemma recorded_constants_witness :
  Forall (fun s => Forall constant_ok (constants s))
         (lcmgen_structs Sample.model).
Proof.
  apply (recorded_constants_are_checked
           200 Sample.files Sample.paths false Sample.model Sample.output).
  vm_compute. reflexivity.
Defined.

(** X5: the fingerprint stored in a recorded struct is [hash_structure]
    of that struct, a signed 64-bit value. *)
Theorem recorded_hash_is_the_fingerprint :
  forall fuel fs files flag g out,
    main fuel fs files flag = Done tt g out ->
    Forall (fun s => hash s = hash_structure s /\ int64 (hash s))
           (lcmgen_structs g).
Proof.
  intros fuel fs files flag g out.
  apply main_done_recorded. intros s (_ & Hh & _).
  split; [exact Hh|]. rewrite Hh. apply hash_structure_int64.
Qed.

Lemma recorded_hash_witness :
  Forall (fun s => hash s = hash_structure s /\ int64 (hash s))
         (lcmgen_structs Sample.model).
Proof.
  apply (recorded_hash_is_the_fingerprint
           200 Sample.files Sample.paths false Sample.model Sample.output).
  vm_compute. reflexivity.
Defined.

(** X6: every recorded struct carries the path of one of the input files
    as its source file, and no nested structs. *)
Theorem recorded_structs_name_their_file :
  forall fuel fs files flag g out,
    main fuel fs files flag = Done tt g out ->
    Forall (fun s => In (lcmfile s) files /\ structs s = [])
           (lcmgen_structs g).
Proof.
  intros fuel fs files flag g out.
  apply main_done_recorded.
  intros s ((_ & _ & _ & _ & Hst) & _ & Hf). now split.
Qed.

Lemma recorded_file_witness :
  Forall (fun s => In (lcmfile s) Sample.paths /\ structs s = [])
         (lcmgen_structs Sample.model).
Proof.
  apply (recorded_structs_name_their_file
           200 Sample.files Sample.paths false Sample.model Sample.output).
  vm_compute. reflexivity.
Defined.

(** X7: a file that [handle_file] handles to the end only adds structs:
    the structs recorded before are still there, unchanged and in the
    same order, and so are the options. *)
Theorem handle_file_only_appends :
  forall fuel fs g out path suc g' out',
    handle_file fuel fs g out path = Done suc g' out' ->
    gopt g' = gopt g
    /\ exists more, lcmgen_structs g' = (lcmgen_structs g ++ more)%list.
Proof.
  intros fuel fs g out path suc g' out' H.
  exact (proj1 (handle_file_done fuel fs [] _ _ _ _ _ _ H)).
Qed.

Lemma handle_file_only_appends_witness :
  gopt Sample.model = gopt Sample.first
  /\ exists more,
      lcmgen_structs Sample.model
      = (lcmgen_structs Sample.first ++ more)%list.
Proof.
  apply (handle_file_only_appends
           200 Sample.files Sample.first [] "b.lcm" true
           Sample.model Sample.output).
  vm_compute. reflexivity.
Defined.

(** X8: in [--tokenize] mode the files that are listed to the end leave
    the compiler state as it was: no struct is recorded, no package and no
    comment is remembered. *)
Theorem tokenize_mode_records_nothing :
  forall fuel fs paths g out g' out',
    tokenize (gopt g) = Some true ->
    handle_files fuel fs g out paths = Done tt g' out' ->
    g' = g.
Proof.
  intros fuel fs paths.
  induction paths as [|path rest IH]; intros g out g' out' Htok H;
    simpl in H.
  - now inversion H.
  - destruct (handle_file fuel fs g out path) as [suc g1 out1| | |] eqn:E;
      try discriminate.
    destruct suc; [|discriminate].
    assert (Hg1 : g1 = g).
    { unfold handle_file in E. destruct (dict_get fs path) as [src|].
      - destruct (handle_open_file fuel path
                    (mkWorld (create path src) g out))
          as [a w| | |] eqn:Eo; try discriminate.
        inversion E; subst.
        exact (handle_open_file_tokenize fuel path g Htok
                 (mkWorld (create path src) g out) _ _ eq_refl Eo).
      - now inversion E. }
    subst g1. exact (IH _ _ _ _ Htok H).
Qed.

Lemma tokenize_mode_witness : Sample.listed = configured true.
Proof.
  apply (tokenize_mode_records_nothing
           200 Sample.files Sample.paths (configured true) []
           Sample.listed Sample.listing).
  - reflexivity.
  - vm_compute. reflexivity.
Defined.



(** ** The tokenizer returns *)

Section Yields.

Lemma yields_ret {A} (a : A) w b (Q : A -> World -> Prop) :
  Q a w -> yields (ret a) w b Q.
Proof. intros H. exact H. Qed.

Lemma yields_bind {A B} (m : M A) (k : A -> M B) w b
      (R : B -> World -> Prop) :
  yields m w b (fun a w' => yields (k a) w' b R) ->
  yields (bind m k) w b R.
Proof.
  unfold yields, bind. destruct (m w); auto.
Qed.

Lemma yields_conseq {A} (m : M A) w (b b' : Prop)
      (Q Q' : A -> World -> Prop) :
  yields m w b' Q' -> (b -> b') -> (forall a w', Q' a w' -> Q a w') ->
  yields m w b Q.
Proof.
  unfold yields. destruct (m w); auto.
Qed.

Lemma yields_out_of_fuel {A} w (b : Prop) (Q : A -> World -> Prop) :
  ~ b -> yields out_of_fuel w b Q.
Proof. intros H. exact H. Qed.

Lemma yields_get_t w b (Q : Tokenize -> World -> Prop) :
  Q (t w) w -> yields get_t w b Q.
Proof. intros H. exact H. Qed.

Lemma yields_get_lcmgen w b (Q : Lcmgen -> World -> Prop) :
  Q (lcmgen w) w -> yields get_lcmgen w b Q.
Proof. intros H. exact H. Qed.

Lemma yields_upd_t f w b (Q : unit -> World -> Prop) :
  Q tt (mkWorld (f (t w)) (lcmgen w) (stdout w)) -> yields (upd_t f) w b Q.
Proof. intros H. exact H. Qed.

Lemma yields_print s w b (Q : unit -> World -> Prop) :
  Q tt (mkWorld (t w) (lcmgen w) (stdout w ++ [s])) ->
  yields (print s) w b Q.
Proof. intros H. exact H. Qed.

Lemma settled_ext k h c w w' :
  stream (t w') = stream (t w) -> hasnext (t w') = hasnext (t w) ->
  settled k h c w -> settled k h c w'.
Proof.
  intros St H ((B & U) & L & E). unfold settled, reading, load.
  rewrite (stream_pending _ _ St), H.
  split; [split|split]; auto.
  - eapply stream_buffer_ok; eauto.
  - unfold stream in St. inversion St. congruence.
Qed.

Lemma settled_le k k' h c w :
  (k <= k')%nat -> settled k h c w -> settled k' h c w.
Proof. intros Hk (R & L & H). split; [exact R|]. split; [lia|exact H]. Qed.

(** An update of the token text or of the token type. *)
Lemma yields_touch f w b k h c (Q : unit -> World -> Prop) :
  (forall tk, stream (f tk) = stream tk /\ hasnext (f tk) = hasnext tk) ->
  settled k h c w ->
  (forall w', settled k h c w' -> Q tt w') ->
  yields (upd_t f) w b Q.
Proof.
  intros Hf St HQ. apply yields_upd_t, HQ.
  destruct (Hf (t w)) as (Hs & Hh).
  now apply (settled_ext k h c w).
Qed.

Lemma yields_next_char w b (Q : option ascii -> World -> Prop) :
  buffer_ok (t w) ->
  (forall c w', settled (load w) (hasnext (t w)) c w' -> Q c w') ->
  yields next_char w b Q.
Proof.
  intros B HQ. unfold yields.
  destruct (next_char_spec w B) as (w' & E & B' & P' & U & F & _).
  rewrite E. apply HQ. unfold settled, reading, load.
  rewrite P'. pose proof (f_equal snd F) as Fr. simpl in Fr.
  unfold rest_frame in Fr.
  assert (Hh : hasnext (t w') = hasnext (t w)) by congruence.
  split; [split; assumption|]. split; [|exact Hh].
  destruct (pending (t w)); simpl; lia.
Qed.

Lemma yields_unget w b (Q : unit -> World -> Prop) :
  reading w ->
  (forall w', buffer_ok (t w') -> (load w' <= 1 + load w)%nat ->
              hasnext (t w') = hasnext (t w) -> Q tt w') ->
  yields unget w b Q.
Proof.
  intros (B & U) HQ. unfold unget. apply yields_upd_t, HQ; simpl.
  - exact B.
  - unfold load, pending, buffered. simpl. rewrite U.
    destruct (current_char (t w)); simpl; lia.
  - reflexivity.
Qed.

Lemma settled_drop k h c w : settled k h c w -> settled (k - hand c) h None w.
Proof.
  intros (R & L & H). split; [exact R|]. split; [simpl; lia|exact H].
Qed.

Lemma settled_none k h c w : settled k h c w -> settled k h None w.
Proof.
  intros (R & L & H). split; [exact R|]. split; [simpl; lia|exact H].
Qed.

Lemma settled_parked k h c w : settled k h c w -> parked k h w.
Proof.
  intros ((B & _) & L & H). split; [exact B|]. split; [lia|exact H].
Qed.

Lemma settled_print k h c w s :
  settled k h c w ->
  settled k h c (mkWorld (t w) (lcmgen w) (stdout w ++ [s])).
Proof. intros St. exact St. Qed.

(** [next_char] takes the place of the character in hand. *)
Lemma next_char_settled w b k h c (Q : option ascii -> World -> Prop) :
  settled k h c w ->
  (forall c' w', settled (k - hand c) h c' w' -> Q c' w') ->
  yields next_char w b Q.
Proof.
  intros ((B & U) & L & H) HQ. apply yields_next_char; [exact B|].
  intros c' w' St. apply HQ. rewrite H in St.
  apply (settled_le (load w)); [lia | exact St].
Qed.

Lemma unget_parked w b k h c (Q : unit -> World -> Prop) :
  settled k h c w ->
  (forall w', parked (S k - hand c) h w' -> Q tt w') ->
  yields unget w b Q.
Proof.
  intros (R & L & H) HQ. apply yields_unget; [exact R|].
  intros w' B' L' H'. apply HQ. split; [exact B'|].
  split; [lia|congruence].
Qed.

End Yields.

(** An update that leaves the stream alone, in state [St]. *)
Ltac touch St :=
  let w := fresh "w" in
  eapply yields_touch;
  [intros; split; reflexivity | exact St | clear St; intros w St].

Ltac get_char St c :=
  let w := fresh "w" in
  apply yields_bind; eapply next_char_settled;
  [exact St
  |clear St; intros c w St; cbn [hand] in St; rewrite ?Nat.sub_0_r in St].

Ltac fuel_left :=
  match goal with
  | St : settled _ _ _ _ |- _ =>
      let R := fresh in let L := fresh in let H := fresh in
      pose proof St as (R & L & H); cbn [hand] in L |- *; lia
  end.

Section LexerReturns.

Variable fuel : nat.

Lemma skip_space_yields n : forall c w k h,
  settled k h c w ->
  yields (skip_space n c) w (k < n)%nat (fun c' w' => settled k h c' w').
Proof.
  induction n as [|n IH]; intros c w k h St; cbn [skip_space].
  - apply yields_out_of_fuel. lia.
  - destruct c as [ch|]; [|now apply yields_ret].
    destruct (Py.isspace ch); [|now apply yields_ret].
    pose proof St as S0.
    get_char St c1.
    eapply yields_conseq; [apply (IH _ _ _ _ St) | fuel_left |].
    intros c' wz St'. revert St'. apply settled_le. lia.
Qed.

Lemma skip_char_yields n x : forall c w k h,
  settled k h c w ->
  yields (skip_char n x c) w (k < n)%nat (fun c' w' => settled k h c' w').
Proof.
  induction n as [|n IH]; intros c w k h St; cbn [skip_char].
  - apply yields_out_of_fuel. lia.
  - destruct (is_chr c x) eqn:E; [|now apply yields_ret].
    destruct c as [ch|]; [|discriminate].
    pose proof St as S0.
    get_char St c1.
    eapply yields_conseq; [apply (IH _ _ _ _ St) | fuel_left |].
    intros c' wz St'. revert St'. apply settled_le. lia.
Qed.

Lemma string_literal_yields n : forall pos esc w k h,
  settled k h None w ->
  yields (string_literal n pos esc) w (k < n)%nat
         (fun _ w' => settled k h None w').
Proof.
  induction n as [|n IH]; intros pos esc w k h St; cbn [string_literal].
  - apply yields_out_of_fuel. lia.
  - get_char St c. destruct c as [ch|]; [|now apply yields_ret].
    assert (Hrec : forall pos esc w1,
               settled k h (Some ch) w1 ->
               yields (string_literal n pos esc) w1 (k < S n)%nat
                      (fun _ w' => settled k h None w')).
    { intros pos' esc' w1 S1. pose proof (settled_drop _ _ _ _ S1) as S2.
      eapply yields_conseq; [apply (IH _ _ _ _ _ S2) | fuel_left |].
      intros rz wz St'. revert St'. apply settled_le. lia. }
    destruct esc; [now apply Hrec|].
    destruct (Ascii.eqb ch DQUOTE).
    { apply yields_bind. unfold add_char_to_token. touch St.
      apply yields_ret. apply settled_none in St. revert St.
      apply settled_le. lia. }
    destruct (Ascii.eqb ch BACKSLASH); [now apply Hrec|].
    apply yields_bind. unfold add_char_to_token. touch St.
    now apply Hrec.
Qed.

Lemma operator_run_yields n : forall c pos w k h,
  settled k h c w ->
  yields (operator_run n c pos) w (k < n)%nat
         (fun _ w' => settled (k - hand c) h None w').
Proof.
  induction n as [|n IH]; intros c pos w k h St; cbn [operator_run].
  - apply yields_out_of_fuel. lia.
  - destruct c as [ch|]; [|apply yields_ret; now apply settled_drop in St].
    destruct (Py.chr_in ch OPERATOR_CHARS);
      [|apply yields_ret; now apply settled_drop in St].
    pose proof St as S0.
    apply yields_bind. unfold add_char_to_token. touch St.
    get_char St c1.
    eapply yields_conseq; [apply (IH _ _ _ _ _ St) | fuel_left |].
    intros rz wz St'. revert St'. apply settled_le. cbn [hand]. lia.
Qed.

Lemma line_comment_text_yields n : forall c pos w k h,
  settled k h c w ->
  yields (line_comment_text n c pos) w (k < n)%nat
         (fun _ w' => settled (k - hand c) h None w').
Proof.
  induction n as [|n IH]; intros c pos w k h St; cbn [line_comment_text].
  - apply yields_out_of_fuel. lia.
  - destruct c as [ch|]; [|apply yields_ret; now apply settled_drop in St].
    destruct (Ascii.eqb ch NL);
      [apply yields_ret; now apply settled_drop in St|].
    pose proof St as S0.
    apply yields_bind. unfold add_char_to_token. touch St.
    get_char St c1.
    eapply yields_conseq; [apply (IH _ _ _ _ _ St) | fuel_left |].
    intros rz wz St'. revert St'. apply settled_le. cbn [hand]. lia.
Qed.

Lemma blob_yields n : forall c pos w k h,
  settled k h c w ->
  yields (blob n c pos) w (k < n)%nat (fun _ w' => parked k h w').
Proof.
  induction n as [|n IH]; intros c pos w k h St; cbn [blob].
  - apply yields_out_of_fuel. lia.
  - destruct c as [ch|]; [|apply yields_ret; now apply settled_parked in St].
    destruct (Py.isspace ch);
      [apply yields_ret; now apply settled_parked in St|].
    pose proof St as S0.
    apply yields_bind. unfold add_char_to_token. touch St.
    destruct (Py.chr_in ch SINGLE_CHAR_TOKENS);
      [apply yields_ret; now apply settled_parked in St|].
    get_char St c1.
    destruct (opt_in c1 SINGLE_CHAR_TOKENS || opt_in c1 OPERATOR_CHARS)
             eqn:E.
    + assert (Hc1 : hand c1 = 1%nat).
      { destruct c1; [reflexivity|discriminate]. }
      apply yields_bind. eapply unget_parked; [exact St|].
      intros wz (B & L & H). apply yields_ret.
      split; [exact B|]. split; [|exact H].
      destruct S0 as (_ & L0 & _). cbn [hand] in L0. lia.
    + eapply yields_conseq; [apply (IH _ _ _ _ _ St) | fuel_left |].
      intros rz wz (B & L & H). split; [exact B|]. split; [lia|exact H].
Qed.

Lemma comment_leading_space_yields n : forall pos w k h,
  settled k h None w ->
  yields (comment_leading_space n pos) w (k < n)%nat
         (fun r w' => settled k h (fst r) w').
Proof.
  induction n as [|n IH]; intros pos w k h St; cbn [comment_leading_space].
  - apply yields_out_of_fuel. lia.
  - get_char St c.
    destruct c as [ch|]; [|now apply yields_ret].
    destruct (Ascii.eqb ch SPACE || Ascii.eqb ch TAB);
      [|now apply yields_ret].
    pose proof St as S0.
    apply yields_bind. unfold add_char_to_token. touch St.
    apply settled_drop in St.
    eapply yields_conseq; [apply (IH _ _ _ _ St) | fuel_left |].
    intros r wz St'. revert St'. apply settled_le. lia.
Qed.

Lemma comment_asterisks_yields n : forall c pos got w k h,
  settled k h c w ->
  yields (comment_asterisks n c pos got) w (k < n)%nat
         (fun r w' => settled k h (fst (fst r)) w').
Proof.
  induction n as [|n IH]; intros c pos got w k h St; cbn [comment_asterisks].
  - apply yields_out_of_fuel. lia.
  - destruct c as [ch|]; [|now apply yields_ret].
    destruct (Ascii.eqb ch STAR); [|now apply yields_ret].
    pose proof St as S0.
    apply yields_bind. unfold add_char_to_token. touch St.
    get_char St c1.
    eapply yields_conseq; [apply (IH _ _ _ _ _ _ St) | fuel_left |].
    intros r wz St'. revert St'. apply settled_le. lia.
Qed.

(** When the line is left with the comment still open, the character in
    hand is a newline or the stream has ended. *)
Lemma comment_rest_of_line_yields n : forall c pos w k h,
  settled k h c w ->
  yields (comment_rest_of_line n c pos) w (k < n)%nat
         (fun r w' =>
            settled k h (fst (fst r)) w'
            /\ (snd r = false ->
                fst (fst r) = None \/ fst (fst r) = Some NL)).
Proof.
  induction n as [|n IH]; intros c pos w k h St; cbn [comment_rest_of_line].
  - apply yields_out_of_fuel. lia.
  - destruct c as [ch|]; [|apply yields_ret; simpl; auto].
    destruct (Ascii.eqb ch NL) eqn:E.
    { apply Ascii.eqb_eq in E. subst ch. apply yields_ret. simpl. auto. }
    pose proof St as S0.
    apply yields_bind. unfold add_char_to_token. touch St.
    get_char St c1.
    destruct (Ascii.eqb ch STAR && is_chr c1 SLASH).
    + apply yields_ret. simpl. split; [|discriminate].
      revert St. apply settled_le. lia.
    + eapply yields_conseq; [apply (IH _ _ _ _ _ St) | fuel_left |].
      intros r wz (St' & Hr). split; [|exact Hr].
      revert St'. apply settled_le. lia.
Qed.

Lemma comment_lines_yields n : forall pos w k h,
  settled k h None w ->
  yields (comment_lines fuel n pos) w (k < n /\ k < fuel)%nat
         (fun _ w' => settled k h None w').
Proof.
  induction n as [|n IH]; intros pos w k h St; cbn [comment_lines].
  - apply yields_out_of_fuel. lia.
  - apply yields_bind.
    eapply yields_conseq;
      [apply (comment_leading_space_yields _ _ _ _ _ St) | lia |].
    clear St. intros [c pos1] w1 St. cbn [fst] in St.
    apply yields_bind.
    eapply yields_conseq;
      [apply (comment_asterisks_yields _ _ _ _ _ _ _ St) | lia |].
    clear St. intros [[c2 pos2] got] w2 St. cbn [fst] in St.
    apply yields_bind.
    apply yields_conseq with
      (b' := True)
      (Q' := fun r w' => settled k h (fst (fst r)) w');
      [|trivial|].
    { destruct got; [|now apply yields_ret].
      apply yields_bind. touch St.
      destruct (is_chr c2 SLASH); [now apply yields_ret|].
      destruct (is_chr c2 SPACE); [|now apply yields_ret].
      get_char St c3. apply yields_ret. cbn [fst].
      revert St. apply settled_le. lia. }
    clear St. intros [[c3 pos3] stars] w3 St. cbn [fst] in St.
    destruct stars; [apply yields_ret; now apply settled_none in St|].
    apply yields_bind.
    eapply yields_conseq;
      [apply (comment_rest_of_line_yields _ _ _ _ _ _ St) | lia |].
    clear St. intros [[c4 pos4] fin] w4 (St & Hfin). cbn [fst snd] in St, Hfin.
    destruct fin; [apply yields_ret; now apply settled_none in St|].
    destruct (Hfin eq_refl) as [-> | ->].
    + apply yields_bind, yields_get_t, yields_bind, yields_print.
      apply yields_ret. exact St.
    + change (Ascii.eqb NL NL) with true. cbn [negb].
      pose proof St as S0. apply settled_drop in St. cbn [hand] in St.
      assert (Hrec : forall pos' w',
                 settled (k - 1) h None w' ->
                 yields (comment_lines fuel n pos') w'
                        (k < S n /\ k < fuel)%nat
                        (fun _ w'' => settled k h None w'')).
      { intros pos' w' St'.
        eapply yields_conseq; [apply (IH _ _ _ _ St') | fuel_left |].
        intros rz wz Sz. revert Sz. apply settled_le. lia. }
      destruct (negb (pos =? pos4)); [|now apply Hrec].
      apply yields_bind. unfold add_char_to_token. touch St.
      now apply Hrec.
Qed.

Lemma hand_unescape c : hand (unescape c) = hand c.
Proof.
  destruct c as [ch|]; [|reflexivity]. unfold unescape.
  repeat match goal with
         | |- context [if ?b then _ else _] => destruct b
         end; reflexivity.
Qed.

Lemma tokenize_extended_comment_yields w k h :
  settled k h None w ->
  yields (tokenize_extended_comment fuel) w (k < fuel)%nat
         (fun _ w' => parked k h w').
Proof.
  intros St. unfold tokenize_extended_comment.
  apply yields_bind. touch St.
  apply yields_bind.
  eapply yields_conseq;
    [apply (comment_lines_yields _ _ _ _ _ St) | lia |].
  clear St. intros r v1 St. destruct r as [pos|].
  - apply yields_bind. unfold set_type. touch St.
    apply yields_ret. now apply settled_parked in St.
  - apply yields_ret. now apply settled_parked in St.
Qed.

Lemma tokenize_next_internal_yields w :
  buffer_ok (t w) ->
  yields (tokenize_next_internal fuel) w (load w < fuel)%nat
         (fun _ w' => parked (load w) (hasnext (t w)) w').
Proof.
  intros B. unfold tokenize_next_internal.
  apply yields_bind, yields_upd_t, yields_bind, yields_upd_t.
  apply yields_bind, yields_next_char; [exact B|].
  intros c0 v1 St. simpl in St.
  change (load (mkWorld _ _ _)) with (load w) in St.
  apply yields_bind.
  eapply yields_conseq; [apply (skip_space_yields _ _ _ _ _ St) | lia |].
  clear St. intros c v2 St.
  destruct c as [ch|].
  2:{ apply yields_bind. unfold set_type. touch St.
      apply yields_ret. now apply settled_parked in St. }
  apply yields_bind. touch St.
  destruct (Ascii.eqb ch SQUOTE).
  { (* a character literal *)
    apply yields_bind. unfold add_char_to_token. touch St.
    get_char St c1. apply yields_bind.
    apply yields_conseq with
      (b' := True)
      (Q' := fun c w' => settled (load w - 1) (hasnext (t w)) c w');
      [|trivial|].
    { destruct (is_chr c1 BACKSLASH); [|now apply yields_ret].
      get_char St c2. apply yields_ret.
      destruct St as (R & L & H). split; [exact R|].
      split; [|exact H]. rewrite hand_unescape. lia. }
    clear St. intros c2 v5 St.
    assert (Hend : forall w', settled (load w - 1) (hasnext (t w)) None w' ->
                              parked (load w) (hasnext (t w)) w').
    { intros w' S'. apply settled_parked in S'.
      destruct S' as (B' & L' & H'). split; [exact B'|].
      split; [lia|exact H']. }
    destruct c2 as [ch2|];
      [|apply yields_ret, Hend; now apply settled_none in St].
    apply yields_bind. touch St.
    get_char St c3. apply settled_none in St.
    apply (settled_le _ (load w - 1)) in St; [|lia].
    destruct c3 as [q|]; [|apply yields_ret; now apply Hend].
    destruct (Ascii.eqb q SQUOTE); [|apply yields_ret; now apply Hend].
    apply yields_bind. touch St.
    apply yields_bind. unfold set_type. touch St.
    apply yields_ret. now apply Hend. }
  destruct (Ascii.eqb ch DQUOTE).
  { (* a string literal *)
    apply yields_bind. unfold add_char_to_token. touch St.
    apply settled_none in St.
    eapply yields_conseq;
      [apply (string_literal_yields _ _ _ _ _ _ St) | lia |].
    intros r w' S'. now apply settled_parked in S'. }
  destruct (Py.chr_in ch OPERATOR_CHARS).
  { (* an operator *)
    pose proof St as S0.
    apply yields_bind. unfold set_type. touch St.
    apply yields_bind.
    eapply yields_conseq;
      [apply (operator_run_yields _ _ _ _ _ _ St) | lia |].
    clear St. intros pos v4 St. cbn [hand] in St.
    apply yields_bind. eapply unget_parked; [exact St|].
    intros w5 (B5 & L5 & H5). apply yields_ret.
    split; [exact B5|]. split; [|exact H5].
    destruct S0 as (_ & L0 & _). cbn [hand] in L0, L5. lia. }
  destruct (Ascii.eqb ch SLASH).
  { (* a comment, or a slash *)
    pose proof St as S0. destruct S0 as (_ & L0 & _). cbn [hand] in L0.
    apply yields_bind. unfold add_char_to_token. touch St.
    get_char St c1.
    destruct c1 as [ch2|].
    2:{ apply yields_bind. unfold set_type. touch St.
        apply yields_ret. apply settled_parked in St.
        destruct St as (B' & L' & H'). split; [exact B'|].
        split; [lia|exact H']. }
    pose proof St as S1. destruct S1 as (_ & L1 & _). cbn [hand] in L1.
    destruct (Ascii.eqb ch2 STAR).
    { apply settled_drop in St. cbn [hand] in St.
      eapply yields_conseq;
        [apply (tokenize_extended_comment_yields _ _ _ St) | lia |].
      intros r w' (B' & L' & H'). split; [exact B'|].
      split; [lia|exact H']. }
    destruct (Ascii.eqb ch2 SLASH).
    { apply yields_bind. unfold set_type. touch St.
      get_char St c2.
      apply yields_bind.
      eapply yields_conseq;
        [apply (skip_char_yields _ _ _ _ _ _ St) | lia |].
      clear St. intros c3 v6 St.
      apply yields_bind.
      eapply yields_conseq;
        [apply (skip_char_yields _ _ _ _ _ _ St) | lia |].
      clear St. intros c4 v7 St.
      apply yields_bind. touch St.
      apply yields_bind.
      eapply yields_conseq;
        [apply (line_comment_text_yields _ _ _ _ _ _ St) | lia |].
      clear St. intros pos v9 St.
      apply yields_bind. eapply unget_parked; [exact St|].
      intros w10 (B' & L' & H'). apply yields_ret.
      split; [exact B'|]. split; [|exact H'].
      cbn [hand] in L'. lia. }
    apply yields_bind. unfold set_type. touch St.
    apply yields_bind. eapply unget_parked; [exact St|].
    intros w10 (B' & L' & H'). apply yields_ret.
    split; [exact B'|]. split; [|exact H'].
    cbn [hand] in L'. lia. }
  (* a blob *)
  apply yields_bind. unfold set_type. touch St.
  apply yields_bind.
  eapply yields_conseq; [apply (blob_yields _ _ _ _ _ _ St) | lia |].
  intros pos w' P. now apply yields_ret.
Qed.

(** [tokenize_next] resets [hasnext]. *)
Lemma tokenize_next_yields w :
  buffer_ok (t w) ->
  yields (tokenize_next fuel) w (load w < fuel)%nat
         (fun _ w' => parked (load w) 0 w').
Proof.
  intros B. unfold tokenize_next.
  apply yields_bind, yields_get_t.
  destruct (Z.eqb_spec (hasnext (t w)) 0) as [H0|H0]; cbn [negb].
  - rewrite <- H0. now apply tokenize_next_internal_yields.
  - apply yields_bind, yields_upd_t, yields_ret.
    split; [exact B|]. split; [apply Nat.le_refl | reflexivity].
Qed.

(** [tokenize_peek] sets [hasnext] exactly when there is a token. *)
Lemma tokenize_peek_yields w :
  buffer_ok (t w) ->
  yields (tokenize_peek fuel) w (load w < fuel)%nat
         (fun r w' =>
            buffer_ok (t w') /\ (load w' <= load w)%nat
            /\ (hasnext (t w') <> 0 <-> r <> None)).
Proof.
  intros B. unfold tokenize_peek.
  apply yields_bind, yields_get_t.
  destruct (Z.eqb_spec (hasnext (t w)) 0) as [H0|H0]; cbn [negb].
  - apply yields_bind.
    eapply yields_conseq;
      [apply (tokenize_next_yields _ B) | trivial |].
    intros r v1 (B1 & L1 & H1). destruct r as [pos|].
    + apply yields_bind, yields_upd_t, yields_ret.
      split; [exact B1|]. split; [exact L1|]. simpl.
      split; intros _; discriminate.
    + apply yields_ret. split; [exact B1|]. split; [exact L1|].
      rewrite H1. split; intros F; now elim F.
  - apply yields_ret. split; [exact B|]. split; [apply Nat.le_refl|].
    split; intros _; [discriminate | exact H0].
Qed.

End LexerReturns.

(** X10: a call of [tokenize_next] on a well-formed tokenizer returns: no
    [IndexError] from the line buffer, no failed assertion in a block
    comment, no exit; a bound on the loops above the number of characters
    still to read is enough.  The buffer stays well formed, [hasnext]
    is 0, and no more characters are left to read than before. *)
Theorem tokenize_next_returns :
  forall fuel w,
    buffer_ok (t w) -> (load w < fuel)%nat ->
    exists r w',
      tokenize_next fuel w = Ok r w'
      /\ buffer_ok (t w') /\ (load w' <= load w)%nat
      /\ hasnext (t w') = 0.
Proof.
  intros fuel w B Hfuel.
  pose proof (tokenize_next_yields fuel w B) as Y. unfold yields in Y.
  destruct (tokenize_next fuel w) as [r w'| | |]; try contradiction.
  exists r, w'. split; [reflexivity|]. exact Y.
Qed.

Lemma tokenize_next_returns_witness :
  exists r w',
    tokenize_next 16
      (source_world "input.lcm" (Py.chars "/* a") create_lcmgen [])
    = Ok r w'
    /\ buffer_ok (t w')
    /\ (load w'
        <= load (source_world "input.lcm" (Py.chars "/* a")
                              create_lcmgen []))%nat
    /\ hasnext (t w') = 0.
Proof.
  apply (tokenize_next_returns 16).
  - apply create_stream.
  - vm_compute. lia.
Defined.

Section Listing.

Variable fuel : nat.

Lemma dump_tokens_yields n :
  forall k w, buffer_ok (t w) ->
              yields (dump_tokens fuel n k) w False (fun _ _ => True).
Proof.
  induction n as [|n IH]; intros k w B; cbn [dump_tokens].
  - apply yields_out_of_fuel. auto.
  - apply yields_bind.
    eapply yields_conseq;
      [apply (tokenize_next_yields fuel w B) | contradiction |].
    intros r w1 (B1 & _). destruct r as [pos|]; [|now apply yields_ret].
    apply yields_bind, yields_get_t, yields_bind, yields_print.
    now apply IH.
Qed.

End Listing.

(** X11: in [--tokenize] mode [handle_file] on a file that can be opened
    neither raises nor exits: it returns True after the listing, or the
    listing does not end. *)
Theorem token_listing_never_fails :
  forall fuel fs g out path src,
    tokenize (gopt g) = Some true -> dict_get fs path = Some src ->
    (exists g' out', handle_file fuel fs g out path = Done true g' out')
    \/ handle_file fuel fs g out path = Unbounded.
Proof.
  intros fuel fs g out path src Htok Hsrc.
  unfold handle_file. rewrite Hsrc.
  set (w := mkWorld (create path src) g out).
  assert (Y : yields (handle_open_file fuel path) w False
                     (fun suc _ => suc = true)).
  { unfold handle_open_file. apply yields_bind, yields_get_lcmgen.
    change (lcmgen w) with g. rewrite Htok.
    apply yields_bind, yields_print, yields_bind.
    eapply yields_conseq; [apply dump_tokens_yields | trivial |].
    - unfold buffer_ok. simpl. split; [lia|]. left. now split.
    - intros _ w1 _. now apply yields_ret. }
  unfold yields in Y.
  destruct (handle_open_file fuel path w) as [suc w'| | |];
    try contradiction.
  - left. subst suc. now exists (lcmgen w'), (stdout w').
  - now right.
Qed.

Lemma token_listing_witness :
  (exists g' out',
      handle_file 200 Sample.files (configured true) [] "a.lcm"
      = Done true g' out')
  \/ handle_file 200 Sample.files (configured true) [] "a.lcm" = Unbounded.
Proof.
  apply (token_listing_never_fails
           200 Sample.files (configured true) [] "a.lcm"
           (snd (hd (EmptyString, EmptyString) Sample.files)));
    reflexivity.
Defined.

(** X12: a token that [tokenize_peek] has found is handed out by the next
    call without reading on: both [tokenize_peek] and [tokenize_next]
    then return 0, not the length of the token; [tokenize_peek] changes
    nothing, [tokenize_next] only clears [hasnext]. *)
Theorem peeked_token_is_kept :
  forall fuel w r w1,
    tokenize_peek fuel w = Ok (Some r) w1 ->
    tokenize_peek fuel w1 = Ok (Some 0) w1
    /\ tokenize_next fuel w1
       = Ok (Some 0)
            (mkWorld (set_hasnext 0 (t w1)) (lcmgen w1) (stdout w1)).
Proof.
  intros fuel w r w1 H.
  assert (Hh : (hasnext (t w1) =? 0) = false).
  { unfold tokenize_peek, bind, get_t in H.
    destruct (hasnext (t w) =? 0) eqn:E0; cbn [negb] in H.
    - destruct (tokenize_next fuel w) as [[pos|] w2| | |];
        try discriminate.
      unfold upd_t, ret in H. inversion H; subst. reflexivity.
    - unfold ret in H. inversion H; subst. exact E0. }
  unfold tokenize_peek, tokenize_next, bind, get_t.
  rewrite Hh. split; reflexivity.
Qed.

Lemma peeked_token_witness :
  exists w1,
    tokenize_peek 16 w1 = Ok (Some 0) w1
    /\ tokenize_next 16 w1
       = Ok (Some 0)
            (mkWorld (set_hasnext 0 (t w1)) (lcmgen w1) (stdout w1)).
Proof.
  eexists.
  apply (peeked_token_is_kept
           16 (source_world "input.lcm" (Py.chars "struct s") create_lcmgen [])
           6).
  vm_compute. reflexivity.
Defined.

(** ** The text of a token *)

Section Tokens.

Variable o : string * Lcmgen * list string.

Lemma cur_after_cons cur a xs :
  cur_after cur (a :: xs) = cur_after (Some a) xs.
Proof. reflexivity. Qed.

Lemma cur_after_app cur xs ys :
  cur_after cur (xs ++ ys) = cur_after (cur_after cur xs) ys.
Proof. unfold cur_after. apply fold_left_app. Qed.

Lemma cur_after_last cur xs d :
  xs <> [] -> cur_after cur xs = Some (last xs d).
Proof.
  revert cur. induction xs as [|a xs IH]; intros cur H; [congruence|].
  rewrite cur_after_cons. destruct xs as [|b xs']; [reflexivity|].
  rewrite IH by discriminate. reflexivity.
Qed.

Lemma afoot_lexed cur0 l tx ty w :
  afoot o cur0 l tx ty w -> lexed o (tl l) tx ty w.
Proof. intros ((B & _) & _ & P & T). split; [exact B|]. now split. Qed.

Lemma afoot_ext cur0 l tx ty w w' :
  stream (t w') = stream (t w) -> hasnext (t w') = hasnext (t w) ->
  outside w' = outside w ->
  afoot o cur0 l tx ty w ->
  afoot o cur0 l (token (t w')) (token_type (t w')) w'.
Proof.
  intros S H O ((B & U) & C & P & _ & _ & H0 & O0).
  unfold afoot, reading. rewrite (stream_pending _ _ S), H.
  unfold stream in S.
  assert (unget_char (t w') = unget_char (t w)) by congruence.
  assert (current_char (t w') = current_char (t w)) by congruence.
  split; [split|]; [eapply stream_buffer_ok; eauto|congruence|].
  split; [congruence|]. split; [exact P|].
  split; [reflexivity|]. split; [reflexivity|].
  split; [exact H0|congruence].
Qed.

(** The first [next_char] of a call. *)
Lemma next_char_first w b l (Q : option ascii -> World -> Prop) :
  buffer_ok (t w) -> pending (t w) = l -> hasnext (t w) = 0 ->
  outside w = o ->
  (forall w', afoot o (current_char (t w)) l (token (t w))
                    (token_type (t w)) w' ->
              Q (hd_error l) w') ->
  yields next_char w b Q.
Proof.
  intros B P H O HQ. unfold yields.
  destruct (next_char_spec w B) as (w' & E & B' & P' & U & F & C).
  rewrite E, P. apply HQ. unfold rest_frame in F.
  assert (token (t w') = token (t w)) by congruence.
  assert (token_type (t w') = token_type (t w)) by congruence.
  assert (hasnext (t w') = hasnext (t w)) by congruence.
  assert (outside w' = outside w) by (unfold outside; congruence).
  rewrite P in *.
  split; [split; assumption|]. split; [exact C|].
  split; [exact P'|]. split; [assumption|].
  split; [assumption|]. split; congruence.
Qed.

(** A further [next_char]: the character in hand is given up. *)
Lemma next_char_afoot w b cur0 c l tx ty
      (Q : option ascii -> World -> Prop) :
  afoot o cur0 (c :: l) tx ty w ->
  (forall w', afoot o (Some c) l tx ty w' -> Q (hd_error l) w') ->
  yields next_char w b Q.
Proof.
  intros ((B & U) & C & P & T & Ty & H & O) HQ. simpl in C, P.
  apply (next_char_first w b l); auto.
  rewrite C, T, Ty. exact HQ.
Qed.

(** At the end of the stream [next_char] changes nothing. *)
Lemma next_char_at_end w b cur0 tx ty
      (Q : option ascii -> World -> Prop) :
  afoot o cur0 [] tx ty w ->
  (forall w', afoot o cur0 [] tx ty w' -> Q None w') ->
  yields next_char w b Q.
Proof.
  intros ((B & U) & C & P & T & Ty & H & O) HQ. simpl in C, P.
  apply (next_char_first w b []); auto.
  rewrite C, T, Ty. exact HQ.
Qed.

Lemma afoot_add_char w b cur0 l tx ty ch (Q : unit -> World -> Prop) :
  afoot o cur0 l tx ty w ->
  (forall w', afoot o cur0 l (add_char tx ch) ty w' -> Q tt w') ->
  yields (add_char_to_token ch) w b Q.
Proof.
  intros A HQ. apply yields_upd_t, HQ.
  pose proof A as (_ & _ & _ & T & Ty & _).
  set (w' := mkWorld _ _ _).
  pose proof (afoot_ext cur0 l tx ty w w' eq_refl eq_refl eq_refl A)
    as A'.
  change (token (t w')) with (add_char (token (t w)) ch) in A'.
  change (token_type (t w')) with (token_type (t w)) in A'.
  now rewrite T, Ty in A'.
Qed.

Lemma afoot_set_type w b cur0 l tx ty ty' (Q : unit -> World -> Prop) :
  afoot o cur0 l tx ty w ->
  (forall w', afoot o cur0 l tx ty' w' -> Q tt w') ->
  yields (set_type ty') w b Q.
Proof.
  intros A HQ. apply yields_upd_t, HQ.
  pose proof A as (_ & _ & _ & T & Ty & _).
  set (w' := mkWorld _ _ _).
  pose proof (afoot_ext cur0 l tx ty w w' eq_refl eq_refl eq_refl A)
    as A'.
  change (token (t w')) with (token (t w)) in A'.
  change (token_type (t w')) with ty' in A'.
  now rewrite T in A'.
Qed.

(** An update of the token position or of the token text. *)
Lemma afoot_upd w b cur0 l tx ty f (Q : unit -> World -> Prop) :
  (forall tk, stream (f tk) = stream tk /\ hasnext (f tk) = hasnext tk
              /\ path (f tk) = path tk) ->
  afoot o cur0 l tx ty w ->
  (forall w',
      afoot o cur0 l (token (f (t w))) (token_type (f (t w))) w' ->
      Q tt w') ->
  yields (upd_t f) w b Q.
Proof.
  intros Hf A HQ. apply yields_upd_t, HQ.
  destruct (Hf (t w)) as (Hs & Hh & Hp).
  apply (afoot_ext cur0 l tx ty w
           (mkWorld (f (t w)) (lcmgen w) (stdout w)) Hs Hh); [|exact A].
  unfold outside. simpl. now rewrite Hp.
Qed.

(** [unget] gives back the character in hand; at the end of the stream
    it gives back the last character read. *)
Lemma unget_afoot w b cur0 l tx ty (Q : unit -> World -> Prop) :
  afoot o cur0 l tx ty w ->
  (forall w',
      lexed o (match l with
             | [] => match cur0 with Some c => [c] | None => [] end
             | _ => l
             end) tx ty w' -> Q tt w') ->
  yields unget w b Q.
Proof.
  intros ((B & U) & C & P & T & Ty & H & O) HQ.
  unfold unget. apply yields_upd_t, HQ.
  split; [exact B|]. split; [|now repeat split].
  unfold pending in *. simpl. unfold buffered in *. simpl.
  rewrite U in P. simpl in P. rewrite C, P.
  destruct l as [|c l]; [now rewrite app_nil_r|reflexivity].
Qed.

Lemma in_chars c xs : Py.chr_in c xs = true -> In c xs.
Proof.
  unfold Py.chr_in. intros H. apply existsb_exists in H.
  destruct H as (y & Hy & E). apply Ascii.eqb_eq in E. now subst.
Qed.

(** The characters that end a blob are not white space. *)
Lemma terminator_not_space c :
  Py.chr_in c SINGLE_CHAR_TOKENS = true
  \/ Py.chr_in c OPERATOR_CHARS = true ->
  Py.isspace c = false.
Proof.
  intros [H|H]; apply in_chars in H; simpl in H;
    repeat (destruct H as [<-|H]; [reflexivity|]); contradiction.
Qed.

Lemma space_not_terminator c :
  Py.isspace c = true ->
  Py.chr_in c SINGLE_CHAR_TOKENS = false
  /\ Py.chr_in c OPERATOR_CHARS = false.
Proof.
  intros H.
  split.
  - destruct (Py.chr_in c SINGLE_CHAR_TOKENS) eqn:E; [|reflexivity].
    rewrite terminator_not_space in H by now left. discriminate.
  - destruct (Py.chr_in c OPERATOR_CHARS) eqn:E; [|reflexivity].
    rewrite terminator_not_space in H by now right. discriminate.
Qed.

Lemma skip_space_afoot : forall ws n cur0 tail tx ty w,
  Forall space ws ->
  match tail with c :: _ => Py.isspace c = false | [] => True end ->
  afoot o cur0 (ws ++ tail) tx ty w ->
  yields (skip_space n (hd_error (ws ++ tail))) w
         (List.length ws < n)%nat
         (fun c' w' => c' = hd_error tail
                       /\ afoot o (cur_after cur0 ws) tail tx ty w').
Proof.
  induction ws as [|a ws IH]; intros n cur0 tail tx ty w Hws Htail A;
    (destruct n as [|n];
     [apply yields_out_of_fuel; simpl; lia|]); cbn [skip_space app].
  - destruct tail as [|c r]; cbn [hd_error].
    + apply yields_ret. now split.
    + rewrite Htail. apply yields_ret. now split.
  - inversion Hws as [|? ? Ha Hws']; subst. cbn [hd_error].
    unfold space in Ha. rewrite Ha.
    apply yields_bind. eapply next_char_afoot; [exact A|]. intros w1 A1.
    eapply yields_conseq;
      [apply (IH n (Some a) tail tx ty w1 Hws' Htail A1)
      |simpl; lia|].
    intros c' w' Hpost. exact Hpost.
Qed.

Lemma skip_char_afoot x : forall xs n cur0 tail tx ty w,
  Forall (eq x) xs -> hd_error tail <> Some x ->
  afoot o cur0 (xs ++ tail) tx ty w ->
  yields (skip_char n x (hd_error (xs ++ tail))) w
         (List.length xs < n)%nat
         (fun c' w' => c' = hd_error tail
                       /\ afoot o (cur_after cur0 xs) tail tx ty w').
Proof.
  induction xs as [|a xs IH]; intros n cur0 tail tx ty w Hxs Htail A;
    (destruct n as [|n];
     [apply yields_out_of_fuel; simpl; lia|]); cbn [skip_char app].
  - assert (is_chr (hd_error tail) x = false) as ->.
    { destruct (hd_error tail) as [ch|]; simpl; auto.
      destruct (Ascii.eqb_spec ch x); congruence. }
    apply yields_ret. now split.
  - inversion Hxs as [|? ? Hax Hxs']. subst a. cbn [hd_error is_chr].
    rewrite Ascii.eqb_refl.
    apply yields_bind. eapply next_char_afoot; [exact A|]. intros w1 A1.
    eapply yields_conseq;
      [apply (IH n (Some x) tail tx ty w1 Hxs' Htail A1)
      |simpl; lia|].
    intros c' w' Hpost. exact Hpost.
Qed.

Lemma text_add_char tx a l :
  add_char tx a ++ string_of_list_ascii l
  = tx ++ string_of_list_ascii (a :: l).
Proof. apply append_char. Qed.

Lemma text_app tx l1 l2 :
  (tx ++ string_of_list_ascii l1) ++ string_of_list_ascii l2
  = tx ++ string_of_list_ascii (l1 ++ l2).
Proof.
  revert tx. induction l1 as [|a l1 IH]; intros tx; simpl.
  - now rewrite append_empty.
  - rewrite <- (append_char tx a (string_of_list_ascii l1)).
    rewrite IH. now rewrite append_char.
Qed.

Lemma operator_run_afoot : forall ops n cur0 tail tx ty pos w,
  Forall is_operator ops ->
  match tail with
  | c :: _ => Py.chr_in c OPERATOR_CHARS = false
  | [] => True
  end ->
  afoot o cur0 (ops ++ tail) tx ty w ->
  yields (operator_run n (hd_error (ops ++ tail)) pos) w
         (List.length ops < n)%nat
         (fun r w' =>
            r = pos + Z.of_nat (List.length ops)
            /\ afoot o (cur_after cur0 ops) tail
                     (tx ++ string_of_list_ascii ops) ty w').
Proof.
  induction ops as [|a ops IH];
    intros n cur0 tail tx ty pos w Hops Htail A;
    (destruct n as [|n];
     [apply yields_out_of_fuel; simpl; lia|]); cbn [operator_run app].
  - cbn [string_of_list_ascii List.length Z.of_nat cur_after fold_left].
    rewrite append_empty, Z.add_0_r.
    destruct tail as [|c r]; cbn [hd_error].
    + apply yields_ret. now split.
    + rewrite Htail. apply yields_ret. now split.
  - inversion Hops as [|? ? Ha Hops']; subst. cbn [hd_error].
    unfold is_operator in Ha. rewrite Ha.
    apply yields_bind. eapply afoot_add_char; [exact A|]. intros w0 A0.
    apply yields_bind. eapply next_char_afoot; [exact A0|]. intros w1 A1.
    eapply yields_conseq;
      [apply (IH n (Some a) tail _ ty (pos + 1) w1 Hops' Htail A1)
      |simpl; lia|].
    intros r w' (Hr & A'). split.
    + rewrite Hr. cbn [List.length]. lia.
    + rewrite <- text_add_char. exact A'.
Qed.

Lemma line_comment_text_afoot : forall text n cur0 tail tx ty pos w,
  Forall (fun ch => ch <> NL) text ->
  hd_error tail = None \/ hd_error tail = Some NL ->
  afoot o cur0 (text ++ tail) tx ty w ->
  yields (line_comment_text n (hd_error (text ++ tail)) pos) w
         (List.length text < n)%nat
         (fun r w' =>
            r = pos + Z.of_nat (List.length text)
            /\ afoot o (cur_after cur0 text) tail
                     (tx ++ string_of_list_ascii text) ty w').
Proof.
  induction text as [|a text IH];
    intros n cur0 tail tx ty pos w Htext Htail A;
    (destruct n as [|n];
     [apply yields_out_of_fuel; simpl; lia|]);
    cbn [line_comment_text app].
  - cbn [string_of_list_ascii List.length Z.of_nat cur_after fold_left].
    rewrite append_empty, Z.add_0_r.
    destruct Htail as [-> | ->]; [|rewrite Ascii.eqb_refl];
      apply yields_ret; now split.
  - inversion Htext as [|? ? Ha Htext']; subst. cbn [hd_error].
    destruct (Ascii.eqb_spec a NL) as [|_]; [contradiction|].
    apply yields_bind. eapply afoot_add_char; [exact A|]. intros w0 A0.
    apply yields_bind. eapply next_char_afoot; [exact A0|]. intros w1 A1.
    eapply yields_conseq;
      [apply (IH n (Some a) tail _ ty (pos + 1) w1 Htext' Htail A1)
      |simpl; lia|].
    intros r w' (Hr & A'). split.
    + rewrite Hr. cbn [List.length]. lia.
    + rewrite <- text_add_char. exact A'.
Qed.

Lemma blob_afoot : forall word a n cur0 tail tx ty pos w,
  plain a -> Forall plain word -> ends_blob tail ->
  afoot o cur0 (a :: word ++ tail) tx ty w ->
  yields (blob n (Some a) pos) w (S (List.length word) < n)%nat
         (fun r w' =>
            r = pos + Z.of_nat (S (List.length word))
            /\ lexed o (after_blob tail)
                     (tx ++ string_of_list_ascii (a :: word)) ty w').
Proof.
  induction word as [|b word IH];
    intros a n cur0 tail tx ty pos w (Ha1 & Ha2 & Ha3) Hword Htail A;
    (destruct n as [|n];
     [apply yields_out_of_fuel; simpl; lia|]); cbn [blob].
  - rewrite Ha1.
    apply yields_bind. eapply afoot_add_char; [exact A|]. intros w0 A0.
    rewrite Ha2.
    apply yields_bind. eapply next_char_afoot; [exact A0|]. intros w1 A1.
    cbn [app] in *. rewrite <- text_add_char. cbn [string_of_list_ascii].
    rewrite append_empty.
    destruct tail as [|c r]; cbn [hd_error opt_in orb].
    + destruct n as [|n]; [apply yields_out_of_fuel; simpl; lia|].
      cbn [blob]. apply yields_ret. split; [simpl; lia|].
      exact (afoot_lexed _ _ _ _ _ A1).
    + destruct (Py.chr_in c SINGLE_CHAR_TOKENS || Py.chr_in c OPERATOR_CHARS)
        eqn:E.
      * apply yields_bind. eapply unget_afoot; [exact A1|]. intros w2 L2.
        apply yields_ret. split; [simpl; lia|]. cbn [after_blob].
        apply orb_true_iff in E.
        now rewrite (terminator_not_space c E).
      * apply orb_false_iff in E. destruct E as (E1 & E2).
        destruct Htail as [Hs|[Hs|Hs]]; try congruence.
        destruct n as [|n]; [apply yields_out_of_fuel; simpl; lia|].
        cbn [blob after_blob]. rewrite Hs. apply yields_ret.
        split; [simpl; lia|]. exact (afoot_lexed _ _ _ _ _ A1).
  - inversion Hword as [|? ? Hb Hword']; subst.
    rewrite Ha1.
    apply yields_bind. eapply afoot_add_char; [exact A|]. intros w0 A0.
    rewrite Ha2.
    apply yields_bind. eapply next_char_afoot; [exact A0|]. intros w1 A1.
    cbn [app hd_error opt_in] in *.
    pose proof Hb as (Hb1 & Hb2 & Hb3). rewrite Hb2, Hb3. cbn [orb].
    eapply yields_conseq;
      [apply (IH b n (Some a) tail _ ty (pos + 1) w1 Hb Hword' Htail A1)
      |simpl; lia|].
    intros r w' (Hr & L'). split.
    + rewrite Hr. cbn [List.length]. lia.
    + rewrite <- text_add_char. exact L'.
Qed.

Lemma yields_ok {A} (m : M A) w (b : Prop) (Q : A -> World -> Prop) :
  yields m w b Q -> b -> exists a w', m w = Ok a w' /\ Q a w'.
Proof.
  unfold yields. intros Y Hb.
  destruct (m w) as [a w'| | |]; try contradiction. now exists a, w'.
Qed.

Lemma afoot_clear w b cur0 l tx ty (Q : unit -> World -> Prop) :
  afoot o cur0 l tx ty w ->
  (forall w', afoot o cur0 l EmptyString ty w' -> Q tt w') ->
  yields (upd_t (set_token EmptyString)) w b Q.
Proof.
  intros A HQ. eapply afoot_upd; [|exact A|].
  - intros tk. repeat split; reflexivity.
  - intros w' A'. apply HQ.
    pose proof A as (_ & _ & _ & _ & Ty & _).
    change (token (set_token EmptyString (t w))) with EmptyString in A'.
    change (token_type (set_token EmptyString (t w)))
      with (token_type (t w)) in A'.
    now rewrite Ty in A'.
Qed.

(** A token is starting: its position is marked. *)
Lemma afoot_mark w b cur0 l tx ty (Q : unit -> World -> Prop) :
  afoot o cur0 l tx ty w ->
  (forall w', afoot o cur0 l tx ty w' -> Q tt w') ->
  yields (upd_t (fun t => set_token_column (current_column t)
                            (set_token_line (current_line t) t))) w b Q.
Proof.
  intros A HQ. eapply afoot_upd; [|exact A|].
  - intros tk. repeat split; reflexivity.
  - intros w' A'. apply HQ.
    pose proof A as (_ & _ & _ & T & Ty & _).
    cbv beta in A'.
    change (token (set_token_column (current_column (t w))
                     (set_token_line (current_line (t w)) (t w))))
      with (token (t w)) in A'.
    change (token_type (set_token_column (current_column (t w))
                          (set_token_line (current_line (t w)) (t w))))
      with (token_type (t w)) in A'.
    now rewrite T, Ty in A'.
Qed.

(** The start of [tokenize_next_internal]: the token is reset and the
    white space [ws] is skipped. *)
Lemma token_start fuel w (b : Prop) ws rest
      (k : option ascii -> M (option Z))
      (Q : option Z -> World -> Prop) :
  buffer_ok (t w) -> hasnext (t w) = 0 -> outside w = o ->
  pending (t w) = (ws ++ rest)%list -> Forall space ws ->
  match rest with c :: _ => Py.isspace c = false | [] => True end ->
  (b -> (List.length ws < fuel)%nat) ->
  (forall w',
      afoot o (cur_after (current_char (t w)) ws) rest EmptyString INVALID
            w' ->
      yields (k (hd_error rest)) w' b Q) ->
  yields (set_type INVALID ;; upd_t (set_token EmptyString) ;;
          c <- next_char ;; c <- skip_space fuel c ;; k c) w b Q.
Proof.
  intros B H O P Hws Hrest Hfuel Hk.
  apply yields_bind, yields_upd_t, yields_bind, yields_upd_t.
  apply yields_bind.
  eapply next_char_first; [exact B | exact P | exact H | exact O |].
  intros w1 A1. cbn [t token token_type set_token set_token_type] in A1.
  change (current_char _) with (current_char (t w)) in A1.
  apply yields_bind.
  eapply yields_conseq;
    [apply (skip_space_afoot ws fuel _ rest _ _ w1 Hws Hrest A1)
    |exact Hfuel|].
  intros c w2 (-> & A2). now apply Hk.
Qed.

Ltac start_token B H O P :=
  unfold tokenize_next; apply yields_bind, yields_get_t;
  rewrite H; cbn [Z.eqb negb]; unfold tokenize_next_internal;
  eapply token_start; [exact B | exact H | exact O | exact P | | | |].

Lemma not_in_chars c x xs :
  Py.chr_in c xs = false -> In x xs -> Ascii.eqb c x = false.
Proof.
  unfold Py.chr_in. intros H Hin.
  destruct (Ascii.eqb c x) eqn:E; [|reflexivity].
  rewrite <- H. symmetry. apply existsb_exists. now exists x.
Qed.

Lemma blob_token_yields fuel w ws a word tail :
  buffer_ok (t w) -> hasnext (t w) = 0 -> outside w = o ->
  pending (t w) = (ws ++ a :: word ++ tail)%list ->
  Forall space ws -> plain a -> a <> SLASH -> Forall plain word ->
  ends_blob tail ->
  yields (tokenize_next fuel) w
         (List.length ws + List.length word + 1 < fuel)%nat
         (fun r w' =>
            r = Some (Z.of_nat (S (List.length word)))
            /\ lexed o (after_blob tail)
                     (string_of_list_ascii (a :: word)) OTHER w').
Proof.
  intros B H O P Hws Ha Hslash Hword Htail.
  pose proof Ha as (Ha1 & Ha2 & Ha3).
  start_token B H O P; [exact Hws | exact Ha1 | lia |].
  intros w1 A1. cbn [hd_error].
  apply yields_bind. eapply afoot_mark; [exact A1|]. clear A1.
  intros w2 A2.
  rewrite (not_in_chars a SQUOTE _ Ha2) by (simpl; auto 10).
  rewrite (not_in_chars a DQUOTE _ Ha2) by (simpl; auto 10).
  rewrite Ha3.
  destruct (Ascii.eqb_spec a SLASH) as [|_]; [contradiction|].
  apply yields_bind. eapply afoot_set_type; [exact A2|]. clear A2.
  intros w3 A3.
  apply yields_bind.
  eapply yields_conseq;
    [apply (blob_afoot word a fuel _ tail _ _ 0 w3 Ha Hword Htail A3)
    |lia|].
  intros r w' (-> & L). apply yields_ret. split; [|exact L].
  f_equal.
Qed.

Lemma single_character_facts x :
  In x (Py.chars "();,:[]") ->
  Py.isspace x = false /\ Ascii.eqb x SQUOTE = false
  /\ Ascii.eqb x DQUOTE = false /\ Py.chr_in x OPERATOR_CHARS = false
  /\ Ascii.eqb x SLASH = false
  /\ Py.chr_in x SINGLE_CHAR_TOKENS = true.
Proof.
  simpl. intros H.
  repeat (destruct H as [<-|H]; [repeat split; reflexivity|]).
  contradiction.
Qed.

Lemma single_character_yields fuel w ws x tail :
  buffer_ok (t w) -> hasnext (t w) = 0 -> outside w = o ->
  pending (t w) = (ws ++ x :: tail)%list ->
  Forall space ws -> In x (Py.chars "();,:[]") ->
  yields (tokenize_next fuel) w (List.length ws + 1 < fuel)%nat
         (fun r w' =>
            r = Some 1 /\ lexed o tail (String x EmptyString) OTHER w').
Proof.
  intros B H O P Hws Hx.
  destruct (single_character_facts x Hx)
    as (X1 & X2 & X3 & X4 & X5 & X6).
  start_token B H O P; [exact Hws | exact X1 | lia |].
  intros w1 A1. cbn [hd_error].
  apply yields_bind. eapply afoot_mark; [exact A1|]. clear A1.
  intros w2 A2. rewrite X2, X3, X4, X5.
  apply yields_bind. eapply afoot_set_type; [exact A2|]. clear A2.
  intros w3 A3.
  apply yields_bind.
  destruct fuel as [|n]; [apply yields_out_of_fuel; lia|].
  cbn [blob]. rewrite X1.
  apply yields_bind. eapply afoot_add_char; [exact A3|]. clear A3.
  intros w4 A4. rewrite X6.
  apply yields_ret, yields_ret. split; [reflexivity|].
  exact (afoot_lexed _ _ _ _ _ A4).
Qed.

(** What [unget] leaves after a run of characters [run] that started
    with [a]: the character that ended the run, or at the end of the
    stream the last character of the run. *)
Lemma operator_token_yields fuel w ws a ops tail :
  buffer_ok (t w) -> hasnext (t w) = 0 -> outside w = o ->
  pending (t w) = (ws ++ a :: ops ++ tail)%list ->
  Forall space ws -> Forall is_operator (a :: ops) ->
  match tail with
  | c :: _ => Py.chr_in c OPERATOR_CHARS = false
  | [] => True
  end ->
  yields (tokenize_next fuel) w
         (List.length ws + List.length ops + 1 < fuel)%nat
         (fun r w' =>
            r = Some (Z.of_nat (S (List.length ops)))
            /\ lexed o (match tail with [] => [last ops a] | _ => tail end)
                     (string_of_list_ascii (a :: ops)) OTHER w').
Proof.
  intros B H O P Hws Hops Htail.
  assert (Ha : is_operator a) by now inversion Hops.
  destruct (operator_plain a Ha) as (X1 & X2 & X3).
  start_token B H O P; [exact Hws | exact X1 | lia |].
  intros w1 A1. cbn [hd_error].
  apply yields_bind. eapply afoot_mark; [exact A1|]. clear A1.
  intros w2 A2. rewrite X2, X3. unfold is_operator in Ha. rewrite Ha.
  apply yields_bind. eapply afoot_set_type; [exact A2|]. clear A2.
  intros w3 A3.
  apply yields_bind.
  eapply yields_conseq;
    [apply (operator_run_afoot (a :: ops) fuel _ tail _ _ 0 w3 Hops
              Htail A3)
    |simpl; lia|].
  intros r w4 (-> & A4).
  apply yields_bind. eapply unget_afoot; [exact A4|]. intros w5 L5.
  apply yields_ret. split; [f_equal|].
  rewrite (cur_after_last _ (a :: ops) a) in L5 by discriminate.
  rewrite last_cons in L5. exact L5.
Qed.

Lemma white_space_yields fuel w ws :
  buffer_ok (t w) -> hasnext (t w) = 0 -> outside w = o ->
  pending (t w) = ws ->
  Forall space ws ->
  yields (tokenize_next fuel) w (List.length ws < fuel)%nat
         (fun r w' => r = None /\ lexed o [] EmptyString INVALID w').
Proof.
  intros B H O P Hws. rewrite <- (app_nil_r ws) in P.
  start_token B H O P; [exact Hws | exact I | lia |].
  intros w1 A1. cbn [hd_error].
  apply yields_bind. eapply afoot_set_type; [exact A1|]. clear A1.
  intros w2 A2. apply yields_ret. split; [reflexivity|].
  exact (afoot_lexed _ _ _ _ _ A2).
Qed.

Lemma line_comment_yields fuel w ws slashes spaces text tail :
  buffer_ok (t w) -> hasnext (t w) = 0 -> outside w = o ->
  pending (t w)
  = (ws ++ SLASH :: SLASH :: slashes ++ spaces ++ text ++ tail)%list ->
  Forall space ws ->
  Forall (eq SLASH) slashes -> Forall (eq SPACE) spaces ->
  Forall (fun ch => ch <> NL) text ->
  hd_error text <> Some SPACE ->
  (spaces = [] -> hd_error text <> Some SLASH) ->
  hd_error tail = None \/ hd_error tail = Some NL ->
  yields (tokenize_next fuel) w
         (List.length ws + List.length (slashes ++ spaces ++ text) + 2
          < fuel)%nat
         (fun r w' =>
            r = Some (Z.of_nat (List.length text))
            /\ lexed o (match tail with
                      | [] => [last (slashes ++ spaces ++ text) SLASH]
                      | _ => tail
                      end)
                     (string_of_list_ascii text) COMMENT w').
Proof.
  intros B H O P Hws Hsl Hsp Htx Hns Hnsl Htail.
  start_token B H O P; [exact Hws | reflexivity | lia |].
  intros w1 A1. cbn [hd_error].
  apply yields_bind. eapply afoot_mark; [exact A1|]. clear A1.
  intros w2 A2.
  change (Ascii.eqb SLASH SQUOTE) with false.
  change (Ascii.eqb SLASH DQUOTE) with false.
  change (Py.chr_in SLASH OPERATOR_CHARS) with false.
  change (Ascii.eqb SLASH SLASH) with true. cbv iota.
  apply yields_bind. eapply afoot_add_char; [exact A2|]. clear A2.
  intros w3 A3.
  apply yields_bind. eapply next_char_afoot; [exact A3|]. clear A3.
  intros w4 A4. cbn [hd_error].
  change (Ascii.eqb SLASH STAR) with false.
  change (Ascii.eqb SLASH SLASH) with true. cbv iota.
  apply yields_bind. eapply afoot_set_type; [exact A4|]. clear A4.
  intros w5 A5.
  apply yields_bind. eapply next_char_afoot; [exact A5|]. clear A5.
  intros w6 A6.
  assert (Hh1 : hd_error (spaces ++ text ++ tail) <> Some SLASH).
  { apply hd_app_ne.
    - intros Hs. apply hd_app_ne; [|intros _; now apply Hnsl].
      intros _. destruct Htail as [-> | ->]; discriminate.
    - intros Hs. destruct Hsp as [|? ? <-]; [congruence|discriminate]. }
  assert (Hh2 : hd_error (text ++ tail) <> Some SPACE).
  { apply hd_app_ne; [|intros _; exact Hns].
    intros _. destruct Htail as [-> | ->]; discriminate. }
  rewrite !length_app.
  apply yields_bind.
  eapply yields_conseq;
    [apply (skip_char_afoot SLASH slashes fuel _ _ _ _ w6 Hsl Hh1 A6)
    |lia|].
  clear A6. intros c7 w7 (-> & A7).
  apply yields_bind.
  eapply yields_conseq;
    [apply (skip_char_afoot SPACE spaces fuel _ _ _ _ w7 Hsp Hh2 A7)
    |lia|].
  clear A7. intros c8 w8 (-> & A8).
  apply yields_bind. eapply afoot_clear; [exact A8|]. clear A8.
  intros w9 A9.
  apply yields_bind.
  eapply yields_conseq;
    [apply (line_comment_text_afoot text fuel _ tail _ _ 0 w9 Htx Htail
              A9)
    |lia|].
  clear A9. intros r w10 (-> & A10).
  apply yields_bind. eapply unget_afoot; [exact A10|]. intros w11 L11.
  apply yields_ret. split; [f_equal|].
  rewrite <- !cur_after_app in L11.
  destruct (slashes ++ spaces ++ text)%list as [|x xs] eqn:E.
  - exact L11.
  - rewrite (cur_after_last _ (x :: xs) SLASH) in L11 by discriminate.
    exact L11.
Qed.

Lemma has_close_tail a l : has_close (a :: l) = false -> has_close l = false.
Proof.
  cbn [has_close]. destruct l as [|b l]; [reflexivity|].
  intros H. now apply orb_false_iff in H.
Qed.

Lemma has_close_head a b l :
  has_close (a :: b :: l) = false -> a = STAR -> b <> SLASH.
Proof.
  cbn [has_close]. intros H -> ->.
  apply orb_false_iff in H. destruct H as (H & _). discriminate.
Qed.

Lemma comment_leading_space_afoot : forall lead n cur0 c0 rest tx ty pos w,
  Forall blank lead ->
  match rest with c :: _ => c <> SPACE /\ c <> TAB | [] => True end ->
  afoot o cur0 (c0 :: lead ++ rest) tx ty w ->
  yields (comment_leading_space n pos) w (List.length lead < n)%nat
         (fun r w' =>
            r = (hd_error rest, pos + Z.of_nat (List.length lead))
            /\ afoot o (cur_after (Some c0) lead) rest
                     (tx ++ string_of_list_ascii lead) ty w').
Proof.
  induction lead as [|a lead IH];
    intros n cur0 c0 rest tx ty pos w Hlead Hrest A;
    (destruct n as [|n];
     [apply yields_out_of_fuel; simpl; lia|]);
    cbn [comment_leading_space app].
  - cbn [app] in A.
    apply yields_bind. eapply next_char_afoot; [exact A|]. intros w1 A1.
    cbn [string_of_list_ascii List.length Z.of_nat cur_after fold_left].
    rewrite append_empty, Z.add_0_r.
    destruct rest as [|c r]; cbn [hd_error].
    + apply yields_ret. now split.
    + destruct Hrest as (H1 & H2).
      destruct (Ascii.eqb_spec c SPACE) as [|_]; [contradiction|].
      destruct (Ascii.eqb_spec c TAB) as [|_]; [contradiction|].
      apply yields_ret. now split.
  - inversion Hlead as [|? ? Ha Hlead']; subst. cbn [app] in A.
    apply yields_bind. eapply next_char_afoot; [exact A|]. intros w1 A1.
    cbn [hd_error].
    assert (Hb : Ascii.eqb a SPACE || Ascii.eqb a TAB = true).
    { destruct Ha as [-> | ->]; reflexivity. }
    rewrite Hb.
    apply yields_bind. eapply afoot_add_char; [exact A1|]. intros w2 A2.
    eapply yields_conseq;
      [apply (IH n (Some c0) a rest _ ty (pos + 1) w2 Hlead' Hrest A2)
      |simpl; lia|].
    intros r w' (-> & A'). split.
    + f_equal. cbn [List.length]. lia.
    + rewrite <- text_add_char. exact A'.
Qed.

(** The rest of a line that holds the end of the comment: the asterisk
    of the end is added to the token like any other character. *)
Lemma comment_rest_of_line_afoot : forall text n cur0 tail tx ty pos w,
  Forall (fun ch => ch <> NL) text ->
  has_close (text ++ [STAR]) = false ->
  afoot o cur0 (text ++ STAR :: SLASH :: tail) tx ty w ->
  yields (comment_rest_of_line n (hd_error (text ++ STAR :: SLASH :: tail))
                               pos) w
         (List.length text < n)%nat
         (fun r w' =>
            r = (Some SLASH, pos + Z.of_nat (List.length text), true)
            /\ afoot o (Some STAR) (SLASH :: tail)
                     (tx ++ string_of_list_ascii (text ++ [STAR])) ty w').
Proof.
  induction text as [|a text IH];
    intros n cur0 tail tx ty pos w Htext Hopen A;
    (destruct n as [|n];
     [apply yields_out_of_fuel; simpl; lia|]);
    cbn [comment_rest_of_line];
    rewrite <- ?app_comm_cons, ?app_nil_l in *; cbn [hd_error].
  - change (Ascii.eqb STAR NL) with false. cbv iota.
    apply yields_bind. eapply afoot_add_char; [exact A|]. intros w1 A1.
    apply yields_bind. eapply next_char_afoot; [exact A1|]. intros w2 A2.
    cbn [hd_error is_chr]. rewrite !Ascii.eqb_refl. cbn [andb].
    apply yields_ret. split.
    + f_equal. f_equal. cbn [List.length Z.of_nat]. lia.
    + exact A2.
  - inversion Htext as [|? ? Ha Htext']; subst.
    destruct (Ascii.eqb_spec a NL) as [|_]; [contradiction|].
    apply yields_bind. eapply afoot_add_char; [exact A|]. intros w1 A1.
    apply yields_bind. eapply next_char_afoot; [exact A1|]. intros w2 A2.
    assert (Hnot : Ascii.eqb a STAR
                   && is_chr (hd_error (text ++ STAR :: SLASH :: tail))
                             SLASH = false).
    { destruct (Ascii.eqb_spec a STAR) as [->|]; [|reflexivity].
      cbn [andb]. destruct text as [|b text']; [reflexivity|].
      cbn [app hd_error is_chr].
      apply Ascii.eqb_neq.
      now apply (has_close_head STAR b (text' ++ [STAR])). }
    rewrite Hnot.
    eapply yields_conseq;
      [apply (IH n (Some a) tail _ ty (pos + 1) w2 Htext'
                 (has_close_tail _ _ Hopen) A2)
      |simpl; lia|].
    intros r w' (-> & A'). split.
    + f_equal. f_equal. cbn [List.length]. lia.
    + rewrite <- text_add_char. exact A'.
Qed.

Lemma block_comment_yields fuel w ws lead x body tail :
  buffer_ok (t w) -> hasnext (t w) = 0 -> outside w = o ->
  pending (t w)
  = (ws ++ SLASH :: STAR :: lead ++ x :: body
        ++ STAR :: SLASH :: tail)%list ->
  Forall space ws -> Forall blank lead ->
  x <> SPACE -> x <> TAB -> x <> STAR ->
  Forall (fun ch => ch <> NL) (x :: body) ->
  has_close (x :: body ++ [STAR]) = false ->
  yields (tokenize_next fuel) w
         (List.length ws + List.length lead + List.length body + 2
          < fuel)%nat
         (fun r w' =>
            r = Some (Z.of_nat (List.length lead + List.length body + 1))
            /\ lexed o tail
                     (string_of_list_ascii (lead ++ x :: body ++ [STAR]))
                     COMMENT w').
Proof.
  intros B H O P Hws Hlead Hx1 Hx2 Hx3 Hbody Hopen.
  start_token B H O P; [exact Hws | reflexivity | lia |].
  intros w1 A1. cbn [hd_error].
  apply yields_bind. eapply afoot_mark; [exact A1|]. clear A1.
  intros w2 A2.
  change (Ascii.eqb SLASH SQUOTE) with false.
  change (Ascii.eqb SLASH DQUOTE) with false.
  change (Py.chr_in SLASH OPERATOR_CHARS) with false.
  change (Ascii.eqb SLASH SLASH) with true. cbv iota.
  apply yields_bind. eapply afoot_add_char; [exact A2|]. clear A2.
  intros w3 A3.
  apply yields_bind. eapply next_char_afoot; [exact A3|]. clear A3.
  intros w4 A4. cbn [hd_error].
  change (Ascii.eqb STAR STAR) with true. cbv iota.
  unfold tokenize_extended_comment.
  apply yields_bind. eapply afoot_clear; [exact A4|]. clear A4.
  intros w5 A5.
  apply yields_bind.
  destruct fuel as [|n]; [apply yields_out_of_fuel; lia|].
  cbn [comment_lines].
  apply yields_bind.
  eapply yields_conseq;
    [apply (comment_leading_space_afoot
              lead (S n) _ STAR (x :: body ++ STAR :: SLASH :: tail)
              _ _ 0 w5 Hlead (conj Hx1 Hx2) A5)
    |lia|].
  clear A5. intros r w6 (-> & A6). cbn [hd_error].
  apply yields_bind. cbn [comment_asterisks].
  destruct (Ascii.eqb_spec x STAR) as [|_]; [contradiction|].
  apply yields_ret, yields_bind, yields_ret, yields_bind.
  eapply yields_conseq;
    [apply (comment_rest_of_line_afoot
              (x :: body) (S n) _ tail _ _ _ w6 Hbody Hopen A6)
    |simpl; lia|].
  clear A6. intros r w7 (-> & A7).
  apply yields_ret, yields_bind.
  eapply afoot_set_type; [exact A7|]. clear A7. intros w8 A8.
  apply yields_ret. split.
  - f_equal. cbn [List.length]. lia.
  - apply afoot_lexed in A8. cbn [tl] in A8.
    rewrite text_app in A8. exact A8.
Qed.

(** *** A block comment without an end *)

Lemma amid_touch f w b cur0 l ty (Q : unit -> World -> Prop) :
  (forall tk, stream (f tk) = stream tk /\ hasnext (f tk) = hasnext tk
              /\ path (f tk) = path tk
              /\ token_type (f tk) = token_type tk) ->
  amid o cur0 l ty w ->
  (forall w', amid o cur0 l ty w' -> Q tt w') ->
  yields (upd_t f) w b Q.
Proof.
  intros Hf (tx & A) HQ.
  destruct (Hf (t w)) as (Hs & Hh & Hp & Ht).
  eapply afoot_upd; [|exact A|].
  - intros tk. destruct (Hf tk) as (? & ? & ? & ?). auto.
  - intros w' A'. apply HQ. eexists.
    pose proof A as (_ & _ & _ & _ & Ty & _).
    rewrite Ht, Ty in A'. exact A'.
Qed.

Lemma open_at_flag k ty c w :
  open_at o k true ty c w -> open_at o k false ty c w.
Proof.
  intros (cur0 & l & Hc & A & Hopen & Hk).
  exists cur0, l. repeat split; auto.
  destruct l as [|x l]; [reflexivity|].
  exact (has_close_tail _ _ Hopen).
Qed.

Lemma open_at_le k k' star ty c w :
  (k <= k')%nat -> open_at o k star ty c w -> open_at o k' star ty c w.
Proof.
  intros Hk (cur0 & l & Hc & A & Hopen & Hl).
  exists cur0, l. repeat split; auto. lia.
Qed.

Lemma past_le k k' ty w : (k <= k')%nat -> past o k ty w -> past o k' ty w.
Proof.
  intros Hk (cur0 & x & l & A & Hopen & Hl).
  exists cur0, x, l. repeat split; auto. lia.
Qed.

(** The character in hand is dealt with. *)
Lemma open_at_past k star ty x w :
  open_at o k star ty (Some x) w -> past o (k - 1) ty w /\ (1 <= k)%nat.
Proof.
  intros (cur0 & l & Hc & A & Hopen & Hl).
  destruct l as [|y l]; [discriminate|]. simpl in Hl.
  split; [|lia]. exists cur0, y, l. repeat split; auto; [|lia].
  destruct star; [apply has_close_tail in Hopen|];
    exact (has_close_tail _ _ Hopen).
Qed.

Lemma open_at_not_slash k ty w : ~ open_at o k true ty (Some SLASH) w.
Proof.
  intros (cur0 & l & Hc & A & Hopen & Hl).
  destruct l as [|y l]; [discriminate|]. inversion Hc; subst y.
  now apply (has_close_head STAR SLASH l Hopen).
Qed.

(** [next_char] at the start of a line. *)
Lemma next_char_past w b k ty (Q : option ascii -> World -> Prop) :
  past o k ty w ->
  (forall c w', open_at o k false ty c w' -> Q c w') ->
  yields next_char w b Q.
Proof.
  intros (cur0 & x & l & (tx & A) & Hopen & Hl) HQ.
  eapply next_char_afoot; [exact A|]. intros w' A'. apply HQ.
  exists (Some x), l. repeat split; auto. now exists tx.
Qed.

(** [next_char] when [x] is in hand: the next character follows an
    asterisk if [x] is one. *)
Lemma next_char_open w b k star ty x
      (Q : option ascii -> World -> Prop) :
  open_at o k star ty (Some x) w ->
  (forall c w', open_at o (k - 1) (Ascii.eqb x STAR) ty c w' -> Q c w') ->
  yields next_char w b Q.
Proof.
  intros (cur0 & l & Hc & (tx & A) & Hopen & Hl) HQ.
  destruct l as [|y l]; [discriminate|]. inversion Hc; subst y.
  simpl in Hl.
  eapply next_char_afoot; [exact A|]. intros w' A'. apply HQ.
  exists (Some x), l. split; [reflexivity|]. split; [now exists tx|].
  split; [|lia].
  assert (Hx : has_close (x :: l) = false).
  { destruct star; [exact (has_close_tail _ _ Hopen)|exact Hopen]. }
  destruct (Ascii.eqb_spec x STAR) as [->|_]; [exact Hx|].
  exact (has_close_tail _ _ Hx).
Qed.

Lemma open_at_touch f w b k star ty c (Q : unit -> World -> Prop) :
  (forall tk, stream (f tk) = stream tk /\ hasnext (f tk) = hasnext tk
              /\ path (f tk) = path tk
              /\ token_type (f tk) = token_type tk) ->
  open_at o k star ty c w ->
  (forall w', open_at o k star ty c w' -> Q tt w') ->
  yields (upd_t f) w b Q.
Proof.
  intros Hf (cur0 & l & Hc & A & Hopen & Hl) HQ.
  eapply amid_touch; [exact Hf | exact A |].
  intros w' A'. apply HQ. exists cur0, l. auto.
Qed.

Ltac open_touch A :=
  let w := fresh "w" in
  eapply open_at_touch;
  [intros; repeat split; reflexivity | exact A | clear A; intros w A].

Lemma comment_leading_space_open n : forall pos w k ty,
  past o k ty w ->
  yields (comment_leading_space n pos) w (k < n)%nat
         (fun r w' => open_at o k false ty (fst r) w').
Proof.
  induction n as [|n IH]; intros pos w k ty A;
    cbn [comment_leading_space].
  - apply yields_out_of_fuel. lia.
  - apply yields_bind. eapply next_char_past; [exact A|]. clear A.
    intros c w1 A. destruct c as [ch|]; [|now apply yields_ret].
    destruct (Ascii.eqb ch SPACE || Ascii.eqb ch TAB);
      [|now apply yields_ret].
    apply yields_bind. unfold add_char_to_token. open_touch A.
    destruct (open_at_past _ _ _ _ _ A) as (A' & Hk).
    eapply yields_conseq; [apply (IH _ _ _ _ A') | lia |].
    intros r w' Hr. revert Hr. apply open_at_le. lia.
Qed.

Lemma comment_asterisks_open n : forall c pos got w k star ty,
  open_at o k star ty c w -> (got = true -> star = true) ->
  yields (comment_asterisks n c pos got) w (k < n)%nat
         (fun r w' =>
            exists star', open_at o k star' ty (fst (fst r)) w'
                          /\ (snd r = true -> star' = true)).
Proof.
  induction n as [|n IH]; intros c pos got w k star ty A Hgot;
    cbn [comment_asterisks].
  - apply yields_out_of_fuel. lia.
  - destruct c as [ch|];
      [|apply yields_ret; exists star; split; [exact A|exact Hgot]].
    destruct (Ascii.eqb_spec ch STAR) as [->|_];
      [|apply yields_ret; exists star; split; [exact A|exact Hgot]].
    destruct (open_at_past _ _ _ _ _ A) as (_ & Hk).
    apply yields_bind. unfold add_char_to_token. open_touch A.
    apply yields_bind. eapply next_char_open; [exact A|]. clear A.
    intros c1 w1 A. rewrite Ascii.eqb_refl in A.
    eapply yields_conseq;
      [apply (IH _ _ _ _ _ _ _ A (fun _ => eq_refl)) | lia |].
    intros r w' (star' & Hr & Hg). exists star'. split; [|exact Hg].
    revert Hr. apply open_at_le. lia.
Qed.

(** The rest of a line never ends the comment. *)
Lemma comment_rest_of_line_open n : forall c pos w k ty,
  open_at o k false ty c w ->
  yields (comment_rest_of_line n c pos) w (k < n)%nat
         (fun r w' =>
            open_at o k false ty (fst (fst r)) w'
            /\ snd r = false
            /\ (fst (fst r) = None \/ fst (fst r) = Some NL)).
Proof.
  induction n as [|n IH]; intros c pos w k ty A;
    cbn [comment_rest_of_line].
  - apply yields_out_of_fuel. lia.
  - destruct c as [ch|]; [|apply yields_ret; simpl; auto].
    destruct (Ascii.eqb_spec ch NL) as [->|_];
      [apply yields_ret; simpl; auto|].
    destruct (open_at_past _ _ _ _ _ A) as (_ & Hk).
    apply yields_bind. unfold add_char_to_token. open_touch A.
    apply yields_bind. eapply next_char_open; [exact A|]. clear A.
    intros c1 w1 A.
    assert (Hnot : Ascii.eqb ch STAR && is_chr c1 SLASH = false).
    { destruct (Ascii.eqb ch STAR); [|reflexivity]. cbn [andb].
      destruct c1 as [x|]; [|reflexivity]. cbn [is_chr].
      destruct (Ascii.eqb_spec x SLASH) as [->|_]; [|reflexivity].
      elim (open_at_not_slash _ _ _ A). }
    rewrite Hnot.
    assert (A' : open_at o (k - 1) false ty c1 w1).
    { destruct (Ascii.eqb ch STAR); [now apply open_at_flag|exact A]. }
    eapply yields_conseq; [apply (IH _ _ _ _ _ A') | lia |].
    intros r w' (Hr & Hfin). split; [|exact Hfin].
    revert Hr. apply open_at_le. lia.
Qed.

Lemma comment_lines_open fuel n : forall pos w k ty,
  past o k ty w ->
  yields (comment_lines fuel n pos) w (k < n /\ k < fuel)%nat
         (fun r w' =>
            r = None /\ exists cur0, amid (comment_eof o) cur0 [] ty w').
Proof.
  induction n as [|n IH]; intros pos w k ty A; cbn [comment_lines].
  - apply yields_out_of_fuel. lia.
  - apply yields_bind.
    eapply yields_conseq;
      [apply (comment_leading_space_open _ _ _ _ _ A) | lia |].
    clear A. intros [c pos1] w1 A. cbn [fst] in A.
    apply yields_bind.
    eapply yields_conseq;
      [apply (comment_asterisks_open _ _ _ false _ _ _ _ A);
       discriminate
      | lia |].
    clear A. intros [[c2 pos2] got] w2 (star & A & Hstar).
    cbn [fst snd] in A, Hstar.
    apply yields_bind.
    apply yields_conseq with
      (b' := True)
      (Q' := fun r w' => open_at o k false ty (fst (fst r)) w'
                         /\ snd r = false);
      [|trivial|].
    { destruct got.
      - rewrite (Hstar eq_refl) in A.
        apply yields_bind. open_touch A.
        destruct c2 as [x|]; cbn [is_chr].
        + destruct (Ascii.eqb_spec x SLASH) as [->|_];
            [elim (open_at_not_slash _ _ _ A)|].
          destruct (Ascii.eqb_spec x SPACE) as [->|_].
          * apply yields_bind. eapply next_char_open; [exact A|].
            clear A. intros c3 w3 A. apply yields_ret.
            split; [|reflexivity]. cbn [fst].
            revert A. apply open_at_le. lia.
          * apply yields_ret. split; [|reflexivity].
            now apply open_at_flag.
        + apply yields_ret. split; [|reflexivity].
          now apply open_at_flag.
      - apply yields_ret. split; [|reflexivity]. cbn [fst].
        destruct star; [now apply open_at_flag|exact A]. }
    clear A. intros [[c3 pos3] stars] w3 (A & Hs).
    cbn [fst snd] in A, Hs. subst stars.
    apply yields_bind.
    eapply yields_conseq;
      [apply (comment_rest_of_line_open _ _ _ _ _ _ A) | lia |].
    clear A. intros [[c4 pos4] fin] w4 (A & Hfin & Hc).
    cbn [fst snd] in A, Hfin, Hc. subst fin.
    destruct Hc as [-> | ->].
    + apply yields_bind, yields_get_t, yields_bind, yields_print.
      apply yields_ret. split; [reflexivity|].
      destruct A as (cur0 & l & Hc & (tx & A) & _ & _).
      destruct l as [|y l]; [|discriminate].
      exists cur0, tx.
      destruct A as (R & C & P & T & Ty & H & O).
      repeat split; try assumption; try apply R.
      unfold outside, comment_eof in *. simpl. subst o. reflexivity.
    + change (Ascii.eqb NL NL) with true. cbn [negb].
      destruct (open_at_past _ _ _ _ _ A) as (A' & Hk).
      assert (Hrec : forall pos' w',
                 past o (k - 1) ty w' ->
                 yields (comment_lines fuel n pos') w'
                        (k < S n /\ k < fuel)%nat
                        (fun r w'' =>
                           r = None
                           /\ exists cur0,
                               amid (comment_eof o) cur0 [] ty w'')).
      { intros pos' w' P'.
        eapply yields_conseq; [apply (IH _ _ _ _ P') | lia |].
        intros r wz Hz. exact Hz. }
      destruct (negb (pos =? pos4)); [|now apply Hrec].
      apply yields_bind. unfold add_char_to_token. open_touch A.
      destruct (open_at_past _ _ _ _ _ A) as (A2 & _).
      now apply Hrec.
Qed.

Lemma open_comment_yields fuel w ws body :
  buffer_ok (t w) -> hasnext (t w) = 0 -> outside w = o ->
  pending (t w) = (ws ++ SLASH :: STAR :: body)%list ->
  Forall space ws -> has_close body = false ->
  yields (tokenize_next fuel) w
         (List.length ws + List.length body + 1 < fuel)%nat
         (fun r w' =>
            r = None
            /\ exists tx, lexed (comment_eof o) [] tx INVALID w').
Proof.
  intros B H O P Hws Hopen.
  start_token B H O P; [exact Hws | reflexivity | lia |].
  intros w1 A1. cbn [hd_error].
  apply yields_bind. eapply afoot_mark; [exact A1|]. clear A1.
  intros w2 A2.
  change (Ascii.eqb SLASH SQUOTE) with false.
  change (Ascii.eqb SLASH DQUOTE) with false.
  change (Py.chr_in SLASH OPERATOR_CHARS) with false.
  change (Ascii.eqb SLASH SLASH) with true. cbv iota.
  apply yields_bind. eapply afoot_add_char; [exact A2|]. clear A2.
  intros w3 A3.
  apply yields_bind. eapply next_char_afoot; [exact A3|]. clear A3.
  intros w4 A4. cbn [hd_error].
  change (Ascii.eqb STAR STAR) with true. cbv iota.
  unfold tokenize_extended_comment.
  apply yields_bind. eapply afoot_clear; [exact A4|]. clear A4.
  intros w5 A5.
  assert (P5 : past o (List.length body) INVALID w5).
  { exists (Some SLASH), STAR, body. split; [eexists; exact A5|].
    split; [exact Hopen|lia]. }
  apply yields_bind.
  eapply yields_conseq; [apply (comment_lines_open _ _ _ _ _ _ P5)|lia|].
  intros r w6 (-> & cur0 & tx & A6). apply yields_ret.
  split; [reflexivity|]. exists tx.
  destruct A6 as ((B6 & _) & _ & P6 & T6).
  split; [exact B6|]. now split.
Qed.

End Tokens.

(** X13: a blob.  After white space, a run of characters that are
    neither white space nor single-character tokens nor operator
    characters, and that does not start with a slash, is one token of
    type [OTHER] when it is followed by the end of the stream, white
    space, a single-character token or an operator character.  The white
    space that ends it is consumed, any other character is pushed back.
    Braces and slashes inside the run are part of the token. *)
Theorem blob_token :
  forall fuel w ws a word tail,
    buffer_ok (t w) -> hasnext (t w) = 0 ->
    pending (t w) = (ws ++ a :: word ++ tail)%list ->
    Forall space ws -> plain a -> a <> SLASH -> Forall plain word ->
    ends_blob tail ->
    (List.length ws + List.length word + 1 < fuel)%nat ->
    exists w',
      tokenize_next fuel w
      = Ok (Some (Z.of_nat (S (List.length word)))) w'
      /\ lexed (outside w) (after_blob tail) (string_of_list_ascii (a :: word))
               OTHER w'.
Proof.
  intros fuel w ws a word tail B H P Hws Ha Hsl Hword Htail Hfuel.
  destruct (yields_ok _ _ _ _
              (blob_token_yields (outside w) fuel w ws a word tail B H
                                 eq_refl P Hws Ha Hsl
                                 Hword Htail) Hfuel)
    as (r & w' & E & -> & L).
  now exists w'.
Qed.

Lemma blob_token_witness :
  exists w',
    tokenize_next 16
      (source_world "input.lcm" (Py.chars " {a/b}; ") create_lcmgen [])
    = Ok (Some 5) w'
    /\ lexed ("input.lcm", create_lcmgen, []) (Py.chars "; ") "{a/b}" OTHER w'.
Proof.
  apply (blob_token 16
           (source_world "input.lcm" (Py.chars " {a/b}; ") create_lcmgen [])
           [SPACE] "{"%char (Py.chars "a/b}")
                    (Py.chars "; ")).
  - apply create_stream.
  - reflexivity.
  - apply create_stream.
  - repeat constructor.
  - repeat split; reflexivity.
  - discriminate.
  - repeat constructor; reflexivity.
  - right. left. reflexivity.
  - simpl. lia.
Defined.

(** X14: each of the characters [( ) ; , : \[ \]] is a token by itself,
    of type [OTHER], whatever follows it; what follows is left in the
    stream. *)
Theorem single_character_token :
  forall fuel w ws x tail,
    buffer_ok (t w) -> hasnext (t w) = 0 ->
    pending (t w) = (ws ++ x :: tail)%list ->
    Forall space ws -> In x (Py.chars "();,:[]") ->
    (List.length ws + 1 < fuel)%nat ->
    exists w',
      tokenize_next fuel w = Ok (Some 1) w'
      /\ lexed (outside w) tail (String x EmptyString) OTHER w'.
Proof.
  intros fuel w ws x tail B H P Hws Hx Hfuel.
  destruct (yields_ok _ _ _ _
              (single_character_yields (outside w) fuel w ws x tail B H
                                       eq_refl P Hws Hx)
              Hfuel)
    as (r & w' & E & -> & L).
  now exists w'.
Qed.

Lemma single_character_witness :
  exists w',
    tokenize_next 4
      (source_world "input.lcm" (Py.chars " [n]") create_lcmgen [])
    = Ok (Some 1) w'
    /\ lexed ("input.lcm", create_lcmgen, []) (Py.chars "n]") "[" OTHER w'.
Proof.
  apply (single_character_token 4
           (source_world "input.lcm" (Py.chars " [n]") create_lcmgen [])
           [SPACE] "["%char (Py.chars "n]")).
  - apply create_stream.
  - reflexivity.
  - apply create_stream.
  - repeat constructor.
  - simpl. auto 10.
  - simpl. lia.
Defined.

(** X15: an operator.  After white space, a run of operator characters
    is one token of type [OTHER]; the character that ends the run is
    pushed back, and at the end of the stream the last operator character
    is pushed back instead. *)
Theorem operator_token :
  forall fuel w ws a ops tail,
    buffer_ok (t w) -> hasnext (t w) = 0 ->
    pending (t w) = (ws ++ a :: ops ++ tail)%list ->
    Forall space ws -> Forall is_operator (a :: ops) ->
    match tail with
    | c :: _ => Py.chr_in c OPERATOR_CHARS = false
    | [] => True
    end ->
    (List.length ws + List.length ops + 1 < fuel)%nat ->
    exists w',
      tokenize_next fuel w
      = Ok (Some (Z.of_nat (S (List.length ops)))) w'
      /\ lexed (outside w)
               (match tail with [] => [last ops a] | _ => tail end)
               (string_of_list_ascii (a :: ops)) OTHER w'.
Proof.
  intros fuel w ws a ops tail B H P Hws Hops Htail Hfuel.
  destruct (yields_ok _ _ _ _
              (operator_token_yields (outside w) fuel w ws a ops tail B H
                                     eq_refl P Hws Hops
                                     Htail) Hfuel)
    as (r & w' & E & -> & L).
  now exists w'.
Qed.

Lemma operator_token_witness :
  exists w',
    tokenize_next 8
      (source_world "input.lcm" (Py.chars " <=3") create_lcmgen [])
    = Ok (Some 2) w'
    /\ lexed ("input.lcm", create_lcmgen, []) ["3"%char] "<=" OTHER w'.
Proof.
  apply (operator_token 8
           (source_world "input.lcm" (Py.chars " <=3") create_lcmgen [])
           [SPACE] "<"%char ["="%char] ["3"%char]).
  - apply create_stream.
  - reflexivity.
  - apply create_stream.
  - repeat constructor.
  - repeat constructor.
  - reflexivity.
  - simpl. lia.
Defined.

(** X16: when only white space is left, [tokenize_next] returns [None],
    with an empty token of type [INVALID], and the stream is used up. *)
Theorem no_token_in_white_space :
  forall fuel w ws,
    buffer_ok (t w) -> hasnext (t w) = 0 -> pending (t w) = ws ->
    Forall space ws -> (List.length ws < fuel)%nat ->
    exists w',
      tokenize_next fuel w = Ok None w'
      /\ lexed (outside w) [] EmptyString INVALID w'.
Proof.
  intros fuel w ws B H P Hws Hfuel.
  destruct (yields_ok _ _ _ _
              (white_space_yields (outside w) fuel w ws B H eq_refl P Hws)
                      Hfuel)
    as (r & w' & E & -> & L).
  now exists w'.
Qed.

Lemma no_token_witness :
  exists w',
    tokenize_next 4
      (source_world "input.lcm" [SPACE; NL; TAB] create_lcmgen [])
    = Ok None w'
    /\ lexed ("input.lcm", create_lcmgen, []) [] EmptyString INVALID w'.
Proof.
  apply (no_token_in_white_space 4
           (source_world "input.lcm" [SPACE; NL; TAB] create_lcmgen [])
           [SPACE; NL; TAB]).
  - apply create_stream.
  - reflexivity.
  - apply create_stream.
  - repeat constructor.
  - simpl. lia.
Defined.

(** X17: a line comment.  The token is the text of the line after the
    slashes and the spaces that follow them, of type [COMMENT]; the
    newline is pushed back.  When the comment ends the stream, the last
    character of the comment line is pushed back instead, so that it
    will be read again. *)
Theorem line_comment_token :
  forall fuel w ws slashes spaces text tail,
    buffer_ok (t w) -> hasnext (t w) = 0 ->
    pending (t w)
    = (ws ++ SLASH :: SLASH :: slashes ++ spaces ++ text ++ tail)%list ->
    Forall space ws ->
    Forall (eq SLASH) slashes -> Forall (eq SPACE) spaces ->
    Forall (fun ch => ch <> NL) text ->
    hd_error text <> Some SPACE ->
    (spaces = [] -> hd_error text <> Some SLASH) ->
    hd_error tail = None \/ hd_error tail = Some NL ->
    (List.length ws + List.length (slashes ++ spaces ++ text) + 2
     < fuel)%nat ->
    exists w',
      tokenize_next fuel w = Ok (Some (Z.of_nat (List.length text))) w'
      /\ lexed (outside w)
               (match tail with
                | [] => [last (slashes ++ spaces ++ text) SLASH]
                | _ => tail
                end)
               (string_of_list_ascii text) COMMENT w'.
Proof.
  intros fuel w ws slashes spaces text tail
         B H P Hws Hsl Hsp Htx Hns Hnsl Htail Hfuel.
  destruct (yields_ok _ _ _ _
              (line_comment_yields (outside w) fuel w ws slashes spaces text
                 tail B H eq_refl P Hws Hsl Hsp Htx Hns Hnsl Htail) Hfuel)
    as (r & w' & E & -> & L).
  now exists w'.
Qed.

Lemma line_comment_token_witness :
  exists w',
    tokenize_next 16
      (source_world "input.lcm" (Py.chars "// end") create_lcmgen [])
    = Ok (Some 3) w'
    /\ lexed ("input.lcm", create_lcmgen, []) ["d"%char] "end" COMMENT w'.
Proof.
  apply (line_comment_token 16
           (source_world "input.lcm" (Py.chars "// end") create_lcmgen [])
           [] [] [SPACE] (Py.chars "end") []).
  - apply create_stream.
  - reflexivity.
  - apply create_stream.
  - constructor.
  - constructor.
  - repeat constructor.
  - repeat constructor; discriminate.
  - discriminate.
  - discriminate.
  - now left.
  - simpl. lia.
Defined.

(** X18: a line comment that ends the file without a newline is followed
    by one more token: the last character [c] of the comment, when it is
    a character that can stand in a blob. *)
Theorem token_after_last_line_comment :
  forall fuel w ws slashes spaces body c,
    buffer_ok (t w) -> hasnext (t w) = 0 ->
    pending (t w)
    = (ws ++ SLASH :: SLASH :: slashes ++ spaces ++ body ++ [c])%list ->
    Forall space ws ->
    Forall (eq SLASH) slashes -> Forall (eq SPACE) spaces ->
    Forall (fun ch => ch <> NL) body ->
    hd_error (body ++ [c]) <> Some SPACE ->
    (spaces = [] -> hd_error (body ++ [c]) <> Some SLASH) ->
    plain c -> c <> SLASH ->
    (List.length ws + List.length (slashes ++ spaces ++ body) + 3
     < fuel)%nat ->
    exists w1 w2,
      tokenize_next fuel w
      = Ok (Some (Z.of_nat (List.length body + 1))) w1
      /\ token_type (t w1) = COMMENT
      /\ tokenize_next fuel w1 = Ok (Some 1) w2
      /\ token (t w2) = String c EmptyString
      /\ token_type (t w2) = OTHER.
Proof.
  intros fuel w ws slashes spaces body c
         B H P Hws Hsl Hsp Hbody Hns Hnsl Hc Hcs Hfuel.
  assert (Htx : Forall (fun ch => ch <> NL) (body ++ [c])).
  { apply Forall_app. split; [exact Hbody|]. constructor; [|constructor].
    intros ->. destruct Hc as (Hc & _). discriminate. }
  rewrite <- (app_nil_r (body ++ [c])) in P.
  destruct (yields_ok _ _ _ _
              (line_comment_yields (outside w) fuel w ws slashes spaces
                 (body ++ [c]) [] B H eq_refl P Hws Hsl Hsp Htx Hns Hnsl
                 (or_introl eq_refl)))
    as (r & w1 & E1 & -> & B1 & P1 & T1 & Ty1 & H1 & O1).
  { rewrite !length_app in *. simpl. lia. }
  rewrite !app_assoc, last_last in P1.
  destruct (yields_ok _ _ _ _
              (blob_token_yields (outside w) fuel w1 [] c [] [] B1 H1 O1 P1
                 (Forall_nil _) Hc Hcs (Forall_nil _) I))
    as (r & w2 & E2 & -> & B2 & P2 & T2 & Ty2 & H2 & O2).
  { simpl. lia. }
  exists w1, w2. rewrite length_app in E1. simpl in E1.
  repeat split; assumption.
Qed.

Lemma token_after_last_line_comment_witness :
  exists w1 w2,
    tokenize_next 16
      (source_world "input.lcm" (Py.chars "// end") create_lcmgen [])
    = Ok (Some 3) w1
    /\ token_type (t w1) = COMMENT
    /\ tokenize_next 16 w1 = Ok (Some 1) w2
    /\ token (t w2) = "d"
    /\ token_type (t w2) = OTHER.
Proof.
  apply (token_after_last_line_comment
           16 (source_world "input.lcm" (Py.chars "// end") create_lcmgen [])
           [] [] [SPACE] (Py.chars "en") "d"%char).
  - apply create_stream.
  - reflexivity.
  - apply create_stream.
  - constructor.
  - constructor.
  - repeat constructor.
  - repeat constructor; discriminate.
  - discriminate.
  - discriminate.
  - repeat split; reflexivity.
  - discriminate.
  - simpl. lia.
Defined.

(** X19: a block comment on one line.  When the text between the opening
    and the closing of the comment does not start with an asterisk, the
    token holds the blanks that follow the opening, the text, and the
    asterisk of the closing; the value returned is the length of the
    token without that asterisk. *)
Theorem one_line_block_comment :
  forall fuel w ws lead x body tail,
    buffer_ok (t w) -> hasnext (t w) = 0 ->
    pending (t w)
    = (ws ++ SLASH :: STAR :: lead ++ x :: body
          ++ STAR :: SLASH :: tail)%list ->
    Forall space ws -> Forall blank lead ->
    x <> SPACE -> x <> TAB -> x <> STAR ->
    Forall (fun ch => ch <> NL) (x :: body) ->
    has_close (x :: body ++ [STAR]) = false ->
    (List.length ws + List.length lead + List.length body + 2
     < fuel)%nat ->
    exists w',
      tokenize_next fuel w
      = Ok (Some (Z.of_nat (List.length lead + List.length body + 1))) w'
      /\ lexed (outside w) tail
               (string_of_list_ascii (lead ++ x :: body ++ [STAR]))
               COMMENT w'.
Proof.
  intros fuel w ws lead x body tail
         B H P Hws Hlead Hx1 Hx2 Hx3 Hbody Hopen Hfuel.
  destruct (yields_ok _ _ _ _
              (block_comment_yields (outside w) fuel w ws lead x body
                 tail B H eq_refl P Hws Hlead Hx1 Hx2 Hx3 Hbody Hopen)
              Hfuel)
    as (r & w' & E & -> & L).
  now exists w'.
Qed.

Lemma one_line_block_comment_witness :
  exists w',
    tokenize_next 16
      (source_world "input.lcm" (Py.chars "/* abc */ x") create_lcmgen [])
    = Ok (Some 5) w'
    /\ lexed ("input.lcm", create_lcmgen, []) (Py.chars " x") " abc *"
             COMMENT w'.
Proof.
  apply (one_line_block_comment
           16
           (source_world "input.lcm" (Py.chars "/* abc */ x")
                         create_lcmgen [])
           [] [SPACE] "a"%char (Py.chars "bc ") (Py.chars " x")).
  - apply create_stream.
  - reflexivity.
  - apply create_stream.
  - constructor.
  - repeat constructor.
  - discriminate.
  - discriminate.
  - discriminate.
  - repeat constructor; discriminate.
  - reflexivity.
  - simpl. lia.
Defined.

(** X20: a block comment without an end.  When no asterisk is followed
    by a slash after the opening of a block comment, [tokenize_next]
    reads to the end of the stream, prints that the end of the file was
    reached in a comment, and returns [None], as it does at the end of a
    file; it neither raises nor exits. *)
Theorem unterminated_block_comment :
  forall fuel w ws body,
    buffer_ok (t w) -> hasnext (t w) = 0 ->
    pending (t w) = (ws ++ SLASH :: STAR :: body)%list ->
    Forall space ws -> has_close body = false ->
    (List.length ws + List.length body + 1 < fuel)%nat ->
    exists w',
      tokenize_next fuel w = Ok None w'
      /\ stdout w'
         = (stdout w
            ++ [(path (t w)
                 ++ " : EOF reached while parsing comment!")%string])%list
      /\ lcmgen w' = lcmgen w
      /\ token_type (t w') = INVALID
      /\ buffer_ok (t w') /\ pending (t w') = [].
Proof.
  intros fuel w ws body B H P Hws Hopen Hfuel.
  destruct (yields_ok _ _ _ _
              (open_comment_yields (outside w) fuel w ws body
                 B H eq_refl P Hws Hopen) Hfuel)
    as (r & w' & E & -> & tx & B' & P' & T' & Ty' & H' & O').
  exists w'. unfold outside, comment_eof in O'. cbn [fst snd] in O'.
  split; [exact E|]. split; [congruence|]. split; [congruence|].
  split; [exact Ty'|]. split; [exact B' | exact P'].
Qed.

Lemma unterminated_block_comment_witness :
  exists w',
    tokenize_next 16
      (source_world "input.lcm" (Py.chars "/* a * / b") create_lcmgen [])
    = Ok None w'
    /\ stdout w' = ["input.lcm : EOF reached while parsing comment!"]
    /\ lcmgen w' = create_lcmgen
    /\ token_type (t w') = INVALID
    /\ buffer_ok (t w') /\ pending (t w') = [].
Proof.
  apply (unterminated_block_comment
           16
           (source_world "input.lcm" (Py.chars "/* a * / b")
                         create_lcmgen [])
           [] (Py.chars " a * / b")).
  - apply create_stream.
  - reflexivity.
  - apply create_stream.
  - constructor.
  - reflexivity.
  - simpl. lia.
Defined.

(** ** The exceptions that can escape *)

Create HintDb calm.

Section CalmBasics.

Lemma calm_ret {A} (a : A) : calm (ret a).
Proof. intros w B. exact B. Qed.

Lemma calm_bind {A B} (m : M A) (k : A -> M B) :
  calm m -> (forall a, calm (k a)) -> calm (bind m k).
Proof.
  intros Hm Hk w Bw. unfold bind. specialize (Hm w Bw).
  destruct (m w) as [a w1| | |]; auto. now apply Hk.
Qed.

Lemma calm_get_t : calm get_t.
Proof. intros w B. exact B. Qed.

Lemma calm_get_lcmgen : calm get_lcmgen.
Proof. intros w B. exact B. Qed.

Lemma calm_upd_lcmgen f : calm (upd_lcmgen f).
Proof. intros w B. exact B. Qed.

Lemma calm_print s : calm (print s).
Proof. intros w B. exact B. Qed.

Lemma calm_sys_exit {A} c : calm (@sys_exit A c).
Proof. intros w B. exact I. Qed.

Lemma calm_out_of_fuel {A} : calm (@out_of_fuel A).
Proof. intros w B. exact I. Qed.

Lemma calm_index_error {A} : calm (@raise A IndexError).
Proof. intros w B. now left. Qed.

Lemma calm_value_error {A} : calm (@raise A ValueError).
Proof. intros w B. now right. Qed.

Lemma calm_when b m : calm m -> calm (when b m).
Proof. intros H. destruct b; [exact H | apply calm_ret]. Qed.

(** What [yields] says of a call of the tokenizer. *)
Lemma yields_calm {A} (m : M A) (enough : World -> Prop)
      (Q : World -> A -> World -> Prop) :
  (forall w, buffer_ok (t w) -> yields m w (enough w) (Q w)) ->
  (forall w a w', Q w a w' -> buffer_ok (t w')) ->
  calm m.
Proof.
  intros Y HQ w B. specialize (Y w B). unfold yields in Y.
  destruct (m w) as [a w'| | |]; auto; try contradiction.
  exact (HQ w a w' Y).
Qed.

End CalmBasics.

#[export] Hint Resolve calm_ret calm_get_t calm_get_lcmgen calm_upd_lcmgen
  calm_print calm_sys_exit calm_out_of_fuel calm_index_error
  calm_value_error : calm.

(** Goals [calm m], by the structure of [m]. *)
Ltac cm :=
  repeat
    match goal with
    | |- forall _, _ => intros ?
    | |- calm (bind _ _) => apply calm_bind
    | |- calm (when _ _) => apply calm_when
    | |- calm (upd_cache _) => apply calm_upd_lcmgen
    | |- calm (match ?x with _ => _ end) => destruct x
    | |- calm (let '(_, _) := ?x in _) => destruct x
    | |- calm _ => solve [auto with calm]
    end.

Section Calm.

Variable fuel : nat.

Lemma calm_tokenize_next : calm (tokenize_next fuel).
Proof.
  apply (yields_calm _ (fun w => (load w < fuel)%nat)
                     (fun w _ w' => parked (load w) 0 w')).
  - intros w B. now apply tokenize_next_yields.
  - intros w a w' (B & _). exact B.
Qed.

Lemma calm_tokenize_peek : calm (tokenize_peek fuel).
Proof.
  apply (yields_calm _ (fun w => (load w < fuel)%nat)
                     (fun w r w' =>
                        buffer_ok (t w') /\ (load w' <= load w)%nat
                        /\ (hasnext (t w') <> 0 <-> r <> None))).
  - intros w B. now apply tokenize_peek_yields.
  - intros w a w' (B & _). exact B.
Qed.

Lemma calm_semantic_error {A} msg : calm (@semantic_error A msg).
Proof. unfold semantic_error. cm. Qed.

Lemma calm_parse_error {A} msg : calm (@parse_error A msg).
Proof. unfold parse_error. cm. Qed.

Lemma calm_semantic_warning msg : calm (semantic_warning msg).
Proof. unfold semantic_warning. cm. Qed.

Lemma calm_legal_member_name s : calm (legal_member_name s).
Proof. unfold legal_member_name. cm. Qed.

Lemma calm_take_comment_doc : calm take_comment_doc.
Proof. unfold take_comment_doc. cm. Qed.

Hint Resolve calm_tokenize_next calm_tokenize_peek calm_semantic_error
  calm_parse_error calm_semantic_warning calm_legal_member_name
  calm_take_comment_doc : calm.

Lemma calm_consume_comments n :
  forall store, calm (consume_comments fuel n store).
Proof. induction n; intros store; simpl; cm. Qed.

Hint Resolve calm_consume_comments : calm.

(** No caller asks to store the comment without passing the compiler
    state: the assertion of [parse_try_consume_comment] holds. *)
Lemma calm_parse_try_consume_comment has_lcmgen store :
  (store = true -> has_lcmgen = true) ->
  calm (parse_try_consume_comment fuel has_lcmgen store).
Proof.
  intros H. unfold parse_try_consume_comment.
  destruct store; [rewrite (H eq_refl)|]; cbn [when]; cm.
Qed.

Hint Extern 1 (calm (parse_try_consume_comment _ _ _)) =>
  apply calm_parse_try_consume_comment;
  intros; first [discriminate | reflexivity] : calm.

Lemma calm_parse_try_consume tok : calm (parse_try_consume fuel tok).
Proof. unfold parse_try_consume. cm. Qed.

Lemma calm_skip_comment_tokens n :
  forall res, calm (skip_comment_tokens fuel n res).
Proof. induction n; intros res; simpl; cm. Qed.

Hint Resolve calm_parse_try_consume calm_skip_comment_tokens : calm.

Lemma calm_parse_require tok : calm (parse_require fuel tok).
Proof. unfold parse_require. cm. Qed.

Lemma calm_tokenize_next_or_fail d : calm (tokenize_next_or_fail fuel d).
Proof. unfold tokenize_next_or_fail. cm. Qed.

Lemma calm_new_member_name s : calm (new_member_name s).
Proof. unfold new_member_name. cm. Qed.

Hint Resolve calm_parse_require calm_tokenize_next_or_fail
  calm_new_member_name : calm.

(** The six constant types are the four integer types, [float] and
    [double]: the two defensive branches of [another_constant] are
    dead. *)
Lemma const_type_cases ty :
  Py.str_in ty CONST_TYPES = true ->
  (exists bounds, dict_get INT_TYPES ty = Some bounds)
  \/ (dict_get INT_TYPES ty = None
      /\ Py.str_in ty ["float"; "double"] = true).
Proof.
  unfold Py.str_in. intros H. apply existsb_exists in H.
  destruct H as (x & Hx & E). apply String.eqb_eq in E. subst x.
  simpl in Hx.
  repeat (destruct Hx as [<-|Hx];
          [first [left; eexists; reflexivity | right; split; reflexivity]
          |]).
  contradiction.
Qed.

Lemma calm_another_constant ty s :
  Py.str_in ty CONST_TYPES = true -> calm (another_constant fuel ty s).
Proof.
  intros Hty. unfold another_constant.
  do 8 (apply calm_bind; [solve [auto with calm]|intros ?]).
  apply calm_bind; [|cm].
  unfold int_in_type_bounds.
  destruct (const_type_cases ty Hty) as [(bounds & ->)|(-> & ->)];
    cbn [is_some]; cm.
Qed.

Lemma calm_more_constants n ty :
  Py.str_in ty CONST_TYPES = true ->
  forall s, calm (more_constants fuel n ty s).
Proof.
  intros Hty. induction n; intros s; simpl; cm.
  now apply calm_another_constant.
Qed.

Lemma calm_parse_const s : calm (parse_const fuel s).
Proof.
  unfold parse_const.
  do 3 (apply calm_bind; [solve [auto with calm]|intros ?]).
  destruct (Py.str_in (token a1) CONST_TYPES) eqn:Hty; cbn [negb when].
  - apply calm_bind; [apply calm_ret|intros _].
    apply calm_bind; [now apply calm_another_constant|intros ?].
    apply calm_bind; [now apply calm_more_constants|intros ?].
    cm.
  - intros w B. unfold bind.
    pose proof (calm_parse_error (A := unit) "Invalid type for const" w B)
      as C.
    destruct (parse_error "Invalid type for const" w) eqn:E; auto.
    discriminate.
Qed.

Lemma calm_resolve_dimension s a : calm (resolve_dimension s a).
Proof. unfold resolve_dimension. cm. Qed.

Hint Resolve calm_parse_const calm_resolve_dimension : calm.

Lemma calm_parse_dimensions n :
  forall i s, calm (parse_dimensions fuel n i s).
Proof. induction n; intros i s; simpl; cm. Qed.

Hint Resolve calm_parse_dimensions : calm.

Lemma calm_parse_member_names n ty :
  forall s, calm (parse_member_names fuel n ty s).
Proof. induction n; intros s; simpl; cm. Qed.

Hint Resolve calm_parse_member_names : calm.

Lemma calm_parse_member s : calm (parse_member fuel s).
Proof. unfold parse_member. cm. Qed.

Hint Resolve calm_parse_member : calm.

Lemma calm_parse_struct_body n :
  forall s, calm (parse_struct_body fuel n s).
Proof. induction n; intros s; simpl; cm. Qed.

Hint Resolve calm_parse_struct_body : calm.

Lemma calm_parse_struct src : calm (parse_struct fuel src).
Proof. unfold parse_struct. cm. Qed.

Hint Resolve calm_parse_struct : calm.

Lemma calm_parse_entity src : calm (parse_entity fuel src).
Proof. unfold parse_entity. cm. Qed.

Hint Resolve calm_parse_entity : calm.

Lemma calm_parse_entities n src : calm (parse_entities fuel n src).
Proof. induction n; simpl; cm. Qed.

Lemma calm_dump_tokens n : forall k, calm (dump_tokens fuel n k).
Proof. induction n; intros k; simpl; cm. Qed.

Hint Resolve calm_parse_entities calm_dump_tokens : calm.

Lemma calm_handle_open_file path : calm (handle_open_file fuel path).
Proof. unfold handle_open_file. cm. Qed.

Variable fs : FileSystem.

Lemma handle_file_crashed g out path e g' out' :
  handle_file fuel fs g out path = Crashed e g' out' ->
  e = IndexError \/ e = ValueError.
Proof.
  unfold handle_file. intros H.
  destruct (dict_get fs path) as [src|]; [|discriminate].
  assert (B : buffer_ok (t (mkWorld (create path src) g out))).
  { unfold buffer_ok. simpl. split; [lia|]. left. now split. }
  pose proof (calm_handle_open_file path _ B) as C.
  destruct (handle_open_file fuel path (mkWorld (create path src) g out))
    as [a w|c1 w|e1 w|]; try discriminate.
  inversion H; subst. exact C.
Qed.

Lemma handle_files_crashed paths :
  forall g out e g' out',
    handle_files fuel fs g out paths = Crashed e g' out' ->
    e = IndexError \/ e = ValueError.
Proof.
  induction paths as [|path rest IH]; intros g out e g' out' H;
    simpl in H; [discriminate|].
  destruct (handle_file fuel fs g out path) as [suc g1 out1| |e1 g1 out1|]
    eqn:E; try discriminate.
  - destruct suc; [exact (IH _ _ _ _ _ H)|discriminate].
  - inversion H; subst. exact (handle_file_crashed _ _ _ _ _ _ E).
Qed.

End Calm.

(** X21: no assertion fails and no dictionary key is missing.  When a
    run of [main] ends in an exception, the exception is an [IndexError]
    or a [ValueError]: the assertions of [parse_try_consume_comment],
    [parse_const] and [tokenize_extended_comment], and the look-up of the
    bounds of a constant's type, cannot fail. *)
Theorem main_raises_no_assertion_error :
  forall fuel fs files flag e g out,
    main fuel fs files flag = Crashed e g out ->
    e = IndexError \/ e = ValueError.
Proof.
  intros fuel fs files flag e g out H. unfold main in H.
  destruct (handle_files fuel fs _ [] files)
    as [[] g1 out1| |e1 g1 out1|] eqn:E; try discriminate.
  - destruct flag; discriminate.
  - inversion H; subst. exact (handle_files_crashed _ _ _ _ _ _ _ _ E).
Qed.

Lemma main_raises_witness : ValueError = IndexError \/ ValueError = ValueError.
Proof.
  apply (main_raises_no_assertion_error
           64 Sample.superscript_size ["s.lcm"] false ValueError
           (configured false) []).
  vm_compute. reflexivity.
Defined.



(** X23: the files are handled in order, and the first one that cannot
    be opened ends the run: the files before it have been handled, the
    failure is printed, the exit status is 1 and no later file is
    touched. *)
Theorem run_stops_at_unreadable_file :
  forall fuel fs before path rest g out g1 out1,
    handle_files fuel fs g out before = Done tt g1 out1 ->
    dict_get fs path = None ->
    handle_files fuel fs g out (before ++ path :: rest)
    = Stopped 1 g1 (out1 ++ ["Failed to open " ++ path ++ "."]).
Proof.
  intros fuel fs before path rest.
  induction before as [|p before IH]; intros g out g1 out1 H Hnone.
  - inversion H; subst. cbn [app handle_files]. unfold handle_file.
    now rewrite Hnone.
  - cbn [app handle_files] in *.
    destruct (handle_file fuel fs g out p) as [suc g2 out2| | |];
      try discriminate.
    destruct suc; [|discriminate]. now apply IH.
Qed.

Lemma run_stops_witness :
  handle_files 200 Sample.files (configured false) []
               (["a.lcm"] ++ "missing.lcm" :: ["b.lcm"])
  = Stopped 1 Sample.first ["Failed to open missing.lcm."].
Proof.
  apply (run_stops_at_unreadable_file
           200 Sample.files ["a.lcm"] "missing.lcm" ["b.lcm"]
           (configured false) [] Sample.first []).
  - vm_compute. reflexivity.
  - reflexivity.
Defined.

(** ** The parser on the token stream *)

Section ParserSteps.

Variable fuel : nat.

Lemma lexed_fresh o l tx ty w :
  lexed o l tx ty w ->
  buffer_ok (t w) /\ hasnext (t w) = 0 /\ outside w = o
  /\ pending (t w) = l.
Proof. intros (B & P & _ & _ & H & O). auto. Qed.

Lemma peek_token w (b : Prop) o l tx ty r :
  hasnext (t w) = 0 ->
  yields (tokenize_next fuel) w b
         (fun r' w' => r' = Some r /\ lexed o l tx ty w') ->
  yields (tokenize_peek fuel) w b
         (fun r' w' => r' = Some r /\ peeked o l tx ty w').
Proof.
  intros H Y. unfold tokenize_peek.
  apply yields_bind, yields_get_t. rewrite H. cbn [Z.eqb negb].
  apply yields_bind. eapply yields_conseq; [exact Y | intros Hb; exact Hb |].
  intros r' w' (-> & B & P & T & Ty & H' & O).
  apply yields_bind, yields_upd_t, yields_ret.
  split; [reflexivity|].
  split; [exact B|]. split; [exact P|]. split; [exact T|].
  split; [exact Ty|]. split; [reflexivity|exact O].
Qed.

Lemma peek_end w (b : Prop) o l tx ty :
  hasnext (t w) = 0 ->
  yields (tokenize_next fuel) w b
         (fun r' w' => r' = None /\ lexed o l tx ty w') ->
  yields (tokenize_peek fuel) w b
         (fun r' w' => r' = None /\ lexed o l tx ty w').
Proof.
  intros H Y. unfold tokenize_peek.
  apply yields_bind, yields_get_t. rewrite H. cbn [Z.eqb negb].
  apply yields_bind. eapply yields_conseq; [exact Y | intros Hb; exact Hb |].
  intros r' w' (-> & L). apply yields_ret. now split.
Qed.

Lemma next_peeked w (b : Prop) o l tx ty :
  peeked o l tx ty w ->
  yields (tokenize_next fuel) w b
         (fun r w' => r = Some 0 /\ lexed o l tx ty w').
Proof.
  intros (B & P & T & Ty & H & O). unfold tokenize_next.
  apply yields_bind, yields_get_t. rewrite H. cbn [Z.eqb negb].
  apply yields_bind, yields_upd_t, yields_ret.
  split; [reflexivity|].
  split; [exact B|]. split; [exact P|]. split; [exact T|].
  split; [exact Ty|]. split; [reflexivity|exact O].
Qed.

Lemma peek_peeked w (b : Prop) o l tx ty :
  peeked o l tx ty w ->
  yields (tokenize_peek fuel) w b
         (fun r w' => r = Some 0 /\ peeked o l tx ty w').
Proof.
  intros L. pose proof L as (B & P & T & Ty & H & O).
  unfold tokenize_peek.
  apply yields_bind, yields_get_t. rewrite H. cbn [Z.eqb negb].
  apply yields_ret. now split.
Qed.

Lemma not_comment ty : ty <> COMMENT -> TokenType_eqb ty COMMENT = false.
Proof. destruct ty; simpl; congruence. Qed.

(** [consume_comments] in front of a token that is no comment: the
    token is peeked and left. *)
Lemma consume_comments_token n store w (b : Prop) o l tx ty r :
  hasnext (t w) = 0 -> ty <> COMMENT -> (b -> (0 < n)%nat) ->
  yields (tokenize_next fuel) w b
         (fun r' w' => r' = Some r /\ lexed o l tx ty w') ->
  yields (consume_comments fuel n store) w b
         (fun _ w' => peeked o l tx ty w').
Proof.
  intros H Hty Hn Y.
  destruct n as [|n]; [apply yields_out_of_fuel; intros Hb;
                       specialize (Hn Hb); lia|].
  cbn [consume_comments].
  apply yields_bind.
  eapply yields_conseq;
    [apply (peek_token _ _ _ _ _ _ _ H Y)|intros Hb; exact Hb|].
  intros r' w' (-> & L). pose proof L as (_ & _ & _ & Ty & _).
  apply yields_bind, yields_get_t. rewrite Ty, (not_comment _ Hty).
  cbn [is_some andb]. now apply yields_ret.
Qed.

Lemma consume_comments_peeked n store w (b : Prop) o l tx ty :
  peeked o l tx ty w -> ty <> COMMENT -> (b -> (0 < n)%nat) ->
  yields (consume_comments fuel n store) w b
         (fun _ w' => peeked o l tx ty w').
Proof.
  intros L Hty Hn.
  destruct n as [|n]; [apply yields_out_of_fuel; intros Hb;
                       specialize (Hn Hb); lia|].
  cbn [consume_comments].
  apply yields_bind.
  eapply yields_conseq;
    [apply (peek_peeked _ _ _ _ _ _ L)|intros Hb; exact Hb|].
  intros r' w' (-> & L'). pose proof L' as (_ & _ & _ & Ty & _).
  apply yields_bind, yields_get_t. rewrite Ty, (not_comment _ Hty).
  cbn [is_some andb]. now apply yields_ret.
Qed.

(** [consume_comments] at the end of the stream. *)
Lemma consume_comments_end n store w (b : Prop) o l tx ty :
  hasnext (t w) = 0 -> (b -> (0 < n)%nat) ->
  yields (tokenize_next fuel) w b
         (fun r' w' => r' = None /\ lexed o l tx ty w') ->
  yields (consume_comments fuel n store) w b
         (fun _ w' => lexed o l tx ty w').
Proof.
  intros H Hn Y.
  destruct n as [|n]; [apply yields_out_of_fuel; intros Hb;
                       specialize (Hn Hb); lia|].
  cbn [consume_comments].
  apply yields_bind.
  eapply yields_conseq; [apply (peek_end _ _ _ _ _ _ H Y)|intros Hb; exact Hb|].
  intros r' w' (-> & L).
  apply yields_bind, yields_get_t. cbn [is_some andb].
  now apply yields_ret.
Qed.

Lemma results_yields {A} (m : M A) w (b : Prop) Q E :
  yields m w b Q -> results m w b Q E.
Proof. unfold yields, results. destruct (m w); auto. contradiction. Qed.

Lemma results_bind {A B} (m : M A) (k : A -> M B) w (b : Prop) R E :
  results m w b (fun a w' => results (k a) w' b R E) E ->
  results (bind m k) w b R E.
Proof. unfold results, bind. destruct (m w); auto. Qed.

Lemma results_step {A B} (m : M A) (k : A -> M B) w (b : Prop) R E :
  yields m w b (fun a w' => results (k a) w' b R E) ->
  results (bind m k) w b R E.
Proof. intros Y. apply results_bind. now apply results_yields. Qed.

Lemma yields_upd_lcmgen f w (b : Prop) (Q : unit -> World -> Prop) :
  Q tt (mkWorld (t w) (f (lcmgen w)) (stdout w)) ->
  yields (upd_lcmgen f) w b Q.
Proof. intros H. exact H. Qed.

Lemma outside_parts w p g out :
  outside w = (p, g, out) ->
  path (t w) = p /\ lcmgen w = g /\ stdout w = out.
Proof. unfold outside. intros H. inversion H. auto. Qed.

(** The start of [parse_entity]: the pending comment is dropped and the
    first token, which is no comment, is read. *)
Lemma parse_entity_token w (b : Prop) p g out l tx ty r
      (k : option Z -> M bool) (Q : bool -> World -> Prop)
      (E : Z -> World -> Prop) :
  hasnext (t w) = 0 -> outside w = (p, g, out) ->
  ty <> COMMENT -> (b -> (0 < fuel)%nat) ->
  yields (tokenize_next fuel)
         (mkWorld (t w) (forget_comment g) out) b
         (fun r' w' =>
            r' = Some r /\ lexed (p, forget_comment g, out) l tx ty w') ->
  (forall w', lexed (p, forget_comment g, out) l tx ty w' ->
              results (k (Some 0)) w' b Q E) ->
  results (parse_try_consume_comment fuel true true ;;
           res <- tokenize_next fuel ;; k res) w b Q E.
Proof.
  intros H O Hty Hn Y Hk.
  destruct (outside_parts _ _ _ _ O) as (Hp & Hg & Ho).
  apply results_step. unfold parse_try_consume_comment. cbn [when].
  apply yields_bind. unfold upd_cache. apply yields_upd_lcmgen.
  rewrite Hg, Ho. fold (forget_comment g).
  eapply yields_conseq;
    [apply (consume_comments_token
              fuel true (mkWorld (t w) (forget_comment g) out) b _ l tx ty
              r H Hty Hn Y)
    |intros Hb; exact Hb|].
  intros u1 w1 L1. apply results_step.
  eapply yields_conseq;
    [apply (next_peeked _ _ _ _ _ _ L1)|intros Hb; exact Hb|].
  intros r' w2 (-> & L2). now apply Hk.
Qed.

(** The first token of an entity is a blob. *)
Lemma parse_entity_blob w p g out ws a word tail
      (k : option Z -> M bool) (Q : bool -> World -> Prop)
      (E : Z -> World -> Prop) :
  buffer_ok (t w) -> hasnext (t w) = 0 -> outside w = (p, g, out) ->
  pending (t w) = (ws ++ a :: word ++ tail)%list ->
  Forall space ws -> plain a -> a <> SLASH -> Forall plain word ->
  ends_blob tail ->
  (forall w', lexed (p, forget_comment g, out) (after_blob tail)
                    (string_of_list_ascii (a :: word)) OTHER w' ->
              results (k (Some 0)) w'
                      (List.length ws + List.length word + 1 < fuel)%nat
                      Q E) ->
  results (parse_try_consume_comment fuel true true ;;
           res <- tokenize_next fuel ;; k res) w
          (List.length ws + List.length word + 1 < fuel)%nat Q E.
Proof.
  intros B H O P Hws Ha Hsl Hword Htail Hk.
  destruct (outside_parts _ _ _ _ O) as (Hp & Hg & Ho).
  apply (parse_entity_token
           w _ p g out (after_blob tail) (string_of_list_ascii (a :: word))
           OTHER (Z.of_nat (S (List.length word))) k Q E H O);
    [discriminate | lia | | exact Hk].
  apply blob_token_yields; auto.
  unfold outside. simpl. now rewrite Hp.
Qed.

(** [parse_entity] when only white space is left: it returns False. *)
Lemma parse_entity_end w ws p g out src_file :
  buffer_ok (t w) -> hasnext (t w) = 0 -> outside w = (p, g, out) ->
  pending (t w) = ws -> Forall space ws ->
  yields (parse_entity fuel src_file) w (List.length ws < fuel)%nat
         (fun r w' =>
            r = false
            /\ lexed (p, forget_comment g, out) [] EmptyString INVALID w').
Proof.
  intros B H O P Hws.
  destruct (outside_parts _ _ _ _ O) as (Hp & Hg & Ho).
  unfold parse_entity.
  apply yields_bind. unfold parse_try_consume_comment. cbn [when].
  apply yields_bind. unfold upd_cache. apply yields_upd_lcmgen.
  rewrite Hg, Ho. fold (forget_comment g).
  set (w0 := mkWorld (t w) (forget_comment g) out).
  assert (O0 : outside w0 = (p, forget_comment g, out)).
  { unfold outside. simpl. now rewrite Hp. }
  assert (Hn : (List.length ws < fuel)%nat -> (0 < fuel)%nat) by lia.
  eapply yields_conseq;
    [apply (consume_comments_end
              fuel true w0 _ _ [] EmptyString INVALID H Hn
              (white_space_yields _ fuel w0 ws B H O0 P Hws))
    |intros Hb; exact Hb|].
  intros u1 w1 L1. apply yields_bind.
  destruct (lexed_fresh _ _ _ _ _ L1) as (B1 & H1 & O1 & P1).
  eapply yields_conseq;
    [apply (white_space_yields _ fuel w1 [] B1 H1 O1 P1 (Forall_nil _))
    |simpl; lia|].
  intros r w2 (-> & L2). apply yields_ret. now split.
Qed.

(** [handle_open_file] when the parser is to run. *)
Lemma handle_open_file_parses path w (b : Prop)
      (Q : bool -> World -> Prop) :
  tokenize (gopt (lcmgen w)) <> Some true ->
  yields (parse_entities fuel fuel path) w b (fun _ w' => Q true w') ->
  yields (handle_open_file fuel path) w b Q.
Proof.
  intros Htok Y. unfold handle_open_file.
  apply yields_bind, yields_get_lcmgen.
  assert (Hp : yields (parse_entities fuel fuel path ;; ret true) w b Q).
  { apply yields_bind. eapply yields_conseq;
      [exact Y | intros Hb; exact Hb|].
    intros [] w' HQ. now apply yields_ret. }
  destruct (tokenize (gopt (lcmgen w))) as [[|]|];
    [congruence|exact Hp|exact Hp].
Qed.

(** The last turn of [parse_entities]. *)
Lemma parse_entities_last path n w (b : Prop)
      (Q : unit -> World -> Prop) :
  (b -> (0 < n)%nat) ->
  yields (parse_entity fuel path) w b
         (fun r w' => r = false /\ Q tt w') ->
  yields (parse_entities fuel n path) w b Q.
Proof.
  intros Hn Y.
  destruct n as [|n]; [apply yields_out_of_fuel; intros Hb;
                       specialize (Hn Hb); lia|].
  cbn [parse_entities]. apply yields_bind.
  eapply yields_conseq; [exact Y | intros Hb; exact Hb|].
  intros r w' (-> & HQ). now apply yields_ret.
Qed.

Lemma create_fresh path src g out :
  buffer_ok (t (mkWorld (create path src) g out))
  /\ hasnext (t (mkWorld (create path src) g out)) = 0
  /\ outside (mkWorld (create path src) g out) = (path, g, out)
  /\ pending (t (mkWorld (create path src) g out)) = Py.chars src.
Proof.
  split; [|repeat split].
  unfold buffer_ok. simpl. split; [lia|]. left. now split.
Qed.

(** What [handle_file] returns when [handle_open_file] returns. *)
Lemma handle_file_returns fs g out path src (b : Prop) suc g' out' :
  dict_get fs path = Some src ->
  yields (handle_open_file fuel path) (mkWorld (create path src) g out) b
         (fun r w' => r = suc /\ lcmgen w' = g' /\ stdout w' = out') ->
  b ->
  handle_file fuel fs g out path = Done suc g' out'.
Proof.
  intros Hsrc Y Hb. unfold handle_file. rewrite Hsrc.
  destruct (yields_ok _ _ _ _ Y Hb) as (r & w' & E & -> & <- & <-).
  now rewrite E.
Qed.

Lemma results_ret {A} (a : A) w (b : Prop) (Q : A -> World -> Prop) E :
  Q a w -> results (ret a) w b Q E.
Proof. intros H. exact H. Qed.

Lemma results_get_t w (b : Prop) (Q : Tokenize -> World -> Prop) E :
  Q (t w) w -> results get_t w b Q E.
Proof. intros H. exact H. Qed.

Lemma results_get_lcmgen w (b : Prop) (Q : Lcmgen -> World -> Prop) E :
  Q (lcmgen w) w -> results get_lcmgen w b Q E.
Proof. intros H. exact H. Qed.

(** [parse_error] prints five lines, the message second, and exits with
    status 1. *)
Lemma results_parse_error {A} msg w (b : Prop) (Q : A -> World -> Prop)
      (E : Z -> World -> Prop) :
  (forall l1 l2 l3,
      E 1 (mkWorld (t w) (lcmgen w)
                   (stdout w ++ [EmptyString; msg; l1; l2; l3]))) ->
  results (parse_error msg) w b Q E.
Proof.
  intros HE.
  unfold results, parse_error, bind, get_t, print, sys_exit.
  cbn [t lcmgen stdout].
  rewrite <- !app_assoc. apply HE.
Qed.

Lemma results_ok {A} (m : M A) w (b : Prop) Q E :
  results m w b Q E -> b ->
  (exists a w', m w = Ok a w' /\ Q a w')
  \/ (exists c w', m w = Exit c w' /\ E c w').
Proof.
  unfold results. intros R Hb.
  destruct (m w) as [a w'|c w'| |]; try contradiction.
  - left. now exists a, w'.
  - right. now exists c, w'.
Qed.

End ParserSteps.

(** X24: a file of white space only is accepted: [handle_file] returns
    True, prints nothing and records nothing; the pending comment is
    dropped. *)
Theorem white_space_file_is_accepted :
  forall fuel fs g out path src,
    dict_get fs path = Some src -> tokenize (gopt g) <> Some true ->
    Forall space (Py.chars src) ->
    (List.length (Py.chars src) < fuel)%nat ->
    handle_file fuel fs g out path = Done true (forget_comment g) out.
Proof.
  intros fuel fs g out path src Hsrc Htok Hws Hfuel.
  destruct (create_fresh path src g out) as (B & H & O & P).
  apply (handle_file_returns
           fuel fs g out path src
           (List.length (Py.chars src) < fuel)%nat _ _ _ Hsrc);
    [|exact Hfuel].
  apply handle_open_file_parses; [exact Htok|].
  apply parse_entities_last; [lia|].
  eapply yields_conseq;
    [apply (parse_entity_end fuel _ _ _ _ _ path B H O P Hws)
    |intros Hb; exact Hb|].
  intros r w' (-> & L). split; [reflexivity|].
  destruct L as (_ & _ & _ & _ & _ & O').
  apply outside_parts in O'. repeat split; apply O'.
Qed.

Lemma white_space_file_witness :
  handle_file 8 [("e.lcm", " ")] create_lcmgen [] "e.lcm"
  = Done true (forget_comment create_lcmgen) [].
Proof.
  apply (white_space_file_is_accepted
           8 [("e.lcm", " ")] create_lcmgen [] "e.lcm" " ").
  - reflexivity.
  - discriminate.
  - repeat constructor.
  - simpl. lia.
Defined.

(** X25: the keyword [enum] at the place of an entity ends the file
    without an error: [handle_file] prints that enums are no longer
    supported and returns True; what follows in the file is not read,
    and nothing is recorded. *)
Theorem enum_ends_the_file :
  forall fuel fs g out path src ws tail,
    dict_get fs path = Some src -> tokenize (gopt g) <> Some true ->
    Py.chars src = (ws ++ Py.chars "enum" ++ tail)%list ->
    Forall space ws -> ends_blob tail ->
    (List.length ws + 4 < fuel)%nat ->
    handle_file fuel fs g out path
    = Done true (forget_comment g)
           (out ++ ["Enums are no longer supported."]).
Proof.
  intros fuel fs g out path src ws tail Hsrc Htok Hchars Hws Htail Hfuel.
  destruct (create_fresh path src g out) as (B & H & O & P).
  rewrite Hchars in P.
  apply (handle_file_returns
           fuel fs g out path src
           (List.length ws + List.length (Py.chars "num") + 1 < fuel)%nat
           _ _ _ Hsrc);
    [|simpl; lia].
  apply handle_open_file_parses; [exact Htok|].
  apply parse_entities_last; [lia|].
  unfold parse_entity.
  apply (parse_entity_blob
           fuel _ path g out ws "e"%char (Py.chars "num") tail _ _
           (fun _ _ => False) B H O P Hws);
    [repeat split; reflexivity | discriminate
    |repeat constructor; reflexivity | exact Htail |].
  intros w1 L1. pose proof L1 as (_ & _ & T1 & _ & _ & O1).
  apply outside_parts in O1. destruct O1 as (Hp & Hg & Ho).
  apply yields_bind, yields_get_t. rewrite T1.
  change (String.eqb (string_of_list_ascii ("e"%char :: Py.chars "num"))
                     KW_PACKAGE) with false.
  change (String.eqb (string_of_list_ascii ("e"%char :: Py.chars "num"))
                     KW_STRUCT) with false.
  change (String.eqb (string_of_list_ascii ("e"%char :: Py.chars "num"))
                     KW_ENUM) with true.
  cbv iota.
  apply yields_bind, yields_print, yields_ret.
  split; [reflexivity|]. cbn [lcmgen stdout]. rewrite Hg, Ho.
  now repeat split.
Qed.

Lemma enum_ends_the_file_witness :
  handle_file 16 [("e.lcm", "enum color { RED }")] create_lcmgen [] "e.lcm"
  = Done true (forget_comment create_lcmgen)
         ["Enums are no longer supported."].
Proof.
  apply (enum_ends_the_file
           16 [("e.lcm", "enum color { RED }")] create_lcmgen [] "e.lcm"
           "enum color { RED }" [] (Py.chars " color { RED }")).
  - reflexivity.
  - discriminate.
  - reflexivity.
  - constructor.
  - left. reflexivity.
  - simpl. lia.
Defined.

(** X26: a blob other than [package], [struct] and [enum] at the place of
    an entity is a parse error: [handle_file] prints an empty line, the
    message [Missing struct token.] and three lines that locate the
    token, and the program exits with status 1; nothing is recorded. *)
Theorem unknown_entity_is_a_parse_error :
  forall fuel fs g out path src ws a word tail,
    dict_get fs path = Some src -> tokenize (gopt g) <> Some true ->
    Py.chars src = (ws ++ a :: word ++ tail)%list ->
    Forall space ws -> plain a -> a <> SLASH -> Forall plain word ->
    ends_blob tail ->
    string_of_list_ascii (a :: word) <> KW_PACKAGE ->
    string_of_list_ascii (a :: word) <> KW_STRUCT ->
    string_of_list_ascii (a :: word) <> KW_ENUM ->
    (List.length ws + List.length word + 1 < fuel)%nat ->
    exists l1 l2 l3,
      handle_file fuel fs g out path
      = Stopped 1 (forget_comment g)
                (out ++ [EmptyString; "Missing struct token."; l1; l2; l3]).
Proof.
  intros fuel fs g out path src ws a word tail
         Hsrc Htok Hchars Hws Ha Hsl Hword Htail Hp Hs He Hfuel.
  destruct (create_fresh path src g out) as (B & H & O & P).
  rewrite Hchars in P.
  set (w := mkWorld (create path src) g out) in *.
  set (E := fun (c : Z) (w' : World) =>
              c = 1 /\ lcmgen w' = forget_comment g
              /\ exists l1 l2 l3,
                  stdout w'
                  = (out ++ [EmptyString; "Missing struct token.";
                             l1; l2; l3])%list).
  assert (R : results
                (handle_open_file fuel path) w
                (List.length ws + List.length word + 1 < fuel)%nat
                (fun _ _ => False) E).
  { assert (Rp : results
                   (parse_entities fuel fuel path ;; ret true) w
                   (List.length ws + List.length word + 1 < fuel)%nat
                   (fun _ _ => False) E).
    { apply results_bind.
      destruct fuel as [|n]; [unfold results; simpl; lia|].
      cbn [parse_entities]. apply results_bind.
      unfold parse_entity.
      apply (parse_entity_blob
               (S n) w path g out ws a word tail _ _ E B H O P Hws Ha Hsl
               Hword Htail).
      intros w1 L1. pose proof L1 as (_ & _ & T1 & _ & _ & O1).
      apply outside_parts in O1. destruct O1 as (Hp1 & Hg1 & Ho1).
      apply results_bind, results_get_t. rewrite T1.
      apply String.eqb_neq in Hp, Hs, He. rewrite Hp, Hs, He.
      apply results_parse_error. intros l1 l2 l3.
      split; [reflexivity|]. split; [exact Hg1|].
      exists l1, l2, l3. cbn [stdout]. now rewrite Ho1. }
    unfold handle_open_file. apply results_bind, results_get_lcmgen.
    destruct (tokenize (gopt (lcmgen w))) as [[|]|] eqn:Et;
      [|exact Rp|exact Rp].
    elim Htok. exact Et. }
  destruct (results_ok _ _ _ _ _ R Hfuel)
    as [(r & w' & _ & [])|(c & w' & Ex & -> & Hg' & l1 & l2 & l3 & Ho')].
  exists l1, l2, l3. unfold handle_file. rewrite Hsrc.
  fold w. rewrite Ex. now rewrite Hg', Ho'.
Qed.

Lemma unknown_entity_witness :
  exists l1 l2 l3,
    handle_file 16 [("u.lcm", "union u { }")] create_lcmgen [] "u.lcm"
    = Stopped 1 (forget_comment create_lcmgen)
              ([] ++ [EmptyString; "Missing struct token."; l1; l2; l3]).
Proof.
  apply (unknown_entity_is_a_parse_error
           16 [("u.lcm", "union u { }")] create_lcmgen [] "u.lcm"
           "union u { }" [] "u"%char (Py.chars "nion")
           (Py.chars " u { }")).
  - reflexivity.
  - discriminate.
  - reflexivity.
  - constructor.
  - repeat split; reflexivity.
  - discriminate.
  - repeat constructor; reflexivity.
  - left. reflexivity.
  - discriminate.
  - discriminate.
  - discriminate.
  - simpl. lia.
Defined.

(** ** Directives and structs *)

Section Directives.

Variable fuel : nat.

(** The next token, which is no comment, is read for the parser. *)
Lemma read_token {A} has_lcmgen d w (b : Prop) o l tx ty r
      (k : M A) (Q : A -> World -> Prop) :
  hasnext (t w) = 0 -> ty <> COMMENT -> (b -> (0 < fuel)%nat) ->
  yields (tokenize_next fuel) w b
         (fun r' w' => r' = Some r /\ lexed o l tx ty w') ->
  (forall w', lexed o l tx ty w' -> yields k w' b Q) ->
  yields (parse_try_consume_comment fuel has_lcmgen false ;;
          tokenize_next_or_fail fuel d ;; k) w b Q.
Proof.
  intros H Hty Hn Y Hk.
  apply yields_bind. unfold parse_try_consume_comment. cbn [when].
  apply yields_bind, yields_ret.
  eapply yields_conseq;
    [apply (consume_comments_token fuel fuel false w b o l tx ty r
              H Hty Hn Y)
    |intros Hb; exact Hb|].
  intros u1 w1 L1. apply yields_bind. unfold tokenize_next_or_fail.
  apply yields_bind.
  eapply yields_conseq;
    [apply (next_peeked fuel _ _ _ _ _ _ L1)|intros Hb; exact Hb|].
  intros r' w2 (-> & L2). cbn [is_some negb when].
  apply yields_ret. now apply Hk.
Qed.

(** [parse_require] in front of the token it asks for. *)
Lemma require_token {A} tok w (b : Prop) o l ty r
      (k : M A) (Q : A -> World -> Prop) :
  hasnext (t w) = 0 -> ty <> COMMENT -> (b -> (0 < fuel)%nat) ->
  yields (tokenize_next fuel) w b
         (fun r' w' => r' = Some r /\ lexed o l tok ty w') ->
  (forall w', lexed o l tok ty w' -> yields k w' b Q) ->
  yields (parse_require fuel tok ;; k) w b Q.
Proof.
  intros H Hty Hn Y Hk.
  apply yields_bind. unfold parse_require.
  apply yields_bind. unfold parse_try_consume_comment. cbn [when].
  apply yields_bind, yields_ret.
  eapply yields_conseq;
    [apply (consume_comments_token fuel fuel false w b o l tok ty r
              H Hty Hn Y)
    |intros Hb; exact Hb|].
  intros u1 w1 L1. apply yields_bind.
  eapply yields_conseq;
    [apply (next_peeked fuel _ _ _ _ _ _ L1)|intros Hb; exact Hb|].
  intros r' w2 (-> & L2). pose proof L2 as (_ & _ & T2 & Ty2 & _).
  apply yields_bind.
  destruct fuel as [|n]; [apply yields_out_of_fuel; intros Hb;
                          specialize (Hn Hb); lia|].
  cbn [skip_comment_tokens].
  apply yields_bind, yields_get_t. rewrite Ty2, (not_comment _ Hty).
  apply yields_ret, yields_bind, yields_get_t.
  rewrite T2, String.eqb_refl. cbn [is_some negb orb when].
  apply yields_ret. now apply Hk.
Qed.

(** [parse_try_consume] in front of the peeked token it asks for. *)
Lemma try_consume_peeked {A} tok w (b : Prop) o l ty
      (k : bool -> M A) (Q : A -> World -> Prop) :
  peeked o l tok ty w -> ty <> COMMENT -> (b -> (0 < fuel)%nat) ->
  (forall w', lexed o l tok ty w' -> yields (k true) w' b Q) ->
  yields (res <- parse_try_consume fuel tok ;; k res) w b Q.
Proof.
  intros L Hty Hn Hk.
  apply yields_bind. unfold parse_try_consume.
  apply yields_bind. unfold parse_try_consume_comment. cbn [when].
  apply yields_bind, yields_ret.
  eapply yields_conseq;
    [apply (consume_comments_peeked fuel fuel false w b o l tok ty
              L Hty Hn)
    |intros Hb; exact Hb|].
  intros u1 w1 L1. apply yields_bind.
  eapply yields_conseq;
    [apply (peek_peeked fuel _ _ _ _ _ _ L1)|intros Hb; exact Hb|].
  intros r' w2 (-> & L2). pose proof L2 as (_ & _ & T2 & Ty2 & _).
  cbn [is_some negb when].
  apply yields_bind, yields_ret, yields_bind, yields_get_t.
  rewrite T2, Ty2, (not_comment _ Hty), String.eqb_refl.
  cbn [negb andb when].
  apply yields_bind, yields_bind.
  eapply yields_conseq;
    [apply (next_peeked fuel _ _ _ _ _ _ L2)|intros Hb; exact Hb|].
  intros r' w3 (-> & L3). apply yields_ret, yields_ret. now apply Hk.
Qed.

Lemma after_blob_space s rest :
  Py.isspace s = true -> after_blob (s :: rest) = rest.
Proof. intros H. cbn [after_blob]. now rewrite H. Qed.

(** What a blob leaves in front of a character [x] that is no white
    space. *)
Lemma after_blob_spaces ws x tail :
  Forall space ws -> Py.isspace x = false ->
  exists ws',
    Forall space ws' /\ (List.length ws' <= List.length ws)%nat
    /\ after_blob (ws ++ x :: tail) = (ws' ++ x :: tail)%list.
Proof.
  intros Hws Hx. destruct ws as [|c r].
  - exists []. cbn [app after_blob]. rewrite Hx. auto.
  - inversion Hws as [|? ? Hc Hr]; subst. exists r.
    cbn [app]. rewrite (after_blob_space _ _ Hc). simpl. auto.
Qed.

Lemma ends_blob_spaces ws x tail :
  Forall space ws ->
  Py.chr_in x SINGLE_CHAR_TOKENS = true ->
  ends_blob (ws ++ x :: tail).
Proof.
  intros Hws Hx. destruct ws as [|c r]; cbn [app ends_blob].
  - right. now left.
  - left. now inversion Hws.
Qed.

Lemma blob_next w (b : Prop) o ws a word tail :
  buffer_ok (t w) -> hasnext (t w) = 0 -> outside w = o ->
  pending (t w) = (ws ++ a :: word ++ tail)%list ->
  Forall space ws -> plain a -> a <> SLASH -> Forall plain word ->
  ends_blob tail ->
  (b -> (List.length ws + List.length word + 1 < fuel)%nat) ->
  yields (tokenize_next fuel) w b
         (fun r w' =>
            r = Some (Z.of_nat (S (List.length word)))
            /\ lexed o (after_blob tail) (string_of_list_ascii (a :: word))
                     OTHER w').
Proof.
  intros B H O P Hws Ha Hsl Hword Htail Hb.
  eapply yields_conseq;
    [apply (blob_token_yields o fuel w ws a word tail); assumption
    |exact Hb|auto].
Qed.

Lemma single_next w (b : Prop) o ws x tail :
  buffer_ok (t w) -> hasnext (t w) = 0 -> outside w = o ->
  pending (t w) = (ws ++ x :: tail)%list ->
  Forall space ws -> In x (Py.chars "();,:[]") ->
  (b -> (List.length ws + 1 < fuel)%nat) ->
  yields (tokenize_next fuel) w b
         (fun r w' =>
            r = Some 1 /\ lexed o tail (String x EmptyString) OTHER w').
Proof.
  intros B H O P Hws Hx Hb.
  eapply yields_conseq;
    [apply (single_character_yields o fuel w ws x tail); assumption
    |exact Hb|auto].
Qed.

(** A turn of [parse_entities] that is not the last. *)
Lemma parse_entities_turn path n w (b : Prop)
      (Q : unit -> World -> Prop) :
  (b -> (0 < n)%nat) ->
  yields (parse_entity fuel path) w b
         (fun r w' =>
            r = true /\ yields (parse_entities fuel (pred n) path) w' b Q) ->
  yields (parse_entities fuel n path) w b Q.
Proof.
  intros Hn Y.
  destruct n as [|n]; [apply yields_out_of_fuel; intros Hb;
                       specialize (Hn Hb); lia|].
  cbn [parse_entities]. apply yields_bind.
  eapply yields_conseq; [exact Y | intros Hb; exact Hb|].
  intros r w' (-> & HQ). exact HQ.
Qed.

(** The world after [upd_cache]. *)
Lemma lexed_upd_cache f p g out l tx ty w :
  lexed (p, g, out) l tx ty w ->
  lexed (p, set_parse_cache (f (parse_cache g)) g, out) l tx ty
        (mkWorld (t w)
                 (set_parse_cache (f (parse_cache (lcmgen w))) (lcmgen w))
                 (stdout w)).
Proof.
  intros (B & P & T & Ty & H & O).
  destruct (outside_parts _ _ _ _ O) as (Hp & Hg & Ho).
  repeat split; try assumption; try apply B.
  unfold outside. cbn [t lcmgen stdout]. now rewrite Hp, Hg, Ho.
Qed.

(** The package directive, from the keyword on. *)
Lemma package_directive_yields path w (b : Prop) p g out
      ws0 s1 ws1 a word ws2 ws3 :
  buffer_ok (t w) -> hasnext (t w) = 0 -> outside w = (p, g, out) ->
  pending (t w)
  = (ws0 ++ Py.chars "package" ++ s1 :: ws1 ++ a :: word
         ++ ws2 ++ ";"%char :: ws3)%list ->
  Forall space ws0 -> space s1 -> Forall space ws1 ->
  plain a -> a <> SLASH -> Forall plain word -> Forall space ws2 ->
  (b -> (List.length ws0 + List.length ws1 + List.length word
         + List.length ws2 + 8 < fuel)%nat) ->
  yields (parse_entity fuel path) w b
         (fun r w' =>
            r = true
            /\ lexed (p,
                      set_parse_cache
                        (mkParseCache (string_of_list_ascii (a :: word))
                                      None None) g,
                      out)
                     ws3 ";" OTHER w').
Proof.
  intros B H O P Hws0 Hs1 Hws1 Ha Hsl Hword Hws2 Hb.
  unfold parse_entity.
  apply (parse_entity_token
           fuel w b p g out
           (ws1 ++ a :: word ++ ws2 ++ ";"%char :: ws3)%list
           "package" OTHER 7 _ _ (fun _ _ => False) H O);
    [discriminate | intros Hf; specialize (Hb Hf); lia | |].
  { destruct (outside_parts _ _ _ _ O) as (Hp & Hg & Ho).
    rewrite <- (after_blob_space s1 _ Hs1).
    apply (blob_next
             (mkWorld (t w) (forget_comment g) out) b _ ws0 "p"%char
             (Py.chars "ackage")
             (s1 :: ws1 ++ a :: word ++ ws2 ++ ";"%char :: ws3)%list
             B H);
      [unfold outside; simpl; now rewrite Hp | exact P | exact Hws0
      |repeat split; reflexivity | discriminate
      |repeat constructor; reflexivity | left; exact Hs1
      |intros Hf; specialize (Hb Hf); simpl; lia]. }
  intros w1 L1. pose proof L1 as (_ & _ & T1 & _).
  apply yields_bind, yields_get_t. rewrite T1.
  change (String.eqb "package" KW_PACKAGE) with true. cbv iota.
  apply yields_bind. unfold upd_cache at 1. apply yields_upd_lcmgen.
  apply (lexed_upd_cache
           (fun c => set_comment_doc None
                       (set_file_comment (comment_doc c) c))) in L1.
  match type of L1 with lexed (_, ?g1, _) _ _ _ ?w2 =>
    set (G1 := g1) in *; set (W2 := w2) in * end.
  destruct (lexed_fresh _ _ _ _ _ L1) as (B2 & H2 & O2 & P2).
  destruct (after_blob_spaces ws2 ";"%char ws3 Hws2 eq_refl)
    as (ws2' & Hws2' & Hlen & Eblob).
  apply (read_token
           true "package name" W2 b (p, G1, out)
           (ws2' ++ ";"%char :: ws3)%list
           (string_of_list_ascii (a :: word)) OTHER
           (Z.of_nat (S (List.length word))) _ _ H2);
    [discriminate | intros Hf; specialize (Hb Hf); lia | |].
  { rewrite <- Eblob.
    apply (blob_next W2 b _ ws1 a word (ws2 ++ ";"%char :: ws3)%list
             B2 H2 O2 P2 Hws1 Ha Hsl Hword);
      [apply ends_blob_spaces; [exact Hws2|reflexivity]
      |intros Hf; specialize (Hb Hf); lia]. }
  intros w3 L3. pose proof L3 as (_ & _ & T3 & _).
  apply yields_bind, yields_get_t. rewrite T3.
  apply yields_bind. unfold upd_cache at 1. apply yields_upd_lcmgen.
  apply (lexed_upd_cache
           (set_cache_package (string_of_list_ascii (a :: word)))) in L3.
  match type of L3 with lexed (_, ?g3, _) _ _ _ ?w4 =>
    set (G3 := g3) in *; set (W4 := w4) in * end.
  destruct (lexed_fresh _ _ _ _ _ L3) as (B4 & H4 & O4 & P4).
  apply (require_token
           ";" W4 b (p, G3, out) ws3 OTHER 1 _ _ H4);
    [discriminate | intros Hf; specialize (Hb Hf); lia | |].
  { apply (single_next W4 b _ ws2' ";"%char ws3 B4 H4 O4 P4 Hws2');
      [simpl; tauto | intros Hf; specialize (Hb Hf); lia]. }
  intros w5 L5. apply yields_ret. split; [reflexivity|exact L5].
Qed.

End Directives.

(** X27: a file that holds one package directive, [package NAME;] with
    white space around the tokens, is accepted: the package of the
    compiler state becomes [NAME], whatever blob [NAME] is, the pending
    comment and the file comment are cleared, and nothing is printed or
    recorded. *)
Theorem package_directive_sets_the_package :
  forall fuel fs g out path src ws0 s1 ws1 a word ws2 ws3,
    dict_get fs path = Some src -> tokenize (gopt g) <> Some true ->
    Py.chars src
    = (ws0 ++ Py.chars "package" ++ s1 :: ws1 ++ a :: word
           ++ ws2 ++ ";"%char :: ws3)%list ->
    Forall space ws0 -> space s1 -> Forall space ws1 ->
    plain a -> a <> SLASH -> Forall plain word ->
    Forall space ws2 -> Forall space ws3 ->
    (List.length ws0 + List.length ws1 + List.length word
     + List.length ws2 + List.length ws3 + 8 < fuel)%nat ->
    handle_file fuel fs g out path
    = Done true
           (set_parse_cache
              (mkParseCache (string_of_list_ascii (a :: word)) None None)
              g)
           out.
Proof.
  intros fuel fs g out path src ws0 s1 ws1 a word ws2 ws3 Hsrc Htok
         Hchars Hws0 Hs1 Hws1 Ha Hsl Hword Hws2 Hws3 Hfuel.
  destruct (create_fresh path src g out) as (B & H & O & P).
  rewrite Hchars in P.
  apply (handle_file_returns
           fuel fs g out path src
           (List.length ws0 + List.length ws1 + List.length word
            + List.length ws2 + List.length ws3 + 8 < fuel)%nat
           _ _ _ Hsrc);
    [|exact Hfuel].
  apply handle_open_file_parses; [exact Htok|].
  apply parse_entities_turn; [lia|].
  eapply yields_conseq;
    [apply (package_directive_yields
              fuel path _ _ path g out ws0 s1 ws1 a word ws2 ws3
              B H O P Hws0 Hs1 Hws1 Ha Hsl Hword Hws2)
    |intros Hb; exact Hb|]; [lia|].
  intros r w1 (-> & L1). split; [reflexivity|].
  destruct (lexed_fresh _ _ _ _ _ L1) as (B1 & H1 & O1 & P1).
  apply parse_entities_last; [lia|].
  eapply yields_conseq;
    [apply (parse_entity_end fuel _ _ _ _ _ path B1 H1 O1 P1 Hws3)
    |lia|].
  intros r w' (-> & L). split; [reflexivity|].
  destruct L as (_ & _ & _ & _ & _ & O').
  apply outside_parts in O'. repeat split; apply O'.
Qed.

Lemma package_directive_witness :
  handle_file 32 [("p.lcm", "package a.b ;")] create_lcmgen [] "p.lcm"
  = Done true
         (set_parse_cache (mkParseCache "a.b" None None) create_lcmgen) [].
Proof.
  apply (package_directive_sets_the_package
           32 [("p.lcm", "package a.b ;")] create_lcmgen [] "p.lcm"
           "package a.b ;" [] " "%char [] "a"%char (Py.chars ".b")
           [" "%char] []).
  - reflexivity.
  - discriminate.
  - reflexivity.
  - constructor.
  - reflexivity.
  - constructor.
  - repeat split; reflexivity.
  - discriminate.
  - repeat constructor; reflexivity.
  - repeat constructor.
  - constructor.
  - simpl. lia.
Defined.

(** ** Struct declarations *)

Section StructSteps.

Variable fuel : nat.

(** [parse_struct_body] in front of the closing brace. *)
Lemma struct_body_closes n st w (b : Prop) p g out ws tail :
  buffer_ok (t w) -> hasnext (t w) = 0 -> outside w = (p, g, out) ->
  pending (t w) = (ws ++ "}"%char :: tail)%list ->
  Forall space ws -> ends_blob tail ->
  (b -> (0 < n)%nat /\ (List.length ws + 1 < fuel)%nat) ->
  yields (parse_struct_body fuel n st) w b
         (fun r w' =>
            r = st
            /\ lexed (p, forget_comment g, out) (after_blob tail) "}"
                     OTHER w').
Proof.
  intros B H O P Hws Htail Hb.
  destruct (outside_parts _ _ _ _ O) as (Hp & Hg & Ho).
  destruct n as [|n]; [apply yields_out_of_fuel; intros Hf;
                       specialize (Hb Hf); lia|].
  cbn [parse_struct_body].
  apply yields_bind. unfold parse_try_consume_comment. cbn [when].
  apply yields_bind. unfold upd_cache. apply yields_upd_lcmgen.
  rewrite Hg, Ho. fold (forget_comment g).
  set (w0 := mkWorld (t w) (forget_comment g) out).
  assert (O0 : outside w0 = (p, forget_comment g, out)).
  { unfold outside. simpl. now rewrite Hp. }
  assert (Hn : b -> (0 < fuel)%nat) by (intros Hf; specialize (Hb Hf); lia).
  assert (Y : yields (tokenize_next fuel) w0 b
                     (fun r w' =>
                        r = Some 1
                        /\ lexed (p, forget_comment g, out)
                                 (after_blob tail) "}" OTHER w')).
  { apply (blob_next fuel w0 b _ ws "}"%char [] tail B H O0 P Hws);
      [repeat split; reflexivity | discriminate | constructor
      |exact Htail | intros Hf; specialize (Hb Hf); simpl; lia]. }
  assert (Hty : OTHER <> COMMENT) by discriminate.
  eapply yields_conseq;
    [apply (consume_comments_token
              fuel fuel true w0 b _ _ _ _ _ H Hty Hn Y)
    |intros Hf; exact Hf|].
  intros u1 w1 L1.
  apply (try_consume_peeked
           fuel "}" w1 b _ _ OTHER
           (fun closed : bool =>
              if closed then ret st
              else structure <- parse_member fuel st ;;
                   parse_struct_body fuel n structure)
           _ L1);
    [discriminate | exact Hn |].
  intros w2 L2. apply yields_ret. now split.
Qed.

(** A struct declaration with an empty body, from the keyword on. *)
Lemma empty_struct_yields path w (b : Prop) p g out
      ws0 s1 ws1 a word s2 ws2 s3 ws3 tail :
  buffer_ok (t w) -> hasnext (t w) = 0 -> outside w = (p, g, out) ->
  pending (t w)
  = (ws0 ++ Py.chars "struct" ++ s1 :: ws1 ++ a :: word
         ++ s2 :: ws2 ++ "{"%char :: s3 :: ws3 ++ "}"%char :: tail)%list ->
  Forall space ws0 -> space s1 -> Forall space ws1 ->
  plain a -> a <> SLASH -> Forall plain word ->
  space s2 -> Forall space ws2 -> space s3 -> Forall space ws3 ->
  ends_blob tail ->
  find_struct
    g
    (package
       (structname
          (empty_struct g path (string_of_list_ascii (a :: word)))))
    (shortname
       (structname
          (empty_struct g path (string_of_list_ascii (a :: word)))))
  = None ->
  (b -> (List.length ws0 + List.length ws1 + List.length word
         + List.length ws2 + List.length ws3 + 8 < fuel)%nat) ->
  yields (parse_entity fuel path) w b
         (fun r w' =>
            r = true
            /\ lexed (p,
                      set_lcmgen_structs
                        (lcmgen_structs g
                         ++ [empty_struct
                               g path (string_of_list_ascii (a :: word))])
                        (set_parse_cache
                           (mkParseCache (cache_package (parse_cache g))
                                         None None) g),
                      out)
                     (after_blob tail) "}" OTHER w').
Proof.
  intros B H O P Hws0 Hs1 Hws1 Ha Hsl Hword Hs2 Hws2 Hs3 Hws3 Htail
         Hfind Hb.
  assert (Hn : b -> (0 < fuel)%nat) by (intros Hf; specialize (Hb Hf); lia).
  unfold parse_entity.
  apply (parse_entity_token
           fuel w b p g out
           (ws1 ++ a :: word ++ s2 :: ws2 ++ "{"%char :: s3 :: ws3
                ++ "}"%char :: tail)%list
           "struct" OTHER 6 _ _ (fun _ _ => False) H O);
    [discriminate | exact Hn | |].
  { destruct (outside_parts _ _ _ _ O) as (Hp & Hg & Ho).
    rewrite <- (after_blob_space s1 _ Hs1).
    apply (blob_next
             fuel (mkWorld (t w) (forget_comment g) out) b _ ws0 "s"%char
             (Py.chars "truct")
             (s1 :: ws1 ++ a :: word ++ s2 :: ws2 ++ "{"%char :: s3 :: ws3
                 ++ "}"%char :: tail)%list
             B H);
      [unfold outside; simpl; now rewrite Hp | exact P | exact Hws0
      |repeat split; reflexivity | discriminate
      |repeat constructor; reflexivity | left; exact Hs1
      |intros Hf; specialize (Hb Hf); simpl; lia]. }
  intros w1 L1. pose proof L1 as (_ & _ & T1 & _).
  apply yields_bind, yields_get_t. rewrite T1.
  change (String.eqb "struct" KW_PACKAGE) with false.
  change (String.eqb "struct" KW_STRUCT) with true. cbv iota.
  destruct (lexed_fresh _ _ _ _ _ L1) as (B1 & H1 & O1 & P1).
  apply yields_bind. unfold parse_struct.
  apply (read_token
           fuel true "struct name" w1 b (p, forget_comment g, out)
           (ws2 ++ "{"%char :: s3 :: ws3 ++ "}"%char :: tail)%list
           (string_of_list_ascii (a :: word)) OTHER
           (Z.of_nat (S (List.length word))) _ _ H1);
    [discriminate | exact Hn | |].
  { rewrite <- (after_blob_space
                  s2 (ws2 ++ "{"%char :: s3 :: ws3 ++ "}"%char :: tail)
                  Hs2).
    apply (blob_next
             fuel w1 b _ ws1 a word
             (s2 :: ws2 ++ "{"%char :: s3 :: ws3 ++ "}"%char :: tail)%list
             B1 H1 O1 P1 Hws1 Ha Hsl Hword);
      [left; exact Hs2 | intros Hf; specialize (Hb Hf); lia]. }
  intros w3 L3. pose proof L3 as (_ & _ & T3 & _ & _ & O3).
  apply outside_parts in O3. destruct O3 as (_ & Hg3 & _).
  apply yields_bind, yields_get_t. rewrite T3.
  apply yields_bind, yields_get_lcmgen. rewrite Hg3. cbv zeta.
  apply yields_bind. unfold upd_cache at 1. apply yields_upd_lcmgen.
  apply (lexed_upd_cache (set_file_comment None)) in L3.
  match type of L3 with lexed (_, ?g4, _) _ _ _ ?w4 =>
    set (G4 := g4) in *; set (W4 := w4) in * end.
  pose proof L3 as (_ & _ & _ & _ & _ & O4).
  apply outside_parts in O4. destruct O4 as (_ & Hg4 & _).
  apply yields_bind. unfold take_comment_doc.
  apply yields_bind, yields_get_lcmgen. rewrite Hg4.
  apply yields_bind. unfold upd_cache at 1. apply yields_upd_lcmgen.
  apply (lexed_upd_cache (set_comment_doc None)) in L3.
  match type of L3 with lexed (_, ?g5, _) _ _ _ ?w5 =>
    set (G5 := g5) in *; set (W5 := w5) in * end.
  apply yields_ret.
  destruct (lexed_fresh _ _ _ _ _ L3) as (B5 & H5 & O5 & P5).
  apply (require_token
           fuel "{" W5 b (p, G5, out)
           (ws3 ++ "}"%char :: tail)%list OTHER 1 _ _ H5);
    [discriminate | exact Hn | |].
  { rewrite <- (after_blob_space s3 (ws3 ++ "}"%char :: tail) Hs3).
    apply (blob_next
             fuel W5 b _ ws2 "{"%char []
             (s3 :: ws3 ++ "}"%char :: tail)%list B5 H5 O5 P5 Hws2);
      [repeat split; reflexivity | discriminate | constructor
      |left; exact Hs3 | intros Hf; specialize (Hb Hf); simpl; lia]. }
  intros w6 L6.
  destruct (lexed_fresh _ _ _ _ _ L6) as (B6 & H6 & O6 & P6).
  apply yields_bind.
  eapply yields_conseq;
    [apply (struct_body_closes
              fuel _ w6 b p G5 out ws3 tail B6 H6 O6 P6 Hws3 Htail)
    |intros Hf; exact Hf|];
    [intros Hf; specialize (Hb Hf); lia|].
  intros r w7 (-> & L7). apply yields_ret.
  pose proof L7 as (_ & _ & _ & _ & _ & O7).
  apply outside_parts in O7. destruct O7 as (Hp7 & Hg7 & Ho7).
  apply yields_bind, yields_get_lcmgen. rewrite Hg7.
  change (find_struct (forget_comment G5) _ _)
    with (find_struct
            g
            (package
               (structname
                  (empty_struct g path (string_of_list_ascii (a :: word)))))
            (shortname
               (structname
                  (empty_struct
                     g path (string_of_list_ascii (a :: word)))))).
  rewrite Hfind.
  apply yields_bind, yields_upd_lcmgen, yields_ret.
  split; [reflexivity|].
  destruct L7 as (B7 & P7 & T7 & Ty7 & H7 & _).
  repeat split; try assumption; try apply B7.
  unfold outside. cbn [t lcmgen stdout]. rewrite Hp7, Hg7, Ho7.
  reflexivity.
Qed.

End StructSteps.

Lemma spaces_end_blob ws : Forall space ws -> ends_blob ws.
Proof. intros [|c r Hc Hr]; cbn [ends_blob]; auto. Qed.

Lemma after_blob_of_spaces ws :
  Forall space ws ->
  Forall space (after_blob ws)
  /\ (List.length (after_blob ws) <= List.length ws)%nat.
Proof.
  intros [|c r Hc Hr]; cbn [after_blob].
  - split; [constructor|lia].
  - rewrite Hc. split; [exact Hr|simpl; lia].
Qed.

(** X28: a file that holds one struct declaration with an empty body,
    [struct NAME { }] with white space around the tokens and no
    comment, is accepted: a struct of that name with no member and no
    constant is added at the end of the recorded structs, with the
    fingerprint of its empty member list as its hash and the file as its
    source, provided no struct of that package and name is recorded
    yet; the name is any blob. *)
Theorem empty_struct_is_recorded :
  forall fuel fs g out path src ws0 s1 ws1 a word s2 ws2 s3 ws3 ws4,
    dict_get fs path = Some src -> tokenize (gopt g) <> Some true ->
    Py.chars src
    = (ws0 ++ Py.chars "struct" ++ s1 :: ws1 ++ a :: word
           ++ s2 :: ws2 ++ "{"%char :: s3 :: ws3 ++ "}"%char :: ws4)%list ->
    Forall space ws0 -> space s1 -> Forall space ws1 ->
    plain a -> a <> SLASH -> Forall plain word ->
    space s2 -> Forall space ws2 -> space s3 -> Forall space ws3 ->
    Forall space ws4 ->
    find_struct
      g
      (package
         (structname
            (empty_struct g path (string_of_list_ascii (a :: word)))))
      (shortname
         (structname
            (empty_struct g path (string_of_list_ascii (a :: word)))))
    = None ->
    (List.length ws0 + List.length ws1 + List.length word
     + List.length ws2 + List.length ws3 + List.length ws4 + 8 < fuel)%nat ->
    handle_file fuel fs g out path
    = Done true
           (set_lcmgen_structs
              (lcmgen_structs g
               ++ [empty_struct g path (string_of_list_ascii (a :: word))])
              (set_parse_cache
                 (mkParseCache (cache_package (parse_cache g)) None None)
                 g))
           out.
Proof.
  intros fuel fs g out path src ws0 s1 ws1 a word s2 ws2 s3 ws3 ws4
         Hsrc Htok Hchars Hws0 Hs1 Hws1 Ha Hsl Hword Hs2 Hws2 Hs3 Hws3
         Hws4 Hfind Hfuel.
  destruct (create_fresh path src g out) as (B & H & O & P).
  rewrite Hchars in P.
  destruct (after_blob_of_spaces ws4 Hws4) as (Hrest & Hlen).
  apply (handle_file_returns
           fuel fs g out path src
           (List.length ws0 + List.length ws1 + List.length word
            + List.length ws2 + List.length ws3 + List.length ws4 + 8
            < fuel)%nat
           _ _ _ Hsrc);
    [|exact Hfuel].
  apply handle_open_file_parses; [exact Htok|].
  apply parse_entities_turn; [lia|].
  eapply yields_conseq;
    [apply (empty_struct_yields
              fuel path _ _ path g out ws0 s1 ws1 a word s2 ws2 s3 ws3
              ws4 B H O P Hws0 Hs1 Hws1 Ha Hsl Hword Hs2 Hws2 Hs3 Hws3
              (spaces_end_blob ws4 Hws4) Hfind)
    |intros Hb; exact Hb|]; [lia|].
  intros r w1 (-> & L1). split; [reflexivity|].
  destruct (lexed_fresh _ _ _ _ _ L1) as (B1 & H1 & O1 & P1).
  apply parse_entities_last; [lia|].
  eapply yields_conseq;
    [apply (parse_entity_end fuel _ _ _ _ _ path B1 H1 O1 P1 Hrest)
    |lia|].
  intros r w' (-> & L). split; [reflexivity|].
  destruct L as (_ & _ & _ & _ & _ & O').
  apply outside_parts in O'. repeat split; apply O'.
Qed.

Lemma empty_struct_witness :
  handle_file 32 [("s.lcm", "struct pt { }")] create_lcmgen [] "s.lcm"
  = Done true
         (set_lcmgen_structs
            (lcmgen_structs create_lcmgen
             ++ [empty_struct create_lcmgen "s.lcm" "pt"])
            (set_parse_cache
               (mkParseCache (cache_package (parse_cache create_lcmgen))
                             None None)
               create_lcmgen))
         [].
Proof.
  apply (empty_struct_is_recorded
           32 [("s.lcm", "struct pt { }")] create_lcmgen [] "s.lcm"
           "struct pt { }" [] " "%char [] "p"%char (Py.chars "t")
           " "%char [] " "%char [] []).
  - reflexivity.
  - discriminate.
  - reflexivity.
  - constructor.
  - reflexivity.
  - constructor.
  - repeat split; reflexivity.
  - discriminate.
  - repeat constructor; reflexivity.
  - reflexivity.
  - constructor.
  - reflexivity.
  - constructor.
  - constructor.
  - reflexivity.
  - simpl. lia.
Defined.

(** ** A struct without its opening brace *)

Section MissingBrace.

Variable fuel : nat.

(** [read_token] in a run that may exit. *)
Lemma read_token_results {A} has_lcmgen d w (b : Prop) o l tx ty r
      (k : M A) (Q : A -> World -> Prop) (E : Z -> World -> Prop) :
  hasnext (t w) = 0 -> ty <> COMMENT -> (b -> (0 < fuel)%nat) ->
  yields (tokenize_next fuel) w b
         (fun r' w' => r' = Some r /\ lexed o l tx ty w') ->
  (forall w', lexed o l tx ty w' -> results k w' b Q E) ->
  results (parse_try_consume_comment fuel has_lcmgen false ;;
           tokenize_next_or_fail fuel d ;; k) w b Q E.
Proof.
  intros H Hty Hn Y Hk.
  apply results_step. unfold parse_try_consume_comment. cbn [when].
  apply yields_bind, yields_ret.
  eapply yields_conseq;
    [apply (consume_comments_token fuel fuel false w b o l tx ty r
              H Hty Hn Y)
    |intros Hb; exact Hb|].
  intros u1 w1 L1. apply results_step. unfold tokenize_next_or_fail.
  apply yields_bind.
  eapply yields_conseq;
    [apply (next_peeked fuel _ _ _ _ _ _ L1)|intros Hb; exact Hb|].
  intros r' w2 (-> & L2). cbn [is_some negb when].
  apply yields_ret. now apply Hk.
Qed.

(** [parse_require] in front of another token than the one it asks
    for. *)
Lemma require_other {A} tok w (b : Prop) o l tx ty r
      (k : M A) (Q : A -> World -> Prop) (E : Z -> World -> Prop) :
  hasnext (t w) = 0 -> ty <> COMMENT -> (b -> (0 < fuel)%nat) ->
  tx <> tok ->
  yields (tokenize_next fuel) w b
         (fun r' w' => r' = Some r /\ lexed o l tx ty w') ->
  (forall w' l1 l2 l3,
      lexed o l tx ty w' ->
      E 1 (mkWorld (t w') (lcmgen w')
                   (stdout w'
                    ++ [EmptyString; ("Expected token: " ++ tok)%string;
                        l1; l2; l3]))) ->
  results (parse_require fuel tok ;; k) w b Q E.
Proof.
  intros H Hty Hn Hne Y HE.
  apply results_bind. unfold parse_require.
  apply results_step. unfold parse_try_consume_comment. cbn [when].
  apply yields_bind, yields_ret.
  eapply yields_conseq;
    [apply (consume_comments_token fuel fuel false w b o l tx ty r
              H Hty Hn Y)
    |intros Hb; exact Hb|].
  intros u1 w1 L1. apply results_step.
  eapply yields_conseq;
    [apply (next_peeked fuel _ _ _ _ _ _ L1)|intros Hb; exact Hb|].
  intros r' w2 (-> & L2). pose proof L2 as (_ & _ & T2 & Ty2 & _).
  apply results_step.
  destruct fuel as [|n]; [apply yields_out_of_fuel; intros Hb;
                          specialize (Hn Hb); lia|].
  cbn [skip_comment_tokens].
  apply yields_bind, yields_get_t. rewrite Ty2, (not_comment _ Hty).
  apply yields_ret, results_bind, results_get_t.
  rewrite T2. apply String.eqb_neq in Hne. rewrite Hne.
  cbn [is_some negb orb when].
  apply results_parse_error. intros l1 l2 l3. now apply HE.
Qed.

End MissingBrace.

(** X29: a struct name that is not followed by the token of one opening
    brace is a parse error: when the blob after the name is anything
    else, such as [{}] or a brace with the first member glued to it,
    [handle_file] prints an empty line, the message
    [Expected token: {] and three lines that locate the token, and the
    program exits with status 1; no struct is recorded, and the pending
    comment and the file comment are cleared. *)
Theorem struct_needs_a_separate_brace :
  forall fuel fs g out path src ws0 s1 ws1 a word s2 ws2 c rest tail,
    dict_get fs path = Some src -> tokenize (gopt g) <> Some true ->
    Py.chars src
    = (ws0 ++ Py.chars "struct" ++ s1 :: ws1 ++ a :: word
           ++ s2 :: ws2 ++ c :: rest ++ tail)%list ->
    Forall space ws0 -> space s1 -> Forall space ws1 ->
    plain a -> a <> SLASH -> Forall plain word ->
    space s2 -> Forall space ws2 ->
    plain c -> c <> SLASH -> Forall plain rest -> ends_blob tail ->
    string_of_list_ascii (c :: rest) <> "{"%string ->
    (List.length ws0 + List.length ws1 + List.length word
     + List.length ws2 + List.length rest + 8 < fuel)%nat ->
    exists l1 l2 l3,
      handle_file fuel fs g out path
      = Stopped 1
                (set_parse_cache
                   (mkParseCache (cache_package (parse_cache g)) None None)
                   g)
                (out ++ [EmptyString; "Expected token: {"; l1; l2; l3]).
Proof.
  intros fuel fs g out path src ws0 s1 ws1 a word s2 ws2 c rest tail
         Hsrc Htok Hchars Hws0 Hs1 Hws1 Ha Hsl Hword Hs2 Hws2 Hc Hcsl
         Hrest Htail Hne Hfuel.
  destruct (create_fresh path src g out) as (B & H & O & P).
  rewrite Hchars in P.
  set (w := mkWorld (create path src) g out) in *.
  set (b := (List.length ws0 + List.length ws1 + List.length word
             + List.length ws2 + List.length rest + 8 < fuel)%nat).
  set (G := set_parse_cache
              (mkParseCache (cache_package (parse_cache g)) None None) g).
  set (E := fun (st : Z) (w' : World) =>
              st = 1 /\ lcmgen w' = G
              /\ exists l1 l2 l3,
                  stdout w'
                  = (out ++ [EmptyString; "Expected token: {";
                             l1; l2; l3])%list).
  assert (Hn : b -> (0 < fuel)%nat) by (unfold b; lia).
  assert (R : results (handle_open_file fuel path) w b
                      (fun _ _ => False) E).
  { assert (Rp : results (parse_entities fuel fuel path ;; ret true) w b
                         (fun _ _ => False) E).
    { apply results_bind.
      destruct fuel as [|n] eqn:Ef; [unfold results, b; simpl; lia|].
      cbn [parse_entities]. rewrite <- Ef in *. apply results_bind.
      unfold parse_entity.
      apply (parse_entity_token
               fuel w b path g out
               (ws1 ++ a :: word ++ s2 :: ws2 ++ c :: rest ++ tail)%list
               "struct" OTHER 6 _ _ E H O);
        [discriminate | exact Hn | |].
      { destruct (outside_parts _ _ _ _ O) as (Hp & Hg & Ho).
        rewrite <- (after_blob_space
                      s1
                      (ws1 ++ a :: word ++ s2 :: ws2 ++ c :: rest ++ tail)
                      Hs1).
        apply (blob_next
                 fuel (mkWorld (t w) (forget_comment g) out) b _ ws0
                 "s"%char (Py.chars "truct")
                 (s1 :: ws1 ++ a :: word ++ s2 :: ws2 ++ c :: rest
                     ++ tail)%list
                 B H);
          [reflexivity | exact P | exact Hws0
          |repeat split; reflexivity | discriminate
          |repeat constructor; reflexivity | left; exact Hs1
          |unfold b; simpl; lia]. }
      intros w1 L1. pose proof L1 as (_ & _ & T1 & _).
      apply results_bind, results_get_t. rewrite T1.
      change (String.eqb "struct" KW_PACKAGE) with false.
      change (String.eqb "struct" KW_STRUCT) with true. cbv iota.
      destruct (lexed_fresh _ _ _ _ _ L1) as (B1 & H1 & O1 & P1).
      apply results_bind. unfold parse_struct.
      apply (read_token_results
               fuel true "struct name" w1 b (path, forget_comment g, out)
               (ws2 ++ c :: rest ++ tail)%list
               (string_of_list_ascii (a :: word)) OTHER
               (Z.of_nat (S (List.length word))) _ _ E H1);
        [discriminate | exact Hn | |].
      { rewrite <- (after_blob_space s2 (ws2 ++ c :: rest ++ tail) Hs2).
        apply (blob_next
                 fuel w1 b _ ws1 a word
                 (s2 :: ws2 ++ c :: rest ++ tail)%list
                 B1 H1 O1 P1 Hws1 Ha Hsl Hword);
          [left; exact Hs2 | unfold b; lia]. }
      intros w3 L3. pose proof L3 as (_ & _ & T3 & _ & _ & O3).
      apply outside_parts in O3. destruct O3 as (_ & Hg3 & _).
      apply results_bind, results_get_t. rewrite T3.
      apply results_bind, results_get_lcmgen. rewrite Hg3. cbv zeta.
      apply results_step. unfold upd_cache at 1. apply yields_upd_lcmgen.
      apply (lexed_upd_cache (set_file_comment None)) in L3.
      match type of L3 with lexed (_, ?g4, _) _ _ _ ?w4 =>
        set (G4 := g4) in *; set (W4 := w4) in * end.
      pose proof L3 as (_ & _ & _ & _ & _ & O4).
      apply outside_parts in O4. destruct O4 as (_ & Hg4 & _).
      apply results_step. unfold take_comment_doc.
      apply yields_bind, yields_get_lcmgen. rewrite Hg4.
      apply yields_bind. unfold upd_cache at 1. apply yields_upd_lcmgen.
      apply (lexed_upd_cache (set_comment_doc None)) in L3.
      match type of L3 with lexed (_, ?g5, _) _ _ _ ?w5 =>
        set (G5 := g5) in *; set (W5 := w5) in * end.
      apply yields_ret.
      destruct (lexed_fresh _ _ _ _ _ L3) as (B5 & H5 & O5 & P5).
      apply (require_other
               fuel "{" W5 b (path, G5, out) (after_blob tail)
               (string_of_list_ascii (c :: rest)) OTHER
               (Z.of_nat (S (List.length rest))) _ _ E H5);
        [discriminate | exact Hn | exact Hne | |].
      { apply (blob_next
                 fuel W5 b _ ws2 c rest tail B5 H5 O5 P5 Hws2 Hc Hcsl
                 Hrest Htail).
        unfold b. lia. }
      intros w6 l1 l2 l3 L6. destruct L6 as (_ & _ & _ & _ & _ & O6).
      apply outside_parts in O6. destruct O6 as (_ & Hg6 & Ho6).
      split; [reflexivity|]. cbn [lcmgen stdout].
      split; [rewrite Hg6; reflexivity|].
      exists l1, l2, l3. now rewrite Ho6. }
    unfold handle_open_file. apply results_bind, results_get_lcmgen.
    destruct (tokenize (gopt (lcmgen w))) as [[|]|] eqn:Et;
      [|exact Rp|exact Rp].
    elim Htok. exact Et. }
  destruct (results_ok _ _ _ _ _ R Hfuel)
    as [(r & w' & _ & [])|(st & w' & Ex & -> & Hg' & l1 & l2 & l3 & Ho')].
  exists l1, l2, l3. unfold handle_file. rewrite Hsrc.
  fold w. rewrite Ex. now rewrite Hg', Ho'.
Qed.

Lemma struct_needs_a_separate_brace_witness :
  exists l1 l2 l3,
    handle_file 32 [("s.lcm", "struct pt {}")] create_lcmgen [] "s.lcm"
    = Stopped 1
              (set_parse_cache
                 (mkParseCache (cache_package (parse_cache create_lcmgen))
                               None None)
                 create_lcmgen)
              ([] ++ [EmptyString; "Expected token: {"; l1; l2; l3]).
Proof.
  apply (struct_needs_a_separate_brace
           32 [("s.lcm", "struct pt {}")] create_lcmgen [] "s.lcm"
           "struct pt {}" [] " "%char [] "p"%char (Py.chars "t")
           " "%char [] "{"%char (Py.chars "}") []).
  - reflexivity.
  - discriminate.
  - reflexivity.
  - constructor.
  - reflexivity.
  - constructor.
  - repeat split; reflexivity.
  - discriminate.
  - repeat constructor; reflexivity.
  - reflexivity.
  - constructor.
  - repeat split; reflexivity.
  - discriminate.
  - repeat constructor; reflexivity.
  - exact I.
  - discriminate.
  - simpl. lia.
Defined.
(** ** Type names *)

Section TypeNames.

Lemma rfind_dot_from_spec cs :
  forall i last,
    (Py.rfind_dot_from i cs last = last /\ Forall no_dot cs)
    \/ exists pre post,
        cs = (pre ++ "."%char :: post)%list /\ Forall no_dot post
        /\ Py.rfind_dot_from i cs last = i + Z.of_nat (List.length pre).
Proof.
  induction cs as [|c cs IH]; intros i last; cbn [Py.rfind_dot_from].
  - left. split; [reflexivity|constructor].
  - destruct (Ascii.eqb c ".") eqn:Ec.
    + apply Ascii.eqb_eq in Ec. subst c. right.
      destruct (IH (i + 1) i) as [(E & N)|(pre & post & -> & N & E)].
      * exists [], cs. cbn [app List.length]. rewrite E.
        repeat split; [exact N|lia].
      * exists ("."%char :: pre), post. rewrite E.
        cbn [app List.length]. repeat split; [exact N|lia].
    + destruct (IH (i + 1) last) as [(E & N)|(pre & post & -> & N & E)].
      * left. split; [exact E|]. constructor; [exact Ec|exact N].
      * right. exists (c :: pre), post. rewrite E.
        cbn [app List.length]. repeat split; [exact N|lia].
Qed.

Lemma rfind_dot_none cs i :
  Forall no_dot cs -> Py.rfind_dot_from i cs (-1) = -1.
Proof.
  intros N.
  destruct (rfind_dot_from_spec cs i (-1))
    as [(E & _)|(pre & post & -> & _ & _)]; [exact E|].
  apply Forall_app in N. destruct N as (_ & N).
  inversion N as [|? ? Hd _]. discriminate Hd.
Qed.

Lemma string_of_list_app l r :
  string_of_list_ascii (l ++ r)
  = string_of_list_ascii l ++ string_of_list_ascii r.
Proof. induction l as [|c l IH]; simpl; [|rewrite IH]; reflexivity. Qed.

Lemma length_append p r :
  String.length (p ++ r) = (String.length p + String.length r)%nat.
Proof. induction p as [|c p IH]; simpl; [|rewrite IH]; reflexivity. Qed.

Lemma substring_all q : substring 0 (String.length q) q = q.
Proof. induction q as [|c q IH]; simpl; [|rewrite IH]; reflexivity. Qed.

Lemma substring_head p r :
  substring 0 (String.length p) (p ++ r) = p.
Proof.
  induction p as [|c p IH]; simpl; [|rewrite IH; reflexivity].
  destruct r; reflexivity.
Qed.

Lemma substring_skip p r n :
  substring (String.length p) n (p ++ r) = substring 0 n r.
Proof. induction p as [|c p IH]; simpl; [reflexivity|exact IH]. Qed.

Lemma length_of_list l :
  String.length (string_of_list_ascii l) = List.length l.
Proof. induction l as [|c l IH]; simpl; [|rewrite IH]; reflexivity. Qed.

(** [s.rfind(".")]: the string is cut at its last dot. *)
Lemma rfind_dot_cut s :
  Py.rfind_dot s <> -1 ->
  s = Py.slice_to s (Py.rfind_dot s) ++ "."
        ++ Py.slice_from s (Py.rfind_dot s + 1)
  /\ Py.rfind_dot (Py.slice_from s (Py.rfind_dot s + 1)) = -1.
Proof.
  intros Hr. unfold Py.rfind_dot in *.
  destruct (rfind_dot_from_spec (Py.chars s) 0 (-1))
    as [(E & _)|(pre & post & Hs & N & E)]; [congruence|].
  rewrite E. clear Hr E.
  assert (Es : s = string_of_list_ascii pre
                   ++ String "." (string_of_list_ascii post)).
  { rewrite <- (string_of_list_ascii_of_string s) at 1.
    unfold Py.chars in Hs. rewrite Hs. apply string_of_list_app. }
  set (p := string_of_list_ascii pre) in *.
  set (q := string_of_list_ascii post) in *.
  assert (Lp : String.length p = List.length pre)
    by apply length_of_list.
  assert (Ls : String.length s = (List.length pre + S (String.length q))%nat).
  { rewrite Es, length_append, Lp. reflexivity. }
  assert (Eto : Py.slice_to s (0 + Z.of_nat (List.length pre)) = p).
  { unfold Py.slice_to, Py.len. rewrite Ls.
    replace (0 + Z.of_nat (List.length pre) <? 0)%Z with false
      by (symmetry; apply Z.ltb_ge; lia).
    rewrite Z.min_l by lia.
    replace (Z.to_nat (0 + Z.of_nat (List.length pre)))
      with (String.length p) by lia.
    rewrite Es. apply substring_head. }
  assert (Efrom : Py.slice_from s (0 + Z.of_nat (List.length pre) + 1) = q).
  { unfold Py.slice_from. rewrite Ls.
    replace (Z.to_nat (0 + Z.of_nat (List.length pre) + 1))
      with (S (List.length pre)) by lia.
    replace (List.length pre + S (String.length q) - S (List.length pre))%nat
      with (String.length q) by lia.
    rewrite Es.
    change (String "." q) with ("." ++ q).
    rewrite <- Lp.
    replace (S (String.length p)) with (String.length (p ++ ".")).
    2:{ rewrite length_append. simpl. lia. }
    replace (p ++ "." ++ q) with ((p ++ ".") ++ q).
    2:{ clear. induction p as [|c p IH]; simpl; [|rewrite IH]; reflexivity. }
    rewrite substring_skip. apply substring_all. }
  rewrite Eto, Efrom. split; [exact Es|].
  unfold q, Py.chars. rewrite list_ascii_of_string_of_list_ascii.
  now apply rfind_dot_none.
Qed.

End TypeNames.

(** X30: the three parts of every type name that [create_typename]
    builds fit together: the full name is the package, a dot and the
    short name, or the package is empty and the full name is the short
    name; and the short name holds no dot. This holds for every raw
    name, every package of the parse cache and every package prefix. *)
Theorem type_name_parts_fit :
  forall g raw,
    (lctypename (create_typename g raw)
     = (package (create_typename g raw) ++ "."
          ++ shortname (create_typename g raw))%string
     \/ (package (create_typename g raw) = EmptyString
         /\ lctypename (create_typename g raw)
            = shortname (create_typename g raw)))
    /\ Py.rfind_dot (shortname (create_typename g raw)) = -1.
Proof.
  intros g raw.
  change (well_split (lctypename (create_typename g raw))
                     (package (create_typename g raw))
                     (shortname (create_typename g raw))).
  unfold create_typename.
  set (first :=
         if Py.rfind_dot raw =? -1 then
           if Py.str_in raw PRIMITIVE_TYPES then (raw, EmptyString, raw)
           else if nonempty (cache_package (parse_cache g))
                then (cache_package (parse_cache g) ++ "." ++ raw,
                      cache_package (parse_cache g), raw)
                else (raw, cache_package (parse_cache g), raw)
         else (raw, Py.slice_to raw (Py.rfind_dot raw),
               Py.slice_from raw (Py.rfind_dot raw + 1))).
  assert (F : well_split (fst (fst first)) (snd (fst first)) (snd first)).
  { unfold first. destruct (Py.rfind_dot raw =? -1) eqn:Ed.
    - apply Z.eqb_eq in Ed.
      destruct (Py.str_in raw PRIMITIVE_TYPES).
      + split; [right; now split|exact Ed].
      + destruct (cache_package (parse_cache g)) as [|c r] eqn:Ep;
          cbn [nonempty fst snd].
        * split; [right; now split|exact Ed].
        * split; [left; reflexivity|exact Ed].
    - apply Z.eqb_neq in Ed. destruct (rfind_dot_cut raw Ed) as (E1 & E2).
      cbn [fst snd]. split; [left; exact E1|exact E2]. }
  destruct first as [[ty pk] sh]. cbn [fst snd] in F. cbv zeta.
  destruct (nonempty _ && negb _); cbn [lctypename package shortname].
  - split; [left; reflexivity|apply F].
  - exact F.
Qed.
